(** * clspv: the SPIR-V producer pass (lib/SPIRVProducerPass.cpp)

    A shallow embedding of the parts of [SPIRVProducerPass] that decide the
    properties stated at the end of this file: the operand / instruction
    model with its derived word count, header emission and patching, type
    and constant emission, the workgroup-size handling of module-scope
    variables, the lowering of binary operators, and the resolution of
    deferred branches and calls.

    Conventions.
    - A C++ [uintN_t] is a [Z] in [0, 2^N); every place where the source
      truncates is written with [wrap16], [wrap32] or [wrap64].
    - [llvm_unreachable] is a fatal stop: the pass monad [M] returns [Abort].
    - [DenseMap] is a [gmap]; [operator[]] on a missing key inserts the
      default value 0, as in the source, and is written [at_].
    - LLVM types and constants are uniqued by their context, so pointer
      equality on [Type*] / [Constant*] is structural equality here. *)

From Stdlib Require Import ZArith Lia String Ascii List.
From stdpp Require Import base tactics option list countable gmap strings.

Local Open Scope Z_scope.
#[local] Set Warnings "-register-all".

(** ** Machine integers *)

Definition wrap16 (z : Z) : Z := z mod 2 ^ 16.
Definition wrap32 (z : Z) : Z := z mod 2 ^ 32.
Definition wrap64 (z : Z) : Z := z mod 2 ^ 64.

(** ** The SPIR-V enumerations used by the pass (spirv/1.0/spirv.hpp) *)

Module spv.

Inductive Op : Set :=
| OpNop | OpUndef | OpSource | OpExtension | OpExtInstImport | OpExtInst
| OpMemoryModel | OpEntryPoint | OpExecutionMode | OpCapability
| OpTypeVoid | OpTypeBool | OpTypeInt | OpTypeFloat | OpTypeVector
| OpTypeImage | OpTypeSampler | OpTypeSampledImage | OpTypeArray
| OpTypeRuntimeArray | OpTypeStruct | OpTypePointer | OpTypeFunction
| OpConstantTrue | OpConstantFalse | OpConstant | OpConstantComposite
| OpConstantNull | OpSpecConstant | OpSpecConstantComposite
| OpFunction | OpFunctionParameter | OpFunctionEnd | OpFunctionCall
| OpVariable | OpDecorate | OpMemberDecorate | OpCompositeConstruct
| OpIAdd | OpFAdd | OpISub | OpFSub | OpIMul | OpFMul | OpUDiv | OpSDiv
| OpFDiv | OpUMod | OpSRem | OpFRem
| OpLogicalNotEqual | OpLogicalOr | OpLogicalAnd | OpLogicalNot
| OpShiftRightLogical | OpShiftRightArithmetic | OpShiftLeftLogical
| OpBitwiseOr | OpBitwiseXor | OpBitwiseAnd | OpBitCount
| OpPhi | OpLoopMerge | OpSelectionMerge | OpLabel | OpBranch
| OpBranchConditional | OpReturn | OpReturnValue.

Global Instance Op_eq_dec : EqDecision Op.
Proof. solve_decision. Defined.

Definition MagicNumber : Z := 0x07230203.
Definition Version : Z := 0x00010000.

(* StorageClass *)
Definition StorageClassUniformConstant : Z := 0.
Definition StorageClassInput : Z := 1.
Definition StorageClassUniform : Z := 2.
Definition StorageClassWorkgroup : Z := 4.
Definition StorageClassPrivate : Z := 6.
Definition StorageClassFunction : Z := 7.
Definition StorageClassStorageBuffer : Z := 12.

(* Decoration *)
Definition DecorationSpecId : Z := 1.
Definition DecorationBlock : Z := 2.
Definition DecorationArrayStride : Z := 6.
Definition DecorationBuiltIn : Z := 11.
Definition DecorationBinding : Z := 33.
Definition DecorationDescriptorSet : Z := 34.
Definition DecorationOffset : Z := 35.

(* BuiltIn *)
Inductive BuiltIn : Set :=
| BuiltInNumWorkgroups | BuiltInWorkgroupSize | BuiltInWorkgroupId
| BuiltInLocalInvocationId | BuiltInGlobalInvocationId | BuiltInMax.

Global Instance BuiltIn_eq_dec : EqDecision BuiltIn.
Proof. solve_decision. Defined.

Definition BuiltIn_value (b : BuiltIn) : Z :=
  match b with
  | BuiltInNumWorkgroups => 24
  | BuiltInWorkgroupSize => 25
  | BuiltInWorkgroupId => 26
  | BuiltInLocalInvocationId => 27
  | BuiltInGlobalInvocationId => 28
  | BuiltInMax => 0x7fffffff
  end.

Definition Dim2D : Z := 1.
Definition Dim3D : Z := 2.
Definition ImageFormatUnknown : Z := 0.
Definition ExecutionModeLocalSize : Z := 17.
Definition SelectionControlMaskNone : Z := 0.

End spv.
Export spv.

(** ** Operands and instructions *)

Inductive SPIRVOperandType : Set :=
| NUMBERID | LITERAL_INTEGER | LITERAL_STRING | LITERAL_FLOAT.

Global Instance SPIRVOperandType_eq_dec : EqDecision SPIRVOperandType.
Proof. solve_decision. Defined.

Record SPIRVOperand : Set := mkSPIRVOperand {
  Type_ : SPIRVOperandType;
  LiteralStr : string;
  LiteralNum : list Z
}.

Global Instance SPIRVOperand_eq_dec : EqDecision SPIRVOperand.
Proof. solve_decision. Defined.

Definition getNumID (o : SPIRVOperand) : Z := nth 0 (LiteralNum o) 0.

(** [uint32_t GetNumWords() const]: the [size_t] results are truncated to
    the 32-bit return type. *)
Definition GetNumWords (o : SPIRVOperand) : Z :=
  match Type_ o with
  | NUMBERID => 1
  | LITERAL_INTEGER | LITERAL_FLOAT =>
      wrap32 (Z.of_nat (length (LiteralNum o)))
  | LITERAL_STRING =>
      (* Account for the terminating null character. *)
      wrap32 (wrap64 (Z.of_nat (String.length (LiteralStr o)) + 4) / 4)
  end.

Definition MkNum (num : Z) : SPIRVOperand :=
  mkSPIRVOperand LITERAL_INTEGER EmptyString [num].
Definition MkInteger (num_vec : list Z) : SPIRVOperand :=
  mkSPIRVOperand LITERAL_INTEGER EmptyString num_vec.
Definition MkFloat (num_vec : list Z) : SPIRVOperand :=
  mkSPIRVOperand LITERAL_FLOAT EmptyString num_vec.
Definition MkId (id : Z) : SPIRVOperand :=
  mkSPIRVOperand NUMBERID EmptyString [id].
Definition MkString (str : string) : SPIRVOperand :=
  mkSPIRVOperand LITERAL_STRING str [].

Record SPIRVInstruction : Set := mkSPIRVInstruction {
  WordCount : Z;   (* uint16_t *)
  Opcode : Op;     (* uint16_t, kept symbolic *)
  ResultID : Z;    (* uint32_t *)
  Operands : list SPIRVOperand
}.

Global Instance SPIRVInstruction_eq_dec : EqDecision SPIRVInstruction.
Proof. solve_decision. Defined.

(** The loop [for (auto *operand : Ops) WordCount += operand->GetNumWords();]
    on the [uint16_t] member, starting from [init]. *)
Definition addWordCounts (init : Z) (Ops : list SPIRVOperand) : Z :=
  fold_left (fun wc operand => wrap16 (wrap32 (wc + GetNumWords operand)))
            Ops init.

(** Outcome of a computation that may hit [llvm_unreachable]. *)
Inductive result (A : Type) : Type :=
| OK (a : A)
| Abort (msg : string).
Arguments OK {A} a.
Arguments Abort {A} msg.

(** [SPIRVInstruction(spv::Op Opc, ArrayRef<SPIRVOperand *> Ops)] *)
Definition NewInst (Opc : Op) (Ops : list SPIRVOperand) : SPIRVInstruction :=
  mkSPIRVInstruction (addWordCounts 1 Ops) Opc 0 Ops.

(** [SPIRVInstruction(spv::Op Opc, uint32_t ResID, ArrayRef<...> Ops)] *)
Definition NewInstRes (Opc : Op) (ResID : Z) (Ops : list SPIRVOperand)
  : result SPIRVInstruction :=
  if ResID =? 0 then Abort "Result ID of 0 was provided"
  else OK (mkSPIRVInstruction (addWordCounts 2 Ops) Opc ResID Ops).

(** ** The LLVM IR data the pass reads *)

(** Modelled from the spec: the enumerators of clspv/AddressSpace.h (the
    header lives outside lib/); section 6 of the design lists the closed
    set.  [Unknown] stands for any other address-space number,
    which [GetStorageClass] sends to its [default:] branch. *)
Module AddressSpace.
Inductive t : Set :=
| Private | Global | Constant | Local | Input | UniformConstant | Uniform
| ModuleScopePrivate | Unknown (n : Z).

Global Instance eq_dec : EqDecision t.
Proof. solve_decision. Defined.
End AddressSpace.

(** [llvm::Type], by [Type::TypeID].  [OtherTy] stands for the type kinds the
    pass has no case for (x86_fp80, token, ...). *)
Inductive Ty : Set :=
| VoidTy | HalfTy | FloatTy | DoubleTy | LabelTy | MetadataTy | OtherTy
| IntegerTy (BitWidth : Z)
| PointerTy (ElementType : Ty) (AddrSpace : AddressSpace.t)
| StructTy (Name : string) (isOpaque : bool) (elements : list Ty)
| ArrayTy (ElementType : Ty) (NumElements : Z)
| VectorTy (ElementType : Ty) (NumElements : Z)
| FunctionTy (ReturnType : Ty) (Params : list Ty).

Global Instance Ty_eq_dec : EqDecision Ty.
Proof.
  unfold EqDecision, Decision. fix go 1. intros a b.
  assert (golist : forall l k : list Ty, {l = k} + {l <> k}).
  { clear -go. intros l k. decide equality. }
  decide equality;
    solve [ apply Z.eq_dec | apply AddressSpace.eq_dec | apply string_dec
          | apply Bool.bool_dec ].
Defined.

Definition encode_AddressSpace (a : AddressSpace.t) : gen_tree (Z + string) :=
  match a with
  | AddressSpace.Private => GenNode 0 []
  | AddressSpace.Global => GenNode 1 []
  | AddressSpace.Constant => GenNode 2 []
  | AddressSpace.Local => GenNode 3 []
  | AddressSpace.Input => GenNode 4 []
  | AddressSpace.UniformConstant => GenNode 5 []
  | AddressSpace.Uniform => GenNode 6 []
  | AddressSpace.ModuleScopePrivate => GenNode 7 []
  | AddressSpace.Unknown n => GenNode 8 [GenLeaf (inl n)]
  end.

Definition decode_AddressSpace (t : gen_tree (Z + string)) : AddressSpace.t :=
  match t with
  | GenNode 0 [] => AddressSpace.Private
  | GenNode 1 [] => AddressSpace.Global
  | GenNode 2 [] => AddressSpace.Constant
  | GenNode 3 [] => AddressSpace.Local
  | GenNode 4 [] => AddressSpace.Input
  | GenNode 5 [] => AddressSpace.UniformConstant
  | GenNode 6 [] => AddressSpace.Uniform
  | GenNode 7 [] => AddressSpace.ModuleScopePrivate
  | GenNode 8 [GenLeaf (inl n)] => AddressSpace.Unknown n
  | _ => AddressSpace.Private
  end.

Fixpoint encode_Ty (t : Ty) : gen_tree (Z + string) :=
  match t with
  | VoidTy => GenNode 0 []
  | HalfTy => GenNode 1 []
  | FloatTy => GenNode 2 []
  | DoubleTy => GenNode 3 []
  | LabelTy => GenNode 4 []
  | MetadataTy => GenNode 5 []
  | OtherTy => GenNode 6 []
  | IntegerTy w => GenNode 7 [GenLeaf (inl w)]
  | PointerTy e a => GenNode 8 [encode_Ty e; encode_AddressSpace a]
  | StructTy n o es =>
      GenNode 9 (GenLeaf (inr n) :: GenLeaf (inl (if o then 1 else 0))
                 :: map encode_Ty es)
  | ArrayTy e n => GenNode 10 [encode_Ty e; GenLeaf (inl n)]
  | VectorTy e n => GenNode 11 [encode_Ty e; GenLeaf (inl n)]
  | FunctionTy r ps => GenNode 12 (encode_Ty r :: map encode_Ty ps)
  end.

Fixpoint decode_Ty (t : gen_tree (Z + string)) : Ty :=
  match t with
  | GenNode 0 [] => VoidTy
  | GenNode 1 [] => HalfTy
  | GenNode 2 [] => FloatTy
  | GenNode 3 [] => DoubleTy
  | GenNode 4 [] => LabelTy
  | GenNode 5 [] => MetadataTy
  | GenNode 7 [GenLeaf (inl w)] => IntegerTy w
  | GenNode 8 [e; a] => PointerTy (decode_Ty e) (decode_AddressSpace a)
  | GenNode 9 (GenLeaf (inr n) :: GenLeaf (inl o) :: es) =>
      StructTy n (o =? 1) (map decode_Ty es)
  | GenNode 10 [e; GenLeaf (inl n)] => ArrayTy (decode_Ty e) n
  | GenNode 11 [e; GenLeaf (inl n)] => VectorTy (decode_Ty e) n
  | GenNode 12 (r :: ps) => FunctionTy (decode_Ty r) (map decode_Ty ps)
  | _ => OtherTy
  end.

Lemma decode_encode_AddressSpace a :
  decode_AddressSpace (encode_AddressSpace a) = a.
Proof. destruct a; reflexivity. Qed.

Lemma decode_encode_Ty : forall t, decode_Ty (encode_Ty t) = t.
Proof.
  fix IH 1. intros t.
  assert (IHl : forall l : list Ty, map decode_Ty (map encode_Ty l) = l).
  { clear -IH. induction l as [|x l IHl]; simpl; [reflexivity|].
    rewrite IH, IHl. reflexivity. }
  destruct t; simpl; try reflexivity.
  - rewrite IH, decode_encode_AddressSpace. reflexivity.
  - rewrite IHl. destruct isOpaque; reflexivity.
  - rewrite IH. reflexivity.
  - rewrite IH. reflexivity.
  - rewrite IH, IHl. reflexivity.
Qed.

Global Instance Ty_countable : Countable Ty :=
  inj_countable' encode_Ty decode_Ty decode_encode_Ty.

(** [llvm::Constant].  Integer payloads are the zero-extended values
    ([getZExtValue]); a floating-point constant carries its bit pattern
    ([bitcastToAPInt]).  [ConstantDataSequential] covers ConstantDataArray
    and ConstantDataVector, [ConstantAggregate] covers ConstantArray,
    ConstantStruct and ConstantVector.  [ConstantExpr] stands for every other
    constant kind (expressions, block addresses, ...). *)
Inductive Constant : Set :=
| UndefValue (ty : Ty)
| ConstantInt (BitWidth : Z) (val : Z)
| ConstantFP (ty : Ty) (bits : Z)
| ConstantDataSequential (ty : Ty) (elts : list Z)
| ConstantAggregate (ty : Ty) (ops : list Constant)
| ConstantAggregateZero (ty : Ty)
| ConstantPointerNull (ty : Ty)
| ConstantExpr (id : Z) (ty : Ty).

Global Instance Constant_eq_dec : EqDecision Constant.
Proof.
  unfold EqDecision, Decision. fix go 1. intros a b.
  assert (golist : forall l k : list Constant, {l = k} + {l <> k}).
  { clear -go. intros l k. decide equality. }
  decide equality;
    solve [ apply Z.eq_dec | apply Ty_eq_dec | apply golist
          | apply List.list_eq_dec, Z.eq_dec ].
Defined.

Fixpoint encode_Constant (c : Constant) : gen_tree (Z + string) :=
  match c with
  | UndefValue ty => GenNode 0 [encode_Ty ty]
  | ConstantInt w v => GenNode 1 [GenLeaf (inl w); GenLeaf (inl v)]
  | ConstantFP ty b => GenNode 2 [encode_Ty ty; GenLeaf (inl b)]
  | ConstantDataSequential ty es =>
      GenNode 3 (encode_Ty ty :: map (fun e => GenLeaf (inl e)) es)
  | ConstantAggregate ty ops =>
      GenNode 4 (encode_Ty ty :: map encode_Constant ops)
  | ConstantAggregateZero ty => GenNode 5 [encode_Ty ty]
  | ConstantPointerNull ty => GenNode 6 [encode_Ty ty]
  | ConstantExpr id ty => GenNode 7 [GenLeaf (inl id); encode_Ty ty]
  end.

Definition decode_leafZ (t : gen_tree (Z + string)) : Z :=
  match t with GenLeaf (inl z) => z | _ => 0 end.

Fixpoint decode_Constant (t : gen_tree (Z + string)) : Constant :=
  match t with
  | GenNode 0 [ty] => UndefValue (decode_Ty ty)
  | GenNode 1 [GenLeaf (inl w); GenLeaf (inl v)] => ConstantInt w v
  | GenNode 2 [ty; GenLeaf (inl b)] => ConstantFP (decode_Ty ty) b
  | GenNode 3 (ty :: es) =>
      ConstantDataSequential (decode_Ty ty) (map decode_leafZ es)
  | GenNode 4 (ty :: ops) =>
      ConstantAggregate (decode_Ty ty) (map decode_Constant ops)
  | GenNode 5 [ty] => ConstantAggregateZero (decode_Ty ty)
  | GenNode 6 [ty] => ConstantPointerNull (decode_Ty ty)
  | GenNode 7 [GenLeaf (inl id); ty] => ConstantExpr id (decode_Ty ty)
  | _ => ConstantExpr 0 OtherTy
  end.

Lemma decode_encode_Constant : forall c, decode_Constant (encode_Constant c) = c.
Proof.
  fix IH 1. intros c.
  assert (IHl : forall l : list Constant,
             map decode_Constant (map encode_Constant l) = l).
  { clear -IH. induction l as [|x l IHl]; simpl; [reflexivity|].
    rewrite IH, IHl. reflexivity. }
  assert (Hz : forall l : list Z,
             map decode_leafZ (map (fun e => GenLeaf (inl e)) l) = l).
  { clear. induction l as [|x l IHl]; simpl; [reflexivity|].
    rewrite IHl. reflexivity. }
  destruct c; simpl; rewrite ?decode_encode_Ty, ?IHl, ?Hz; reflexivity.
Qed.

Global Instance Constant_countable : Countable Constant :=
  inj_countable' encode_Constant decode_Constant decode_encode_Constant.

(** [llvm::Value]: what the value map is keyed by.  Instructions, blocks and
    arguments are identified by a number, functions and global variables by
    their (module-unique) name. *)
Inductive Value : Set :=
| VConstant (c : Constant)
| VInstruction (id : Z)
| VBasicBlock (id : Z)
| VArgument (id : Z)
| VFunction (name : string)
| VGlobalVariable (name : string).

Global Instance Value_eq_dec : EqDecision Value.
Proof. solve_decision. Defined.

Definition encode_Value (v : Value) : gen_tree (Z + string) :=
  match v with
  | VConstant c => GenNode 0 [encode_Constant c]
  | VInstruction id => GenNode 1 [GenLeaf (inl id)]
  | VBasicBlock id => GenNode 2 [GenLeaf (inl id)]
  | VArgument id => GenNode 3 [GenLeaf (inl id)]
  | VFunction n => GenNode 4 [GenLeaf (inr n)]
  | VGlobalVariable n => GenNode 5 [GenLeaf (inr n)]
  end.

Definition decode_Value (t : gen_tree (Z + string)) : Value :=
  match t with
  | GenNode 0 [c] => VConstant (decode_Constant c)
  | GenNode 1 [GenLeaf (inl id)] => VInstruction id
  | GenNode 2 [GenLeaf (inl id)] => VBasicBlock id
  | GenNode 3 [GenLeaf (inl id)] => VArgument id
  | GenNode 4 [GenLeaf (inr n)] => VFunction n
  | GenNode 5 [GenLeaf (inr n)] => VGlobalVariable n
  | _ => VInstruction 0
  end.

Lemma decode_encode_Value v : decode_Value (encode_Value v) = v.
Proof. destruct v; simpl; rewrite ?decode_encode_Constant; reflexivity. Qed.

Global Instance Value_countable : Countable Value :=
  inj_countable' encode_Value decode_Value decode_encode_Value.

(** [isa<Constant>(V)]: global values are constants too. *)
Definition isa_Constant (v : Value) : bool :=
  match v with
  | VConstant _ | VFunction _ | VGlobalVariable _ => true
  | _ => false
  end.

(** [Constant::getType] *)
Definition Constant_getType (c : Constant) : Ty :=
  match c with
  | UndefValue ty | ConstantFP ty _ | ConstantDataSequential ty _
  | ConstantAggregate ty _ | ConstantAggregateZero ty
  | ConstantPointerNull ty | ConstantExpr _ ty => ty
  | ConstantInt w _ => IntegerTy w
  end.

(** [Constant::isNullValue] *)
Definition isNullValue (c : Constant) : bool :=
  match c with
  | ConstantInt _ v => v =? 0
  | ConstantFP _ b => b =? 0
  | ConstantAggregateZero _ | ConstantPointerNull _ => true
  | _ => false
  end.

Definition i1 : Ty := IntegerTy 1.
Definition i8 : Ty := IntegerTy 8.
Definition i32 : Ty := IntegerTy 32.

(** [Type::isIntegerTy(w)], [isFPOrFPVectorTy], [isIntOrIntVectorTy] *)
Definition isIntegerTy (ty : Ty) (w : Z) : bool :=
  match ty with IntegerTy w' => w' =? w | _ => false end.
Definition isFloatingPointTy (ty : Ty) : bool :=
  match ty with HalfTy | FloatTy | DoubleTy => true | _ => false end.
Definition getScalarType (ty : Ty) : Ty :=
  match ty with VectorTy e _ => e | _ => ty end.
Definition isFPOrFPVectorTy (ty : Ty) : bool :=
  isFloatingPointTy (getScalarType ty).
Definition isIntOrIntVectorTy (ty : Ty) : bool :=
  match getScalarType ty with IntegerTy _ => true | _ => false end.

(** [ConstantDataSequential::isString]: an array of 8-bit integers. *)
Definition CDS_isString (ty : Ty) : bool :=
  match ty with ArrayTy (IntegerTy 8) _ => true | _ => false end.

(** [ConstantDataSequential::getElementAsConstant] *)
Definition getSequentialElementType (ty : Ty) : Ty :=
  match ty with ArrayTy e _ | VectorTy e _ => e | _ => ty end.
Definition CDS_getElementAsConstant (ty : Ty) (e : Z) : Constant :=
  match getSequentialElementType ty with
  | IntegerTy w => ConstantInt w e
  | ety => ConstantFP ety e
  end.

(** Instructions that are resolved late: branches, phis and calls. *)
Inductive BranchInst : Set :=
| BrUncond (Parent : Z) (Function : string) (Target : Z)
| BrCond (Parent : Z) (Function : string) (Condition : Value)
         (IfTrue IfFalse : Z).

Definition Br_getParent (br : BranchInst) : Z :=
  match br with BrUncond p _ _ | BrCond p _ _ _ _ => p end.
Definition Br_getFunction (br : BranchInst) : string :=
  match br with BrUncond _ f _ | BrCond _ f _ _ _ => f end.
Definition Br_isConditional (br : BranchInst) : bool :=
  match br with BrUncond _ _ _ => false | BrCond _ _ _ _ _ => true end.
Definition Br_getSuccessors (br : BranchInst) : list Z :=
  match br with BrUncond _ _ t => [t] | BrCond _ _ _ t f => [t; f] end.

Record PHINode : Set := mkPHINode {
  PHI_getType : Ty;
  PHI_incoming : list (Value * Z)   (* (incoming value, incoming block) *)
}.

(** A direct call.  [Call_NumParams] is [getFunctionType()->getNumParams()],
    [Call_args] the argument operands in order. *)
Record CallInst : Set := mkCallInst {
  Call_getType : Ty;
  Call_Callee : string;
  Call_NumParams : nat;
  Call_args : list Value
}.

Inductive Instruction : Set :=
| IBranch (br : BranchInst)
| IPHI (phi : PHINode)
| ICall (call : CallInst).

(** Binary operators, [Instruction::BinaryOps]. *)
Inductive BinaryOps : Set :=
| Add | FAdd | Sub | FSub | Mul | FMul | UDiv | SDiv | FDiv | URem | SRem
| FRem | Shl | LShr | AShr | And | Or | Xor.

Global Instance BinaryOps_eq_dec : EqDecision BinaryOps.
Proof. solve_decision. Defined.

Record BinaryOperator : Set := mkBinaryOperator {
  BO_id : Z;               (* identity of the instruction as a Value *)
  BO_getOpcode : BinaryOps;
  BO_getType : Ty;
  BO_Op0 : Value;
  BO_Op1 : Value
}.

(** Functions of the module, as far as the pass looks at them here. *)
Inductive CallingConv : Set := SPIR_KERNEL | SPIR_FUNC.

Global Instance CallingConv_eq_dec : EqDecision CallingConv.
Proof. solve_decision. Defined.

(** The three operands of a [reqd_work_group_size] node; each is a
    ConstantInt given by its bit width and zero-extended value. *)
Record MDNode3 : Set := mkMDNode3 {
  MD_op0 : Z * Z;
  MD_op1 : Z * Z;
  MD_op2 : Z * Z
}.

Definition MD_ConstantInt (op : Z * Z) : Constant := ConstantInt op.1 op.2.

Record Function_ : Set := mkFunction {
  F_getName : string;
  F_isDeclaration : bool;
  F_getCallingConv : CallingConv;
  F_reqd_work_group_size : option MDNode3
}.

Record GlobalVariable : Set := mkGlobalVariable {
  GV_getName : string;
  GV_getType : Ty;
  GV_Initializer : option Constant
}.

(** The loop and dominance queries used when a branch is resolved
    (llvm/Analysis/LoopInfo.h, llvm/IR/Dominators.h).  Blocks are named by
    their number. *)
Record Loop : Type := mkLoop {
  L_getExitBlock : option Z;
  L_isLoopLatch : Z -> bool;
  L_getHeader : Z;
  L_getLoopLatch : option Z;
  L_blocks : list Z
}.

Record FunctionAnalyses : Type := mkFunctionAnalyses {
  LI_isLoopHeader : Z -> bool;
  LI_getLoopFor : Z -> option Loop;
  DT_dominates : Z -> option Z -> bool
}.

(** ** The pass object *)

(** One cell of [SPIRVInstructionList]; [addr] is the identity of the list
    node, which is what a [std::list] iterator denotes. *)
Record Node : Set := mkNode {
  addr : nat;
  inst : SPIRVInstruction
}.

Inductive iterator : Set :=
| It (a : nat)
| End.

(** [std::tuple<Value *, SPIRVInstructionList::iterator, uint32_t>] *)
Record DeferredInst : Set := mkDeferredInst {
  DI_Inst : Instruction;
  DI_InsertPoint : iterator;
  DI_ResID : Z
}.

Record Pass : Type := mkPass {
  outputAsm : bool;
  outputCInitList : bool;
  out : list ascii;
  binaryTempOut : list ascii;
  patchBoundOffset : Z;
  nextID : Z;
  TypeMap : gmap Ty Z;
  ValueMap : gmap Value Z;
  AllocatedValueMap : gmap Value Z;
  SPIRVInsts : list Node;
  nextNode : nat;
  DeferredInstVec : list DeferredInst;
  EntryPointVec : list (Function_ * Z);
  BuiltinDimensionVec : list Z;
  TypesNeedingArrayStride : list Ty;
  WorkgroupSizeValueID : Z;
  WorkgroupSizeVarID : Z;
  NextDescriptorSetIndex : Z;
  constant_i32_zero_id_ : Z;
  errs : list string
}.

Definition set_outputAsm (v : bool) (s : Pass) : Pass :=
  {| outputAsm := v; outputCInitList := outputCInitList s; out := out s;
     binaryTempOut := binaryTempOut s;
     patchBoundOffset := patchBoundOffset s; nextID := nextID s;
     TypeMap := TypeMap s; ValueMap := ValueMap s;
     AllocatedValueMap := AllocatedValueMap s; SPIRVInsts := SPIRVInsts s;
     nextNode := nextNode s; DeferredInstVec := DeferredInstVec s;
     EntryPointVec := EntryPointVec s;
     BuiltinDimensionVec := BuiltinDimensionVec s;
     TypesNeedingArrayStride := TypesNeedingArrayStride s;
     WorkgroupSizeValueID := WorkgroupSizeValueID s;
     WorkgroupSizeVarID := WorkgroupSizeVarID s;
     NextDescriptorSetIndex := NextDescriptorSetIndex s;
     constant_i32_zero_id_ := constant_i32_zero_id_ s; errs := errs s |}.
Definition set_outputCInitList (v : bool) (s : Pass) : Pass :=
  {| outputAsm := outputAsm s; outputCInitList := v; out := out s;
     binaryTempOut := binaryTempOut s;
     patchBoundOffset := patchBoundOffset s; nextID := nextID s;
     TypeMap := TypeMap s; ValueMap := ValueMap s;
     AllocatedValueMap := AllocatedValueMap s; SPIRVInsts := SPIRVInsts s;
     nextNode := nextNode s; DeferredInstVec := DeferredInstVec s;
     EntryPointVec := EntryPointVec s;
     BuiltinDimensionVec := BuiltinDimensionVec s;
     TypesNeedingArrayStride := TypesNeedingArrayStride s;
     WorkgroupSizeValueID := WorkgroupSizeValueID s;
     WorkgroupSizeVarID := WorkgroupSizeVarID s;
     NextDescriptorSetIndex := NextDescriptorSetIndex s;
     constant_i32_zero_id_ := constant_i32_zero_id_ s; errs := errs s |}.
Definition set_out (v : list ascii) (s : Pass) : Pass :=
  {| outputAsm := outputAsm s; outputCInitList := outputCInitList s;
     out := v; binaryTempOut := binaryTempOut s;
     patchBoundOffset := patchBoundOffset s; nextID := nextID s;
     TypeMap := TypeMap s; ValueMap := ValueMap s;
     AllocatedValueMap := AllocatedValueMap s; SPIRVInsts := SPIRVInsts s;
     nextNode := nextNode s; DeferredInstVec := DeferredInstVec s;
     EntryPointVec := EntryPointVec s;
     BuiltinDimensionVec := BuiltinDimensionVec s;
     TypesNeedingArrayStride := TypesNeedingArrayStride s;
     WorkgroupSizeValueID := WorkgroupSizeValueID s;
     WorkgroupSizeVarID := WorkgroupSizeVarID s;
     NextDescriptorSetIndex := NextDescriptorSetIndex s;
     constant_i32_zero_id_ := constant_i32_zero_id_ s; errs := errs s |}.
Definition set_binaryTempOut (v : list ascii) (s : Pass) : Pass :=
  {| outputAsm := outputAsm s; outputCInitList := outputCInitList s;
     out := out s; binaryTempOut := v;
     patchBoundOffset := patchBoundOffset s; nextID := nextID s;
     TypeMap := TypeMap s; ValueMap := ValueMap s;
     AllocatedValueMap := AllocatedValueMap s; SPIRVInsts := SPIRVInsts s;
     nextNode := nextNode s; DeferredInstVec := DeferredInstVec s;
     EntryPointVec := EntryPointVec s;
     BuiltinDimensionVec := BuiltinDimensionVec s;
     TypesNeedingArrayStride := TypesNeedingArrayStride s;
     WorkgroupSizeValueID := WorkgroupSizeValueID s;
     WorkgroupSizeVarID := WorkgroupSizeVarID s;
     NextDescriptorSetIndex := NextDescriptorSetIndex s;
     constant_i32_zero_id_ := constant_i32_zero_id_ s; errs := errs s |}.
Definition set_patchBoundOffset (v : Z) (s : Pass) : Pass :=
  {| outputAsm := outputAsm s; outputCInitList := outputCInitList s;
     out := out s; binaryTempOut := binaryTempOut s; patchBoundOffset := v;
     nextID := nextID s; TypeMap := TypeMap s; ValueMap := ValueMap s;
     AllocatedValueMap := AllocatedValueMap s; SPIRVInsts := SPIRVInsts s;
     nextNode := nextNode s; DeferredInstVec := DeferredInstVec s;
     EntryPointVec := EntryPointVec s;
     BuiltinDimensionVec := BuiltinDimensionVec s;
     TypesNeedingArrayStride := TypesNeedingArrayStride s;
     WorkgroupSizeValueID := WorkgroupSizeValueID s;
     WorkgroupSizeVarID := WorkgroupSizeVarID s;
     NextDescriptorSetIndex := NextDescriptorSetIndex s;
     constant_i32_zero_id_ := constant_i32_zero_id_ s; errs := errs s |}.
Definition set_nextID (v : Z) (s : Pass) : Pass :=
  {| outputAsm := outputAsm s; outputCInitList := outputCInitList s;
     out := out s; binaryTempOut := binaryTempOut s;
     patchBoundOffset := patchBoundOffset s; nextID := v;
     TypeMap := TypeMap s; ValueMap := ValueMap s;
     AllocatedValueMap := AllocatedValueMap s; SPIRVInsts := SPIRVInsts s;
     nextNode := nextNode s; DeferredInstVec := DeferredInstVec s;
     EntryPointVec := EntryPointVec s;
     BuiltinDimensionVec := BuiltinDimensionVec s;
     TypesNeedingArrayStride := TypesNeedingArrayStride s;
     WorkgroupSizeValueID := WorkgroupSizeValueID s;
     WorkgroupSizeVarID := WorkgroupSizeVarID s;
     NextDescriptorSetIndex := NextDescriptorSetIndex s;
     constant_i32_zero_id_ := constant_i32_zero_id_ s; errs := errs s |}.
Definition set_TypeMap (v : gmap Ty Z) (s : Pass) : Pass :=
  {| outputAsm := outputAsm s; outputCInitList := outputCInitList s;
     out := out s; binaryTempOut := binaryTempOut s;
     patchBoundOffset := patchBoundOffset s; nextID := nextID s;
     TypeMap := v; ValueMap := ValueMap s;
     AllocatedValueMap := AllocatedValueMap s; SPIRVInsts := SPIRVInsts s;
     nextNode := nextNode s; DeferredInstVec := DeferredInstVec s;
     EntryPointVec := EntryPointVec s;
     BuiltinDimensionVec := BuiltinDimensionVec s;
     TypesNeedingArrayStride := TypesNeedingArrayStride s;
     WorkgroupSizeValueID := WorkgroupSizeValueID s;
     WorkgroupSizeVarID := WorkgroupSizeVarID s;
     NextDescriptorSetIndex := NextDescriptorSetIndex s;
     constant_i32_zero_id_ := constant_i32_zero_id_ s; errs := errs s |}.
Definition set_ValueMap (v : gmap Value Z) (s : Pass) : Pass :=
  {| outputAsm := outputAsm s; outputCInitList := outputCInitList s;
     out := out s; binaryTempOut := binaryTempOut s;
     patchBoundOffset := patchBoundOffset s; nextID := nextID s;
     TypeMap := TypeMap s; ValueMap := v;
     AllocatedValueMap := AllocatedValueMap s; SPIRVInsts := SPIRVInsts s;
     nextNode := nextNode s; DeferredInstVec := DeferredInstVec s;
     EntryPointVec := EntryPointVec s;
     BuiltinDimensionVec := BuiltinDimensionVec s;
     TypesNeedingArrayStride := TypesNeedingArrayStride s;
     WorkgroupSizeValueID := WorkgroupSizeValueID s;
     WorkgroupSizeVarID := WorkgroupSizeVarID s;
     NextDescriptorSetIndex := NextDescriptorSetIndex s;
     constant_i32_zero_id_ := constant_i32_zero_id_ s; errs := errs s |}.
Definition set_AllocatedValueMap (v : gmap Value Z) (s : Pass) : Pass :=
  {| outputAsm := outputAsm s; outputCInitList := outputCInitList s;
     out := out s; binaryTempOut := binaryTempOut s;
     patchBoundOffset := patchBoundOffset s; nextID := nextID s;
     TypeMap := TypeMap s; ValueMap := ValueMap s; AllocatedValueMap := v;
     SPIRVInsts := SPIRVInsts s; nextNode := nextNode s;
     DeferredInstVec := DeferredInstVec s; EntryPointVec := EntryPointVec s;
     BuiltinDimensionVec := BuiltinDimensionVec s;
     TypesNeedingArrayStride := TypesNeedingArrayStride s;
     WorkgroupSizeValueID := WorkgroupSizeValueID s;
     WorkgroupSizeVarID := WorkgroupSizeVarID s;
     NextDescriptorSetIndex := NextDescriptorSetIndex s;
     constant_i32_zero_id_ := constant_i32_zero_id_ s; errs := errs s |}.
Definition set_SPIRVInsts (v : list Node) (s : Pass) : Pass :=
  {| outputAsm := outputAsm s; outputCInitList := outputCInitList s;
     out := out s; binaryTempOut := binaryTempOut s;
     patchBoundOffset := patchBoundOffset s; nextID := nextID s;
     TypeMap := TypeMap s; ValueMap := ValueMap s;
     AllocatedValueMap := AllocatedValueMap s; SPIRVInsts := v;
     nextNode := nextNode s; DeferredInstVec := DeferredInstVec s;
     EntryPointVec := EntryPointVec s;
     BuiltinDimensionVec := BuiltinDimensionVec s;
     TypesNeedingArrayStride := TypesNeedingArrayStride s;
     WorkgroupSizeValueID := WorkgroupSizeValueID s;
     WorkgroupSizeVarID := WorkgroupSizeVarID s;
     NextDescriptorSetIndex := NextDescriptorSetIndex s;
     constant_i32_zero_id_ := constant_i32_zero_id_ s; errs := errs s |}.
Definition set_nextNode (v : nat) (s : Pass) : Pass :=
  {| outputAsm := outputAsm s; outputCInitList := outputCInitList s;
     out := out s; binaryTempOut := binaryTempOut s;
     patchBoundOffset := patchBoundOffset s; nextID := nextID s;
     TypeMap := TypeMap s; ValueMap := ValueMap s;
     AllocatedValueMap := AllocatedValueMap s; SPIRVInsts := SPIRVInsts s;
     nextNode := v; DeferredInstVec := DeferredInstVec s;
     EntryPointVec := EntryPointVec s;
     BuiltinDimensionVec := BuiltinDimensionVec s;
     TypesNeedingArrayStride := TypesNeedingArrayStride s;
     WorkgroupSizeValueID := WorkgroupSizeValueID s;
     WorkgroupSizeVarID := WorkgroupSizeVarID s;
     NextDescriptorSetIndex := NextDescriptorSetIndex s;
     constant_i32_zero_id_ := constant_i32_zero_id_ s; errs := errs s |}.
Definition set_DeferredInstVec (v : list DeferredInst) (s : Pass) : Pass :=
  {| outputAsm := outputAsm s; outputCInitList := outputCInitList s;
     out := out s; binaryTempOut := binaryTempOut s;
     patchBoundOffset := patchBoundOffset s; nextID := nextID s;
     TypeMap := TypeMap s; ValueMap := ValueMap s;
     AllocatedValueMap := AllocatedValueMap s; SPIRVInsts := SPIRVInsts s;
     nextNode := nextNode s; DeferredInstVec := v;
     EntryPointVec := EntryPointVec s;
     BuiltinDimensionVec := BuiltinDimensionVec s;
     TypesNeedingArrayStride := TypesNeedingArrayStride s;
     WorkgroupSizeValueID := WorkgroupSizeValueID s;
     WorkgroupSizeVarID := WorkgroupSizeVarID s;
     NextDescriptorSetIndex := NextDescriptorSetIndex s;
     constant_i32_zero_id_ := constant_i32_zero_id_ s; errs := errs s |}.
Definition set_EntryPointVec (v : list (Function_ * Z)) (s : Pass) : Pass :=
  {| outputAsm := outputAsm s; outputCInitList := outputCInitList s;
     out := out s; binaryTempOut := binaryTempOut s;
     patchBoundOffset := patchBoundOffset s; nextID := nextID s;
     TypeMap := TypeMap s; ValueMap := ValueMap s;
     AllocatedValueMap := AllocatedValueMap s; SPIRVInsts := SPIRVInsts s;
     nextNode := nextNode s; DeferredInstVec := DeferredInstVec s;
     EntryPointVec := v; BuiltinDimensionVec := BuiltinDimensionVec s;
     TypesNeedingArrayStride := TypesNeedingArrayStride s;
     WorkgroupSizeValueID := WorkgroupSizeValueID s;
     WorkgroupSizeVarID := WorkgroupSizeVarID s;
     NextDescriptorSetIndex := NextDescriptorSetIndex s;
     constant_i32_zero_id_ := constant_i32_zero_id_ s; errs := errs s |}.
Definition set_BuiltinDimensionVec (v : list Z) (s : Pass) : Pass :=
  {| outputAsm := outputAsm s; outputCInitList := outputCInitList s;
     out := out s; binaryTempOut := binaryTempOut s;
     patchBoundOffset := patchBoundOffset s; nextID := nextID s;
     TypeMap := TypeMap s; ValueMap := ValueMap s;
     AllocatedValueMap := AllocatedValueMap s; SPIRVInsts := SPIRVInsts s;
     nextNode := nextNode s; DeferredInstVec := DeferredInstVec s;
     EntryPointVec := EntryPointVec s; BuiltinDimensionVec := v;
     TypesNeedingArrayStride := TypesNeedingArrayStride s;
     WorkgroupSizeValueID := WorkgroupSizeValueID s;
     WorkgroupSizeVarID := WorkgroupSizeVarID s;
     NextDescriptorSetIndex := NextDescriptorSetIndex s;
     constant_i32_zero_id_ := constant_i32_zero_id_ s; errs := errs s |}.
Definition set_TypesNeedingArrayStride (v : list Ty) (s : Pass) : Pass :=
  {| outputAsm := outputAsm s; outputCInitList := outputCInitList s;
     out := out s; binaryTempOut := binaryTempOut s;
     patchBoundOffset := patchBoundOffset s; nextID := nextID s;
     TypeMap := TypeMap s; ValueMap := ValueMap s;
     AllocatedValueMap := AllocatedValueMap s; SPIRVInsts := SPIRVInsts s;
     nextNode := nextNode s; DeferredInstVec := DeferredInstVec s;
     EntryPointVec := EntryPointVec s;
     BuiltinDimensionVec := BuiltinDimensionVec s;
     TypesNeedingArrayStride := v;
     WorkgroupSizeValueID := WorkgroupSizeValueID s;
     WorkgroupSizeVarID := WorkgroupSizeVarID s;
     NextDescriptorSetIndex := NextDescriptorSetIndex s;
     constant_i32_zero_id_ := constant_i32_zero_id_ s; errs := errs s |}.
Definition set_WorkgroupSizeValueID (v : Z) (s : Pass) : Pass :=
  {| outputAsm := outputAsm s; outputCInitList := outputCInitList s;
     out := out s; binaryTempOut := binaryTempOut s;
     patchBoundOffset := patchBoundOffset s; nextID := nextID s;
     TypeMap := TypeMap s; ValueMap := ValueMap s;
     AllocatedValueMap := AllocatedValueMap s; SPIRVInsts := SPIRVInsts s;
     nextNode := nextNode s; DeferredInstVec := DeferredInstVec s;
     EntryPointVec := EntryPointVec s;
     BuiltinDimensionVec := BuiltinDimensionVec s;
     TypesNeedingArrayStride := TypesNeedingArrayStride s;
     WorkgroupSizeValueID := v; WorkgroupSizeVarID := WorkgroupSizeVarID s;
     NextDescriptorSetIndex := NextDescriptorSetIndex s;
     constant_i32_zero_id_ := constant_i32_zero_id_ s; errs := errs s |}.
Definition set_WorkgroupSizeVarID (v : Z) (s : Pass) : Pass :=
  {| outputAsm := outputAsm s; outputCInitList := outputCInitList s;
     out := out s; binaryTempOut := binaryTempOut s;
     patchBoundOffset := patchBoundOffset s; nextID := nextID s;
     TypeMap := TypeMap s; ValueMap := ValueMap s;
     AllocatedValueMap := AllocatedValueMap s; SPIRVInsts := SPIRVInsts s;
     nextNode := nextNode s; DeferredInstVec := DeferredInstVec s;
     EntryPointVec := EntryPointVec s;
     BuiltinDimensionVec := BuiltinDimensionVec s;
     TypesNeedingArrayStride := TypesNeedingArrayStride s;
     WorkgroupSizeValueID := WorkgroupSizeValueID s; WorkgroupSizeVarID := v;
     NextDescriptorSetIndex := NextDescriptorSetIndex s;
     constant_i32_zero_id_ := constant_i32_zero_id_ s; errs := errs s |}.
Definition set_NextDescriptorSetIndex (v : Z) (s : Pass) : Pass :=
  {| outputAsm := outputAsm s; outputCInitList := outputCInitList s;
     out := out s; binaryTempOut := binaryTempOut s;
     patchBoundOffset := patchBoundOffset s; nextID := nextID s;
     TypeMap := TypeMap s; ValueMap := ValueMap s;
     AllocatedValueMap := AllocatedValueMap s; SPIRVInsts := SPIRVInsts s;
     nextNode := nextNode s; DeferredInstVec := DeferredInstVec s;
     EntryPointVec := EntryPointVec s;
     BuiltinDimensionVec := BuiltinDimensionVec s;
     TypesNeedingArrayStride := TypesNeedingArrayStride s;
     WorkgroupSizeValueID := WorkgroupSizeValueID s;
     WorkgroupSizeVarID := WorkgroupSizeVarID s; NextDescriptorSetIndex := v;
     constant_i32_zero_id_ := constant_i32_zero_id_ s; errs := errs s |}.
Definition set_constant_i32_zero_id_ (v : Z) (s : Pass) : Pass :=
  {| outputAsm := outputAsm s; outputCInitList := outputCInitList s;
     out := out s; binaryTempOut := binaryTempOut s;
     patchBoundOffset := patchBoundOffset s; nextID := nextID s;
     TypeMap := TypeMap s; ValueMap := ValueMap s;
     AllocatedValueMap := AllocatedValueMap s; SPIRVInsts := SPIRVInsts s;
     nextNode := nextNode s; DeferredInstVec := DeferredInstVec s;
     EntryPointVec := EntryPointVec s;
     BuiltinDimensionVec := BuiltinDimensionVec s;
     TypesNeedingArrayStride := TypesNeedingArrayStride s;
     WorkgroupSizeValueID := WorkgroupSizeValueID s;
     WorkgroupSizeVarID := WorkgroupSizeVarID s;
     NextDescriptorSetIndex := NextDescriptorSetIndex s;
     constant_i32_zero_id_ := v; errs := errs s |}.
Definition set_errs (v : list string) (s : Pass) : Pass :=
  {| outputAsm := outputAsm s; outputCInitList := outputCInitList s;
     out := out s; binaryTempOut := binaryTempOut s;
     patchBoundOffset := patchBoundOffset s; nextID := nextID s;
     TypeMap := TypeMap s; ValueMap := ValueMap s;
     AllocatedValueMap := AllocatedValueMap s; SPIRVInsts := SPIRVInsts s;
     nextNode := nextNode s; DeferredInstVec := DeferredInstVec s;
     EntryPointVec := EntryPointVec s;
     BuiltinDimensionVec := BuiltinDimensionVec s;
     TypesNeedingArrayStride := TypesNeedingArrayStride s;
     WorkgroupSizeValueID := WorkgroupSizeValueID s;
     WorkgroupSizeVarID := WorkgroupSizeVarID s;
     NextDescriptorSetIndex := NextDescriptorSetIndex s;
     constant_i32_zero_id_ := constant_i32_zero_id_ s; errs := v |}.

(** ** The pass monad: state of the pass object, or a fatal stop *)

Definition M (A : Type) : Type := Pass -> result (A * Pass).

Definition ret {A} (a : A) : M A := fun s => OK (a, s).
Definition bind {A B} (m : M A) (k : A -> M B) : M B :=
  fun s => match m s with
           | OK (a, s') => k a s'
           | Abort msg => Abort msg
           end.
Definition llvm_unreachable {A} (msg : string) : M A := fun _ => Abort msg.
Definition gets {A} (f : Pass -> A) : M A := fun s => OK (f s, s).
Definition modify (f : Pass -> Pass) : M unit := fun s => OK (tt, f s).
Definition lift {A} (r : result A) : M A :=
  fun s => match r with OK a => OK (a, s) | Abort msg => Abort msg end.

Notation "x <- m ;; k" := (bind m (fun x => k))
  (at level 100, m at next level, right associativity).
Notation "m ;;; k" := (bind m (fun _ => k))
  (at level 100, right associativity).

(** [for (x : xs) body(x);] *)
Fixpoint forM_ {A} (xs : list A) (body : A -> M unit) : M unit :=
  match xs with
  | [] => ret tt
  | x :: r => body x ;;; forM_ r body
  end.

(** [for (x : xs) acc << f(x);] with the operand list as accumulator *)
Fixpoint mapM {A B} (f : A -> M B) (xs : list A) : M (list B) :=
  match xs with
  | [] => ret []
  | x :: r => y <- f x ;; ys <- mapM f r ;; ret (y :: ys)
  end.

(** [nextID++] on the [uint32_t] counter: yields the old value. *)
Definition nextID_postinc : M Z :=
  fun s => OK (nextID s, set_nextID (wrap32 (nextID s + 1)) s).

(** [errs() << msg] *)
Definition errs_print (msg : string) : M unit :=
  modify (fun s => set_errs (errs s ++ [msg]) s).

(** *** The instruction list *)

Definition insts (s : Pass) : list SPIRVInstruction := map inst (SPIRVInsts s).

(** [SPIRVInstList.push_back(I)] *)
Definition push_back (I : SPIRVInstruction) : M unit :=
  modify (fun s =>
    set_nextNode (S (nextNode s))
      (set_SPIRVInsts (SPIRVInsts s ++ [mkNode (nextNode s) I]) s)).

(** Place [n] in front of the node an iterator denotes; [None] when the
    iterator denotes no node of the list. *)
Fixpoint insert_at (a : nat) (n : Node) (l : list Node) : option (list Node) :=
  match l with
  | [] => None
  | x :: r =>
      if Nat.eqb (addr x) a then Some (n :: x :: r)
      else option_map (cons x) (insert_at a n r)
  end.

(** [SPIRVInstList.insert(pos, I)]; the result is the iterator to the new
    node. *)
Definition list_insert' (pos : iterator) (I : SPIRVInstruction) : M iterator :=
  fun s =>
    let n := mkNode (nextNode s) I in
    match pos with
    | End =>
        OK (It (nextNode s),
            set_nextNode (S (nextNode s))
              (set_SPIRVInsts (SPIRVInsts s ++ [n]) s))
    | It a =>
        match insert_at a n (SPIRVInsts s) with
        | Some l => OK (It (nextNode s),
                        set_nextNode (S (nextNode s)) (set_SPIRVInsts l s))
        | None => Abort "insert through an iterator into another list"
        end
    end.

Definition list_insert (pos : iterator) (I : SPIRVInstruction) : M unit :=
  list_insert' pos I ;;; ret tt.

(** The iterator to the first node satisfying [p], [end()] if none:
    [std::find_if(SPIRVInstList.begin(), SPIRVInstList.end(), p)]. *)
Fixpoint find_if (p : SPIRVInstruction -> bool) (l : list Node) : iterator :=
  match l with
  | [] => End
  | x :: r => if p (inst x) then It (addr x) else find_if p r
  end.

Definition isOp (I : SPIRVInstruction) (o : Op) : bool :=
  bool_decide (Opcode I = o).

(** The predicate of the decoration insert point: the first instruction that
    is none of OpDecorate, OpMemberDecorate, OpExtInstImport. *)
Definition notDecoration (I : SPIRVInstruction) : bool :=
  negb (isOp I OpDecorate) && negb (isOp I OpMemberDecorate)
  && negb (isOp I OpExtInstImport).

Definition DecoInsertPoint : M iterator :=
  gets (fun s => find_if notDecoration (SPIRVInsts s)).

(** [--SPIRVInstList.end()]: the last node. *)
Definition last_iterator : M iterator :=
  fun s => match last (SPIRVInsts s) with
           | Some n => OK (It (addr n), s)
           | None => Abort "decrement of begin()"
           end.

(** The suffix of the list that starts at the node an iterator denotes. *)
Fixpoint suffix_from (a : nat) (l : list Node) : option (list Node) :=
  match l with
  | [] => None
  | x :: r => if Nat.eqb (addr x) a then Some (x :: r) else suffix_from a r
  end.

Definition iterator_of (l : list Node) : iterator :=
  match l with [] => End | x :: _ => It (addr x) end.

(** [++it] *)
Definition iterator_next (it : iterator) (l : list Node) : option iterator :=
  match it with
  | End => None
  | It a => match suffix_from a l with
            | Some (_ :: r) => Some (iterator_of r)
            | _ => None
            end
  end.

(** [*it] *)
Definition iterator_deref (it : iterator) (l : list Node)
  : option SPIRVInstruction :=
  match it with
  | End => None
  | It a => match suffix_from a l with
            | Some (x :: _) => Some (inst x)
            | _ => None
            end
  end.

(** *** DenseMap access *)

(** [Map[k]] used as an rvalue: a missing key is first inserted with the
    value-initialised mapped value 0. *)
Definition at_ `{Countable K} (m : gmap K Z) (k : K) : Z * gmap K Z :=
  match m !! k with
  | Some v => (v, m)
  | None => (0, <[k := 0]> m)
  end.

Definition count `{Countable K} (m : gmap K Z) (k : K) : Z :=
  match m !! k with Some _ => 1 | None => 0 end.

(** [VMap[V]] as an rvalue *)
Definition VMap_at (V : Value) : M Z :=
  fun s => OK ((at_ (ValueMap s) V).1, set_ValueMap (at_ (ValueMap s) V).2 s).

(** [VMap[V] = id] *)
Definition VMap_set (V : Value) (id : Z) : M unit :=
  modify (fun s => set_ValueMap (<[V := id]> (ValueMap s)) s).

(** [TypeMap[Ty]] as an rvalue *)
Definition TypeMap_at (T : Ty) : M Z :=
  fun s => OK ((at_ (TypeMap s) T).1, set_TypeMap (at_ (TypeMap s) T).2 s).

(** [TypeMap[Ty] = id] *)
Definition TypeMap_set (T : Ty) (id : Z) : M unit :=
  modify (fun s => set_TypeMap (<[T := id]> (TypeMap s)) s).

Definition isOpaqueStruct (T : Ty) : bool :=
  match T with StructTy _ true _ => true | _ => false end.

(** [uint32_t lookupType(Type *Ty)] *)
Definition lookupType (T : Ty) : M Z :=
  let T' :=
    match T with
    | PointerTy PointeeTy AS =>
        if negb (bool_decide (AS = AddressSpace.UniformConstant))
           && isOpaqueStruct PointeeTy
        then PointeeTy else T
    | _ => T
    end in
  fun s =>
    match TypeMap s !! T' with
    | None => Abort "Unhandled type!"
    | Some id => OK (id, s)
    end.

(** [new SPIRVInstruction(Opc, ResID, Ops)] followed by [push_back] *)
Definition emit (Opc : Op) (ResID : Z) (Ops : list SPIRVOperand) : M unit :=
  I <- lift (NewInstRes Opc ResID Ops) ;; push_back I.

(** ** Header emission and patching *)

Definition nl : list ascii := ["010"%char].
Definition text (str : string) : list ascii := list_ascii_of_string str.

(** Decimal rendering of an unsigned number, as [std::to_string] and
    [raw_ostream::operator<<(unsigned)] produce it: digits are produced from
    the least significant one; 20 digits cover every 64-bit value. *)
Definition digit_char (d : Z) : ascii := ascii_of_N (Z.to_N (48 + d)).

Fixpoint digits_loop (fuel : nat) (n : Z) (acc : list ascii) : list ascii :=
  match fuel with
  | O => acc
  | S f =>
      let acc' := digit_char (n mod 10) :: acc in
      if n / 10 =? 0 then acc' else digits_loop f (n / 10) acc'
  end.

Definition to_string (n : Z) : list ascii := digits_loop 20 n [].

(** [for (uint32_t i = UINT32_MAX; 0 != i; i /= 10) out << " ";] *)
Fixpoint bound_spaces (fuel : nat) (i : Z) : list ascii :=
  match fuel with
  | O => []
  | S f => if i =? 0 then [] else " "%char :: bound_spaces f (i / 10)
  end.

(** The four bytes of a 32-bit word as they lie in memory; the pass itself
    reads its binary back with the least significant byte first (the C
    initialiser list printer in [runOnModule]). *)
Definition u32_bytes (w : Z) : list ascii :=
  map (fun i => ascii_of_N (Z.to_N (Z.land (Z.shiftr w (8 * i)) 255)))
      [0; 1; 2; 3].

(** [raw_ostream::tell], [write] / [operator<<], and [pwrite] *)
Definition tell (os : list ascii) : Z := Z.of_nat (length os).
Definition write (os : list ascii) (data : list ascii) : list ascii :=
  os ++ data.
Definition pwrite (os : list ascii) (data : list ascii) (Offset : Z)
  : list ascii :=
  take (Z.to_nat Offset) os ++ data
  ++ drop (Z.to_nat Offset + length data) os.

(** [binaryOut], as [runOnModule] sets it:
    [binaryOut = outputCInitList ? &binaryTempOut : &out]. *)
Definition binaryOut (s : Pass) : list ascii :=
  if outputCInitList s then binaryTempOut s else out s.
Definition set_binaryOut (os : list ascii) (s : Pass) : Pass :=
  if outputCInitList s then set_binaryTempOut os s else set_out os s.

Definition outputHeader (s : Pass) : Pass :=
  if outputAsm s then
    let o := write (out s) (text "; SPIR-V" ++ nl) in
    let major := Z.land (Z.shiftr spv.Version 16) 255 in
    let minor := Z.land (Z.shiftr spv.Version 8) 255 in
    let o := write o (text "; Version: " ++ to_string major ++ text "."
                      ++ to_string minor ++ nl) in
    let o := write o (text "; Generator: Codeplay; 0" ++ nl) in
    let o := write o (text "; Bound: ") in
    let s := set_patchBoundOffset (tell o) s in
    let o := write o (bound_spaces 32 (2 ^ 32 - 1)) in
    let o := write o nl in
    let o := write o (text "; Schema: 0" ++ nl) in
    set_out o s
  else
    let o := write (binaryOut s) (u32_bytes spv.MagicNumber) in
    let o := write o (u32_bytes spv.Version) in
    let vendor := Z.shiftl 3 16 in
    let o := write o (u32_bytes vendor) in
    let s := set_patchBoundOffset (tell o) s in
    (* output a bad bound for now *)
    let o := write o (u32_bytes (nextID s)) in
    let schema := 0 in
    let o := write o (u32_bytes schema) in
    set_binaryOut o s.

Definition patchHeader (s : Pass) : Pass :=
  if outputAsm s then
    let asString := to_string (nextID s) in
    set_out (pwrite (out s) asString (patchBoundOffset s)) s
  else
    set_binaryOut
      (pwrite (binaryOut s) (u32_bytes (nextID s)) (patchBoundOffset s)) s.

(** Reading the output back. *)
Definition read_u32 (os : list ascii) (Offset : Z) : Z :=
  let b i := Z.of_N (N_of_ascii (nth i (drop (Z.to_nat Offset) os) zero)) in
  Z.lor (b 0%nat)
    (Z.lor (Z.shiftl (b 1%nat) 8)
       (Z.lor (Z.shiftl (b 2%nat) 16) (Z.shiftl (b 3%nat) 24))).

Definition is_digit (c : ascii) : bool :=
  let n := Z.of_N (N_of_ascii c) in (48 <=? n) && (n <=? 57).

Fixpoint parse_digits (l : list ascii) (acc : Z) : Z :=
  match l with
  | c :: r =>
      if is_digit c then parse_digits r (10 * acc + (Z.of_N (N_of_ascii c) - 48))
      else acc
  | [] => acc
  end.

(** The decimal number that starts at [Offset]. *)
Definition read_decimal (os : list ascii) (Offset : Z) : Z :=
  parse_digits (drop (Z.to_nat Offset) os) 0.

(** ** Type emission *)

(** [spv::StorageClass GetStorageClass(unsigned AddrSpace) const] *)
Definition GetStorageClass (AddrSpace : AddressSpace.t) : M Z :=
  match AddrSpace with
  | AddressSpace.Private => ret spv.StorageClassFunction
  | AddressSpace.Global | AddressSpace.Constant =>
      ret spv.StorageClassStorageBuffer
  | AddressSpace.Input => ret spv.StorageClassInput
  | AddressSpace.Local => ret spv.StorageClassWorkgroup
  | AddressSpace.UniformConstant => ret spv.StorageClassUniformConstant
  | AddressSpace.Uniform => ret spv.StorageClassUniform
  | AddressSpace.ModuleScopePrivate => ret spv.StorageClassPrivate
  | AddressSpace.Unknown _ =>
      llvm_unreachable "Unsupported OpenCL address space"
  end.

(** [bool is4xi8vec(Type *Ty) const] *)
Definition is4xi8vec (T : Ty) : bool :=
  match T with
  | VectorTy e n => bool_decide (e = i8) && (n =? 4)
  | _ => false
  end.

(** A kernel argument as type emission looks at it: its type and, for each
    user, whether it is a getelementptr and what its type is. *)
Record ArgUser : Set := mkArgUser {
  U_isGEP : bool;
  U_getType : Ty
}.

Record Argument : Set := mkArgument {
  Arg_getType : Ty;
  Arg_users : list ArgUser
}.

(** What is asked of the module's [DataLayout]. *)
Record DataLayout : Type := mkDataLayout {
  getTypeAllocSize : Ty -> Z;
  getElementOffset : Ty -> nat -> Z    (* getStructLayout(STy)->getElementOffset *)
}.

Record LocalArgInfo : Set := mkLocalArgInfo {
  variable_id : Z;
  elem_type : Ty;
  array_size_id : Z;
  array_type_id : Z;
  ptr_array_type_id : Z;
  first_elem_ptr_id : Z;
  spec_id : Z
}.

Definition getPrimitiveSizeInBits (T : Ty) : Z :=
  match T with
  | HalfTy => 16
  | FloatTy => 32
  | DoubleTy => 64
  | IntegerTy w => w
  | VectorTy (IntegerTy w) n => w * n
  | VectorTy HalfTy n => 16 * n
  | VectorTy FloatTy n => 32 * n
  | VectorTy DoubleTy n => 64 * n
  | _ => 0
  end.

Definition isImageName (n : string) : bool :=
  String.eqb n "opencl.image2d_ro_t" || String.eqb n "opencl.image2d_wo_t"
  || String.eqb n "opencl.image3d_ro_t" || String.eqb n "opencl.image3d_wo_t".

(** [UniqueVector::insert] *)
Definition UniqueVector_insert `{EqDecision A} (x : A) (l : list A) : list A :=
  if bool_decide (x ∈ l) then l else l ++ [x].

Section TypeEmission.

(** [ArgumentGVMap]: each kernel argument with the type of the module-scope
    variable that stands for it; filled by [GenerateLLVMIRInfo]. *)
Variable ArgGVMap : list (Argument * Ty).
Variable DL : DataLayout.

(** The pointer case of the switch in [GenerateSPIRVTypes], from the
    computation of [IsOpTypeRuntimeArray] on.  [AddrSpace] is the local
    variable of that name: the mirror address space for a pointer to
    constant or global memory. *)
Definition GenerateSPIRVTypes_PointerBody (OpRuntimeTyMap : gmap Ty Z)
    (PTy : Ty) (EleTy : Ty) (AddrSpace : AddressSpace.t)
    (UseExistingOpTypePointer : bool) : M (gmap Ty Z) :=
  let IsOpTypeRuntimeArray :=
    existsb (fun ArgGV : Argument * Ty =>
               bool_decide (Arg_getType ArgGV.1 = PTy)
               && negb (bool_decide
                          (AddrSpace = AddressSpace.UniformConstant)))
            ArgGVMap in
  let HasArgUser :=
    existsb (fun ArgGV : Argument * Ty =>
               bool_decide (Arg_getType ArgGV.1 = PTy)
               && existsb (fun U => negb (U_isGEP U)
                                    || bool_decide (U_getType U = PTy))
                          (Arg_users ArgGV.1))
            ArgGVMap in
  (if (negb IsOpTypeRuntimeArray || HasArgUser)
      && negb UseExistingOpTypePointer
   then
     sc <- GetStorageClass AddrSpace ;;
     ety <- lookupType EleTy ;;
     id <- nextID_postinc ;;
     emit OpTypePointer id [MkNum sc; MkId ety]
   else ret tt) ;;;
  if IsOpTypeRuntimeArray then
    ety <- lookupType EleTy ;;
    OpTypeRuntimeArrayID <- gets nextID ;;
    let OpRuntimeTyMap := <[PTy := OpTypeRuntimeArrayID]> OpRuntimeTyMap in
    id <- nextID_postinc ;;
    emit OpTypeRuntimeArray id [MkId ety] ;;;
    pos <- DecoInsertPoint ;;
    list_insert pos
      (NewInst OpDecorate
         [MkId OpTypeRuntimeArrayID; MkNum spv.DecorationArrayStride;
          MkNum (wrap32 (getTypeAllocSize DL EleTy))]) ;;;
    ret OpRuntimeTyMap
  else ret OpRuntimeTyMap.

(** The pointer case: for the purposes of the Vulkan SPIR-V type system,
    constant and global are conflated. *)
Definition GenerateSPIRVTypes_Pointer (OpRuntimeTyMap : gmap Ty Z)
    (PTy : Ty) (EleTy : Ty) (AS : AddressSpace.t) : M (gmap Ty Z) :=
  tm <- gets TypeMap ;;
  match AS with
  | AddressSpace.Constant =>
      let AddrSpace := AddressSpace.Global in
      (* Check to see if we already created this type. *)
      match tm !! PointerTy EleTy AddrSpace with
      | Some id =>
          (* TypeMap[PTy] = TypeMap[GlobalTy]; break; *)
          TypeMap_set PTy id ;;; ret OpRuntimeTyMap
      | None =>
          GenerateSPIRVTypes_PointerBody OpRuntimeTyMap PTy EleTy AddrSpace
                                         false
      end
  | AddressSpace.Global =>
      let AddrSpace := AddressSpace.Constant in
      match tm !! PointerTy EleTy AddrSpace with
      | Some id =>
          (* TypeMap[PTy] = TypeMap[ConstantTy]; *)
          TypeMap_set PTy id ;;;
          GenerateSPIRVTypes_PointerBody OpRuntimeTyMap PTy EleTy AddrSpace
                                         true
      | None =>
          GenerateSPIRVTypes_PointerBody OpRuntimeTyMap PTy EleTy AddrSpace
                                         false
      end
  | _ => GenerateSPIRVTypes_PointerBody OpRuntimeTyMap PTy EleTy AS false
  end.

(** The member loop of the struct case: [Ops[0] ... Ops[n] = Member IDs].
    The local map is read with [operator[]], so a missing entry is created
    with value 0. *)
Fixpoint GenerateSPIRVTypes_StructMembers (elements : list Ty)
    (OpRuntimeTyMap : gmap Ty Z) : M (list SPIRVOperand * gmap Ty Z) :=
  match elements with
  | [] => ret ([], OpRuntimeTyMap)
  | EleTy :: rest =>
      EleTyID <- lookupType EleTy ;;
      let isArgTy :=
        match EleTy with
        | PointerTy _ _ =>
            existsb (fun ArgGV : Argument * Ty =>
                       bool_decide (Arg_getType ArgGV.1 = EleTy)) ArgGVMap
        | _ => false
        end in
      let found :=
        if isArgTy then at_ OpRuntimeTyMap EleTy
        else (EleTyID, OpRuntimeTyMap) in
      r <- GenerateSPIRVTypes_StructMembers rest found.2 ;;
      ret (MkId found.1 :: r.1, r.2)
  end.

(** The struct case. *)
Definition GenerateSPIRVTypes_Struct (OpRuntimeTyMap : gmap Ty Z)
    (STy : Ty) (Name : string) (isOpaque : bool) (elements : list Ty)
  : M (gmap Ty Z) :=
  if isOpaque && String.eqb Name "opencl.sampler_t" then
    id <- nextID_postinc ;;
    emit OpTypeSampler id [] ;;; ret OpRuntimeTyMap
  else if isOpaque && isImageName Name then
    SampledTyID <- lookupType FloatTy ;;
    let DimID :=
      if String.eqb Name "opencl.image3d_ro_t"
         || String.eqb Name "opencl.image3d_wo_t"
      then spv.Dim3D else spv.Dim2D in
    let Sampled :=
      if String.eqb Name "opencl.image2d_wo_t"
         || String.eqb Name "opencl.image3d_wo_t"
      then 2 else 1 in
    id <- nextID_postinc ;;
    emit OpTypeImage id
      [MkId SampledTyID; MkNum DimID; MkNum 0; MkNum 0; MkNum 0;
       MkNum Sampled; MkNum spv.ImageFormatUnknown] ;;;
    ret OpRuntimeTyMap
  else
    r <- GenerateSPIRVTypes_StructMembers elements OpRuntimeTyMap ;;
    let Ops := r.1 in
    let OpRuntimeTyMap := r.2 in
    STyID <- gets nextID ;;
    id <- nextID_postinc ;;
    emit OpTypeStruct id Ops ;;;
    pos <- DecoInsertPoint ;;
    forM_ (seq 0 (length elements))
      (fun MemberIdx =>
         let ByteOffset := wrap32 (getElementOffset DL STy MemberIdx) in
         list_insert pos
           (NewInst OpMemberDecorate
              [MkId STyID; MkNum (Z.of_nat MemberIdx);
               MkNum spv.DecorationOffset; MkNum ByteOffset])) ;;;
    (if existsb (fun ArgGV : Argument * Ty =>
                   match ArgGV.2 with
                   | PointerTy ArgTy _ => bool_decide (ArgTy = STy)
                   | _ => false
                   end) ArgGVMap
     then list_insert pos
            (NewInst OpDecorate [MkId STyID; MkNum spv.DecorationBlock])
     else ret tt) ;;;
    ret OpRuntimeTyMap.

(** The integer case. *)
Definition GenerateSPIRVTypes_Integer (T : Ty) (BitWidth : Z) : M unit :=
  if BitWidth =? 1 then
    id <- nextID_postinc ;; emit OpTypeBool id []
  else
    (* i8 is added to TypeMap as i32.  No matter what LLVM type is
       requested first, always alias the second one's SPIR-V type to be
       the same as the one we generated first. *)
    let aliasToWidth :=
      if BitWidth =? 8 then 32 else if BitWidth =? 32 then 8 else 0 in
    let BitWidth := if BitWidth =? 8 then 32 else BitWidth in
    tm <- gets TypeMap ;;
    let otherType := IntegerTy aliasToWidth in
    match (if aliasToWidth =? 0 then None else Some (tm !! otherType)) with
    | Some (Some where_second) =>
        (* Alias this SPIR-V type the existing type. *)
        TypeMap_set T where_second
    | found =>
        match found with
        | Some None =>
            (* Go ahead and make it, but also map the other type to it. *)
            n <- gets nextID ;; TypeMap_set otherType n
        | _ => ret tt
        end ;;;
        id <- nextID_postinc ;;
        emit OpTypeInt id [MkNum BitWidth; MkNum 0 (* not signed *)]
    end.

(** [switch (Ty->getTypeID())] in the loop of [GenerateSPIRVTypes]. *)
Definition GenerateSPIRVTypes_switch (OpRuntimeTyMap : gmap Ty Z) (T : Ty)
  : M (gmap Ty Z) :=
  match T with
  | MetadataTy | LabelTy => ret OpRuntimeTyMap
  | PointerTy EleTy AS => GenerateSPIRVTypes_Pointer OpRuntimeTyMap T EleTy AS
  | StructTy Name isOpaque elements =>
      GenerateSPIRVTypes_Struct OpRuntimeTyMap T Name isOpaque elements
  | IntegerTy BitWidth =>
      GenerateSPIRVTypes_Integer T BitWidth ;;; ret OpRuntimeTyMap
  | HalfTy | FloatTy | DoubleTy =>
      id <- nextID_postinc ;;
      emit OpTypeFloat id [MkNum (getPrimitiveSizeInBits T)] ;;;
      ret OpRuntimeTyMap
  | ArrayTy EleTy Length =>
      ResTyID <- lookupType i32 ;;
      (* Add constant for length to constant list. *)
      let CstLength := VConstant (ConstantInt 32 (wrap32 Length)) in
      LengthID <- gets nextID ;;
      modify (fun s => set_AllocatedValueMap
                         (<[CstLength := LengthID]> (AllocatedValueMap s)) s) ;;;
      VMap_set CstLength LengthID ;;;
      id <- nextID_postinc ;;
      emit OpConstant id [MkId ResTyID; MkNum (wrap32 Length)] ;;;
      (* Remember to generate ArrayStride later *)
      modify (fun s => set_TypesNeedingArrayStride
                         (UniqueVector_insert T (TypesNeedingArrayStride s)) s) ;;;
      EleTyID <- lookupType EleTy ;;
      (* Update TypeMap with nextID. *)
      n <- gets nextID ;;
      TypeMap_set T n ;;;
      id <- nextID_postinc ;;
      emit OpTypeArray id [MkId EleTyID; MkId LengthID] ;;;
      ret OpRuntimeTyMap
  | VectorTy EleTy NumElements =>
      (* <4 x i8> is changed to i32. *)
      if bool_decide (EleTy = i8) then
        if NumElements =? 4 then
          id <- lookupType EleTy ;;
          TypeMap_set T id ;;; ret OpRuntimeTyMap
        else llvm_unreachable "Support above i8 vector type"
      else
        EleTyID <- lookupType EleTy ;;
        id <- nextID_postinc ;;
        emit OpTypeVector id [MkId EleTyID; MkNum NumElements] ;;;
        ret OpRuntimeTyMap
  | VoidTy =>
      id <- nextID_postinc ;; emit OpTypeVoid id [] ;;; ret OpRuntimeTyMap
  | FunctionTy ReturnType Params =>
      RetID <- lookupType ReturnType ;;
      ParamIDs <- mapM (fun ParamTy =>
                          let ParamTy :=
                            match ParamTy with
                            | PointerTy PointeeTy _ =>
                                if isOpaqueStruct PointeeTy then PointeeTy
                                else ParamTy
                            | _ => ParamTy
                            end in
                          id <- lookupType ParamTy ;; ret (MkId id)) Params ;;
      id <- nextID_postinc ;;
      emit OpTypeFunction id (MkId RetID :: ParamIDs) ;;;
      ret OpRuntimeTyMap
  | OtherTy => llvm_unreachable "Unsupported type???"
  end.

(** One iteration of [for (Type *Ty : getTypeList())]. *)
Definition GenerateSPIRVTypes_step (OpRuntimeTyMap : gmap Ty Z) (T : Ty)
  : M (gmap Ty Z) :=
  (* Update TypeMap with nextID for reference later. *)
  n <- gets nextID ;;
  TypeMap_set T n ;;;
  GenerateSPIRVTypes_switch OpRuntimeTyMap T.

(** The loop [for (Type *Ty : getTypeList())]. *)
Fixpoint GenerateSPIRVTypes_loop (OpRuntimeTyMap : gmap Ty Z)
    (Types : list Ty) : M unit :=
  match Types with
  | [] => ret tt
  | T :: rest =>
      orm <- GenerateSPIRVTypes_step OpRuntimeTyMap T ;;
      GenerateSPIRVTypes_loop orm rest
  end.

(** [void GenerateSPIRVTypes(LLVMContext&, const DataLayout&)]: the type
    list, then a sampled-image type per image type, then the types of the
    pointer-to-local arguments.  The image type map is handed in and its
    updated content is the result. *)
Definition GenerateSPIRVTypes (Types : list Ty)
    (OpImageTypeMap : list (Ty * Z)) (LocalArgs : list LocalArgInfo)
  : M (list (Ty * Z)) :=
  GenerateSPIRVTypes_loop ∅ Types ;;;
  imgs <- mapM (fun ImageType : Ty * Z =>
                  ImgTyID <- TypeMap_at ImageType.1 ;;
                  id <- nextID_postinc ;;
                  emit OpTypeSampledImage id [MkId ImgTyID] ;;;
                  ret (ImageType.1, id)) OpImageTypeMap ;;
  forM_ LocalArgs
    (fun arg_info =>
       i32id <- lookupType i32 ;;
       emit OpSpecConstant (array_size_id arg_info) [MkId i32id; MkNum 1] ;;;
       elem_ty_id <- lookupType (elem_type arg_info) ;;
       emit OpTypeArray (array_type_id arg_info)
         [MkId elem_ty_id; MkId (array_size_id arg_info)] ;;;
       emit OpTypePointer (ptr_array_type_id arg_info)
         [MkNum spv.StorageClassWorkgroup; MkId (array_type_id arg_info)]) ;;;
  ret imgs.

End TypeEmission.

(** ** Constant emission *)

(** The packing loop of the <4 x i8> cases:
    [IntValue = (IntValue << 8) | (Val & 0xffu)] on a [uint32_t]. *)
Definition pack_step (IntValue Val : Z) : Z :=
  wrap32 (Z.lor (wrap32 (Z.shiftl IntValue 8)) (Z.land Val 255)).

(** Constant-data case: [for (k = 0; k < 4; k++)] over
    [CDS->getElementAsInteger(k)]. *)
Definition pack_CDS (elts : list Z) : Z :=
  fold_left (fun IntValue k => pack_step IntValue (nth k elts 0))
            [0; 1; 2; 3]%nat 0.

(** Aggregate case: over all operands, a non-ConstantInt operand counts
    as 0. *)
Definition pack_CA (ops : list Constant) : Z :=
  fold_left (fun IntValue CV =>
               let Val := match CV with ConstantInt _ v => v | _ => 0 end in
               pack_step IntValue Val)
            ops 0.

(** The tail shared by both <4 x i8> cases. *)
Definition GenerateSPIRVConstants_packed (Cst : Constant) (tyid : Z)
    (IntValue : Z) : M unit :=
  let CstInt := VConstant (ConstantInt 32 IntValue) in
  vm <- gets ValueMap ;;
  (* If this constant is already registered on VMap, use it. *)
  if 0 <? count vm CstInt then
    CstID <- VMap_at CstInt ;;
    VMap_set (VConstant Cst) CstID
  else
    id <- nextID_postinc ;;
    emit OpConstant id [MkId tyid; MkNum IntValue].

(** One iteration of the loop of [GenerateSPIRVConstants];
    [hack_undef] is [clspv::Option::HackUndef()]. *)
Definition GenerateSPIRVConstants_step (hack_undef : bool) (Cst : Constant)
  : M unit :=
  avm <- gets AllocatedValueMap ;;
  (* OpTypeArray's constant was already generated. *)
  if bool_decide (is_Some (avm !! VConstant Cst)) then ret tt
  else
    (* Set ValueMap with nextID for reference later. *)
    n <- gets nextID ;;
    VMap_set (VConstant Cst) n ;;;
    tyid <- lookupType (Constant_getType Cst) ;;
    let finish (Opcode : Op) (Ops : list SPIRVOperand) : M unit :=
      id <- nextID_postinc ;; emit Opcode id (MkId tyid :: Ops) in
    match Cst with
    | UndefValue type =>
        if hack_undef && (isFPOrFPVectorTy type || isIntOrIntVectorTy type)
        then finish OpConstantNull []
        else finish OpUndef []
    | ConstantInt BitWidth V =>
        if BitWidth =? 1 then
          if negb (V =? 0) then finish OpConstantTrue []
          else finish OpConstantFalse []
        else
          let LiteralNum :=
            wrap32 (Z.land V 0xFFFFFFFF)
            :: (if 32 <? BitWidth then [wrap32 (Z.shiftr V 32)] else []) in
          (if (BitWidth =? 32) && (V =? 0)
           then n <- gets nextID ;;
                modify (set_constant_i32_zero_id_ n)
           else ret tt) ;;;
          finish OpConstant [MkInteger LiteralNum]
    | ConstantFP CFPTy FPVal =>
        match CFPTy with
        | FloatTy =>
            finish OpConstant [MkFloat [wrap32 (Z.land FPVal 0xFFFFFFFF)]]
        | _ => llvm_unreachable "Implement this ConstantFP Type"
        end
    | ConstantDataSequential CstTy elts =>
        if CDS_isString CstTy then llvm_unreachable "Implement this Constant"
        else if is4xi8vec CstTy then
          (* Let's convert <4 x i8> constant to int constant specially.  This
             case occurs when all the values are specified as constant
             ints. *)
          GenerateSPIRVConstants_packed Cst tyid (pack_CDS elts)
        else
          (* A normal constant-data-sequential case. *)
          ids <- mapM (fun e =>
                         id <- VMap_at (VConstant
                                          (CDS_getElementAsConstant CstTy e)) ;;
                         ret (MkId id)) elts ;;
          finish OpConstantComposite ids
    | ConstantAggregate CstTy ops =>
        if is4xi8vec CstTy then
          (* This case occurs when at least one of the values is an undef. *)
          GenerateSPIRVConstants_packed Cst tyid (pack_CA ops)
        else
          ids <- mapM (fun e => id <- VMap_at (VConstant e) ;; ret (MkId id))
                      ops ;;
          finish OpConstantComposite ids
    | ConstantAggregateZero _ | ConstantPointerNull _ | ConstantExpr _ _ =>
        if isNullValue Cst then finish OpConstantNull []
        else llvm_unreachable "Unsupported Constant???"
    end.

(** [void GenerateSPIRVConstants()] over the constant list. *)
Definition GenerateSPIRVConstants (hack_undef : bool) (CstList : list Constant)
  : M unit :=
  forM_ CstList (GenerateSPIRVConstants_step hack_undef).

(** [uint32_t GetI32Zero()] *)
Definition GetI32Zero : M Z :=
  z <- gets constant_i32_zero_id_ ;;
  if z =? 0 then
    llvm_unreachable
      "Requesting a 32-bit integer constant but it is not defined in the SPIR-V module"
  else ret z.

(** ** Module-scope variables *)

(** [spv::BuiltIn GetBuiltin(StringRef Name) const] *)
Definition GetBuiltin (Name : string) : spv.BuiltIn :=
  if String.eqb Name "__spirv_GlobalInvocationId"
  then spv.BuiltInGlobalInvocationId
  else if String.eqb Name "__spirv_LocalInvocationId"
  then spv.BuiltInLocalInvocationId
  else if String.eqb Name "__spirv_WorkgroupSize"
  then spv.BuiltInWorkgroupSize
  else if String.eqb Name "__spirv_NumWorkgroups"
  then spv.BuiltInNumWorkgroups
  else if String.eqb Name "__spirv_WorkgroupId"
  then spv.BuiltInWorkgroupId
  else spv.BuiltInMax.

Definition getPointerElementType (T : Ty) : Ty :=
  match T with PointerTy e _ => e | _ => OtherTy end.
Definition getPointerAddressSpace (T : Ty) : AddressSpace.t :=
  match T with PointerTy _ a => a | _ => AddressSpace.Private end.

(** The three dimensions of a [reqd_work_group_size] node, each
    [static_cast<uint32_t>(...->getZExtValue())]. *)
Definition MD_dims (MD : MDNode3) : Z * Z * Z :=
  (wrap32 (MD_op0 MD).2, wrap32 (MD_op1 MD).2, wrap32 (MD_op2 MD).2).

(** The local variables of the kernel loop in [GenerateGlobalVar]. *)
Record WGState : Set := mkWGState {
  HasMDVec : list bool;
  PrevDimCst : Z * Z * Z;
  InitializerID : Z
}.

(** One iteration of [for (Function &Func : *GV.getParent())]. *)
Definition GenerateGlobalVar_kernel (Ty_ : Ty) (st : WGState) (Func : Function_)
  : M WGState :=
  if F_isDeclaration Func then ret st
  else if negb (bool_decide (F_getCallingConv Func = SPIR_KERNEL)) then ret st
  else
    match F_reqd_work_group_size Func with
    | Some MD =>
        let Cur := MD_dims MD in
        let generate (st : WGState) : M WGState :=
          XDimCstID <- VMap_at (VConstant (MD_ConstantInt (MD_op0 MD))) ;;
          YDimCstID <- VMap_at (VConstant (MD_ConstantInt (MD_op1 MD))) ;;
          ZDimCstID <- VMap_at (VConstant (MD_ConstantInt (MD_op2 MD))) ;;
          InitID <- gets nextID ;;
          tyid <- lookupType (getPointerElementType Ty_) ;;
          id <- nextID_postinc ;;
          emit OpConstantComposite id
            [MkId tyid; MkId XDimCstID; MkId YDimCstID; MkId ZDimCstID] ;;;
          ret (mkWGState (HasMDVec st ++ [true]) (PrevDimCst st) InitID) in
        if bool_decide (PrevDimCst st = (0xFFFFFFFF, 0xFFFFFFFF, 0xFFFFFFFF))
        then generate (mkWGState (HasMDVec st) Cur (InitializerID st))
        else if negb (bool_decide (Cur = PrevDimCst st)) then
          llvm_unreachable
            "reqd_work_group_size must be the same across all kernels"
        else ret st
    | None =>
        ret (mkWGState (HasMDVec st ++ [false]) (PrevDimCst st)
                       (InitializerID st))
    end.

Fixpoint GenerateGlobalVar_kernels (Ty_ : Ty) (st : WGState)
    (Funcs : list Function_) : M WGState :=
  match Funcs with
  | [] => ret st
  | Func :: rest =>
      st' <- GenerateGlobalVar_kernel Ty_ st Func ;;
      GenerateGlobalVar_kernels Ty_ st' rest
  end.

(** [void GenerateGlobalVar(GlobalVariable &GV)].  [Module_] is the function
    list of [GV.getParent()]; [ModuleConstantsInStorageBuffer] is the option
    of that name.  The text written to the descriptor map for a module-scope
    constant with an external initialiser is left out. *)
Definition GenerateGlobalVar (Module_ : list Function_)
    (ModuleConstantsInStorageBuffer : bool) (GV : GlobalVariable) : M unit :=
  let BuiltinType := GetBuiltin (GV_getName GV) in
  let Ty_ := GV_getType GV in
  (* Workgroup size is handled differently (it goes into a constant) *)
  InitializerID <-
    (if bool_decide (BuiltinType = spv.BuiltInWorkgroupSize) then
       st <- GenerateGlobalVar_kernels Ty_
               (mkWGState [] (0xFFFFFFFF, 0xFFFFFFFF, 0xFFFFFFFF) 0) Module_ ;;
       (* Check all kernels have same definitions for work_group_size. *)
       HasMD <-
         match HasMDVec st with
         | [] => ret false
         | HasMD :: rest =>
             if forallb (fun b => bool_decide (HasMD = b)) rest then ret HasMD
             else llvm_unreachable
                    "Kernels should have consistent work group size definition"
         end ;;
       (* If all kernels do not have metadata for reqd_work_group_size,
          generate OpSpecConstants for x/y/z dimension. *)
       if negb HasMD then
         result_type_id <-
           lookupType (getSequentialElementType (getPointerElementType Ty_)) ;;
         XDimCstID <- nextID_postinc ;;
         emit OpSpecConstant XDimCstID [MkId result_type_id; MkNum 1] ;;;
         YDimCstID <- nextID_postinc ;;
         emit OpSpecConstant YDimCstID [MkId result_type_id; MkNum 1] ;;;
         ZDimCstID <- nextID_postinc ;;
         emit OpSpecConstant ZDimCstID [MkId result_type_id; MkNum 1] ;;;
         modify (fun s => set_BuiltinDimensionVec
                            (BuiltinDimensionVec s
                             ++ [XDimCstID; YDimCstID; ZDimCstID]) s) ;;;
         InitID <- gets nextID ;;
         tyid <- lookupType (getPointerElementType Ty_) ;;
         id <- nextID_postinc ;;
         emit OpSpecConstantComposite id
           [MkId tyid; MkId XDimCstID; MkId YDimCstID; MkId ZDimCstID] ;;;
         ret InitID
       else ret (InitializerID st)
     else ret 0) ;;
  n <- gets nextID ;;
  VMap_set (VGlobalVariable (GV_getName GV)) n ;;;
  let AS := getPointerAddressSpace Ty_ in
  tyid <- lookupType Ty_ ;;
  sc <- GetStorageClass AS ;;
  InitializerID <-
    match GV_Initializer GV with
    | Some init => VMap_at (VConstant init)
    | None => ret InitializerID
    end ;;
  let module_scope_constant_external_init :=
    negb (InitializerID =? 0)
    && bool_decide (AS = AddressSpace.Constant)
    && ModuleConstantsInStorageBuffer in
  let Ops :=
    [MkId tyid; MkNum sc]
    ++ (if negb (InitializerID =? 0)
           && negb module_scope_constant_external_init
        then [MkId InitializerID] else []) in
  var_id <- nextID_postinc ;;
  emit OpVariable var_id Ops ;;;
  (* If we have a builtin. *)
  if negb (bool_decide (BuiltinType = spv.BuiltInMax)) then
    pos <- DecoInsertPoint ;;
    GVID <- VMap_at (VGlobalVariable (GV_getName GV)) ;;
    (* WorkgroupSize is different, we decorate the constant composite that
       has its value, rather than the variable that we use to access the
       value. *)
    ResultID <-
      (if bool_decide (BuiltinType = spv.BuiltInWorkgroupSize) then
         modify (fun s => set_WorkgroupSizeVarID GVID
                            (set_WorkgroupSizeValueID InitializerID s)) ;;;
         ret InitializerID
       else ret GVID) ;;
    list_insert pos
      (NewInst OpDecorate
         [MkId ResultID; MkNum spv.DecorationBuiltIn;
          MkNum (spv.BuiltIn_value BuiltinType)])
  else if module_scope_constant_external_init then
    descriptor_set <- gets NextDescriptorSetIndex ;;
    modify (fun s => set_NextDescriptorSetIndex
                       (wrap32 (NextDescriptorSetIndex s + 1)) s) ;;;
    pos <- DecoInsertPoint ;;
    (* OpDecorate %var Binding <binding> *)
    pos <- list_insert' pos
             (NewInst OpDecorate
                [MkId var_id; MkNum spv.DecorationBinding; MkNum 0]) ;;
    (* OpDecorate %var DescriptorSet <descriptor_set> *)
    list_insert pos
      (NewInst OpDecorate
         [MkId var_id; MkNum spv.DecorationDescriptorSet;
          MkNum descriptor_set])
  else ret tt.

(** In [runOnModule], before anything is generated:
    [if (GV.getName().startswith("__spirv_")) GV.setInitializer(nullptr);] *)
Definition strip_spirv_initializer (GV : GlobalVariable) : GlobalVariable :=
  if String.prefix "__spirv_" (GV_getName GV)
  then mkGlobalVariable (GV_getName GV) (GV_getType GV) None
  else GV.

(** ** Execution modes in [GenerateModuleInfo] *)

(** The loop [for (auto EntryPoint : EntryPoints)] that writes one
    OpExecutionMode per kernel with a [reqd_work_group_size]; every
    instruction goes in front of [InsertPoint]. *)
Definition GenerateModuleInfo_ExecutionModes (InsertPoint : iterator)
  : M unit :=
  EntryPoints <- gets EntryPointVec ;;
  forM_ EntryPoints
    (fun EntryPoint : Function_ * Z =>
       match F_reqd_work_group_size EntryPoint.1 with
       | Some MD =>
           BuiltinDimVec <- gets BuiltinDimensionVec ;;
           match BuiltinDimVec with
           | _ :: _ =>
               llvm_unreachable
                 "Kernels should have consistent work group size definition"
           | [] =>
               let XDim := (MD_dims MD).1.1 in
               let YDim := (MD_dims MD).1.2 in
               let ZDim := (MD_dims MD).2 in
               list_insert InsertPoint
                 (NewInst OpExecutionMode
                    [MkId EntryPoint.2; MkNum spv.ExecutionModeLocalSize;
                     MkNum XDim; MkNum YDim; MkNum ZDim])
           end
       | None => ret tt
       end).

(** The two places of [runOnModule] that read [reqd_work_group_size], in the
    order they run: [GenerateGlobalVar] for each global variable of the
    module, and later the execution modes written by [GenerateModuleInfo]. *)
Definition runOnModule_workgroup_size (Module_ : list Function_)
    (ModuleConstantsInStorageBuffer : bool) (Globals : list GlobalVariable)
    (InsertPoint : iterator) : M unit :=
  forM_ (map strip_spirv_initializer Globals)
        (GenerateGlobalVar Module_ ModuleConstantsInStorageBuffer) ;;;
  GenerateModuleInfo_ExecutionModes InsertPoint.

(** ** Binary operators in [GenerateInstruction] *)

(** [spv::Op GetSPIRVBinaryOpcode(Instruction &I)] *)
Definition GetSPIRVBinaryOpcode (I : BinaryOperator) : Op :=
  let generic :=
    match BO_getOpcode I with
    | Add => OpIAdd | FAdd => OpFAdd
    | Sub => OpISub | FSub => OpFSub
    | Mul => OpIMul | FMul => OpFMul
    | UDiv => OpUDiv | SDiv => OpSDiv | FDiv => OpFDiv
    | URem => OpUMod | SRem => OpSRem | FRem => OpFRem
    | Or => OpBitwiseOr | Xor => OpBitwiseXor | And => OpBitwiseAnd
    | Shl => OpShiftLeftLogical
    | LShr => OpShiftRightLogical
    | AShr => OpShiftRightArithmetic
    end in
  if isIntegerTy (BO_getType I) 1 then
    match BO_getOpcode I with
    | Or => OpLogicalOr
    | And => OpLogicalAnd
    | Xor => OpLogicalNotEqual
    | _ => generic
    end
  else generic.

(** The top of [GenerateInstruction]: register the instruction in the value
    map, [if (0 == VMap[&I]) VMap[&I] = nextID;]. *)
Definition GenerateInstruction_register (V : Value) : M unit :=
  cur <- VMap_at V ;;
  if cur =? 0 then n <- gets nextID ;; VMap_set V n else ret tt.

(** [GenerateInstruction(Instruction &I)] for a binary operator: the value
    map registration at the top, then the [isa<BinaryOperator>(I)] branch of
    the [default:] case. *)
Definition GenerateInstruction_BinaryOperator (I : BinaryOperator) : M unit :=
  GenerateInstruction_register (VInstruction (BO_id I)) ;;;
  (* Handle xor with i1 type specially. *)
  if bool_decide (BO_getOpcode I = Xor)
     && bool_decide (BO_getType I = i1)
     && (isa_Constant (BO_Op0 I) || isa_Constant (BO_Op1 I))
  then
    tyid <- lookupType (BO_getType I) ;;
    let CondV := if isa_Constant (BO_Op0 I) then BO_Op1 I else BO_Op0 I in
    cid <- VMap_at CondV ;;
    id <- nextID_postinc ;;
    emit OpLogicalNot id [MkId tyid; MkId cid]
  else
    tyid <- lookupType (BO_getType I) ;;
    id0 <- VMap_at (BO_Op0 I) ;;
    id1 <- VMap_at (BO_Op1 I) ;;
    id <- nextID_postinc ;;
    emit (GetSPIRVBinaryOpcode I) id [MkId tyid; MkId id0; MkId id1].

(** ** Deferred instructions *)

Module glsl.
(** GLSL.std.450 instruction numbers (clspv/spirv_glsl.hpp). *)
Definition ExtInstAsin : Z := 16.
Definition ExtInstAcos : Z := 17.
Definition ExtInstAtan2 : Z := 25.
Definition ExtInstFindUMsb : Z := 75.
End glsl.

Definition kGlslExtInstBad : Z := 0.
Definition kCompositeConstructFunctionPrefix : string :=
  "clspv.composite_construct.".

(** The bit pattern of [(float)kOneOverPi]. *)
Definition kOneOverPi_float_bits : Z := 0x3EA2F983.

Definition isPopcountName (n : string) : bool :=
  String.eqb n "_Z8popcounti" || String.eqb n "_Z8popcountj"
  || String.eqb n "_Z8popcountDv2_i" || String.eqb n "_Z8popcountDv3_i"
  || String.eqb n "_Z8popcountDv4_i" || String.eqb n "_Z8popcountDv2_j"
  || String.eqb n "_Z8popcountDv3_j" || String.eqb n "_Z8popcountDv4_j".

(** The diagnostic of the unresolved callee (the printed call instruction
    is left out of the text). *)
Definition missing_callee_message (callee : string) : string :=
  "Can't translate function call.  Missing builtin? " ++ callee.

(** The loop that advances [InsertPoint] while the instruction it denotes
    is an OpPhi, on the nodes from [InsertPoint] on.  The loop does not test
    for [end()]. *)
Fixpoint skip_OpPhi (suffix : list Node) : result iterator :=
  match suffix with
  | [] => Abort "dereference of end()"
  | x :: r => if isOp (inst x) OpPhi then skip_OpPhi r else OK (It (addr x))
  end.

(** [ContinueBB] for a header that is not a latch: the last block of
    [L->blocks()] other than the header that dominates the latch. *)
Definition find_ContinueBB (dominates : Z -> option Z -> bool) (L : Loop)
  : option Z :=
  fold_left (fun ContinueBB BB =>
               if BB =? L_getHeader L then ContinueBB
               else if dominates BB (L_getLoopLatch L) then Some BB
               else ContinueBB)
            (L_blocks L) None.

Section Deferred.

(** The results of [getAnalysis<DominatorTreeWrapperPass>] and
    [getAnalysis<LoopInfoWrapperPass>] for a function, by its name. *)
Variable getAnalysis : string -> FunctionAnalyses.
(** The two name tables of the pass; 0 is [kGlslExtInstBad]. *)
Variable getExtInstEnum : string -> Z.
Variable getIndirectExtInstEnum : string -> Z.
(** The member [OpExtInstImportID]. *)
Variable ExtInstImportID : Z.

Definition getDirectOrIndirectExtInstEnum (Name : string) : Z :=
  let direct := getExtInstEnum Name in
  if negb (direct =? kGlslExtInstBad) then direct
  else getIndirectExtInstEnum Name.

Definition HandleDeferred_Branch (InsertPoint : iterator) (Br : BranchInst)
  : M unit :=
  let A := getAnalysis (Br_getFunction Br) in
  let BrBB := Br_getParent Br in
  (if LI_isLoopHeader A BrBB then
     match LI_getLoopFor A BrBB with
     | None => llvm_unreachable "null loop"
     | Some L =>
         match L_getExitBlock L with
         | None => llvm_unreachable "Loop has multiple exits???"
         | Some MergeBB =>
             ContinueBB <-
               (if L_isLoopLatch L BrBB then ret BrBB
                else
                  (* From SPIR-V spec 2.11, Continue Target must dominate
                     that back-edge block. *)
                  match find_ContinueBB (DT_dominates A) L with
                  | Some BB => ret BB
                  | None => llvm_unreachable "Wrong continue block from loop"
                  end) ;;
             MergeBBID <- VMap_at (VBasicBlock MergeBB) ;;
             ContinueBBID <- VMap_at (VBasicBlock ContinueBB) ;;
             list_insert InsertPoint
               (NewInst OpLoopMerge
                  [MkId MergeBBID; MkId ContinueBBID;
                   MkNum spv.SelectionControlMaskNone])
         end
     end
   else if Br_isConditional Br then
     let HasBackEdge := existsb (LI_isLoopHeader A) (Br_getSuccessors Br) in
     if negb HasBackEdge then
       MergeBBID <- VMap_at (VBasicBlock (nth 1 (Br_getSuccessors Br) 0)) ;;
       list_insert InsertPoint
         (NewInst OpSelectionMerge
            [MkId MergeBBID; MkNum spv.SelectionControlMaskNone])
     else ret tt
   else ret tt) ;;;
  match Br with
  | BrCond _ _ Condition IfTrue IfFalse =>
      CondID <- VMap_at Condition ;;
      TrueBBID <- VMap_at (VBasicBlock IfTrue) ;;
      FalseBBID <- VMap_at (VBasicBlock IfFalse) ;;
      list_insert InsertPoint
        (NewInst OpBranchConditional
           [MkId CondID; MkId TrueBBID; MkId FalseBBID])
  | BrUncond _ _ Target =>
      TargetID <- VMap_at (VBasicBlock Target) ;;
      list_insert InsertPoint (NewInst OpBranch [MkId TargetID])
  end.

Definition insertRes (InsertPoint : iterator) (Opc : Op) (ResID : Z)
    (Ops : list SPIRVOperand) : M unit :=
  I <- lift (NewInstRes Opc ResID Ops) ;; list_insert InsertPoint I.

Definition HandleDeferred_PHI (InsertPoint : iterator) (ResID : Z)
    (PHI : PHINode) : M unit :=
  tyid <- lookupType (PHI_getType PHI) ;;
  Ops <- mapM (fun inc : Value * Z =>
                 VarID <- VMap_at inc.1 ;;
                 ParentID <- VMap_at (VBasicBlock inc.2) ;;
                 ret [MkId VarID; MkId ParentID]) (PHI_incoming PHI) ;;
  insertRes InsertPoint OpPhi ResID (MkId tyid :: concat Ops).

Definition VMap_ids (Vs : list Value) : M (list SPIRVOperand) :=
  mapM (fun V => id <- VMap_at V ;; ret (MkId id)) Vs.

Definition HandleDeferred_Call (InsertPoint : iterator) (ResID : Z)
    (Call : CallInst) : M unit :=
  let callee_name := Call_Callee Call in
  let EInst := getDirectOrIndirectExtInstEnum callee_name in
  if negb (EInst =? 0) then
    (* Generate OpExtInst. *)
    tyid <- lookupType (Call_getType Call) ;;
    args <- VMap_ids (take (Call_NumParams Call) (Call_args Call)) ;;
    insertRes InsertPoint OpExtInst ResID
      (MkId tyid :: MkId ExtInstImportID :: MkNum EInst :: args) ;;;
    let IndirectExtInst := getIndirectExtInstEnum callee_name in
    if negb (IndirectExtInst =? kGlslExtInstBad) then
      (* Generate one more instruction that uses the result of the
         extended instruction.  Its result id is one more than the id of
         the extended instruction. *)
      let generate_extra_inst (opcode : Op) (elt : Ty) (val : Z) : M unit :=
        let resultTy := Call_getType Call in
        tyid <- lookupType resultTy ;;
        let constant :=
          match resultTy with
          | VectorTy _ n =>
              ConstantDataSequential (VectorTy elt n)
                                     (replicate (Z.to_nat n) val)
          | _ => CDS_getElementAsConstant (VectorTy elt 1) val
          end in
        cid <- VMap_at (VConstant constant) ;;
        insertRes InsertPoint opcode (wrap32 (ResID + 1))
          [MkId tyid; MkId cid; MkId ResID] in
      if IndirectExtInst =? glsl.ExtInstFindUMsb then
        generate_extra_inst OpISub i32 31
      else if (IndirectExtInst =? glsl.ExtInstAcos)
              || (IndirectExtInst =? glsl.ExtInstAsin)
              || (IndirectExtInst =? glsl.ExtInstAtan2) then
        generate_extra_inst OpFMul FloatTy kOneOverPi_float_bits
      else ret tt
    else ret tt
  else if isPopcountName callee_name then
    (* Generate OpBitCount *)
    tyid <- lookupType (Call_getType Call) ;;
    match Call_args Call with
    | Base :: _ =>
        bid <- VMap_at Base ;;
        insertRes InsertPoint OpBitCount ResID [MkId tyid; MkId bid]
    | [] => llvm_unreachable "getOperand() out of range!"
    end
  else if String.prefix kCompositeConstructFunctionPrefix callee_name then
    (* Generate an OpCompositeConstruct *)
    tyid <- lookupType (Call_getType Call) ;;
    args <- VMap_ids (Call_args Call) ;;
    insertRes InsertPoint OpCompositeConstruct ResID (MkId tyid :: args)
  else
    (* Generate OpFunctionCall. *)
    tyid <- lookupType (Call_getType Call) ;;
    CalleeID <- VMap_at (VFunction callee_name) ;;
    (if CalleeID =? 0 then
       (* Can we error out?  Enabling this llvm_unreachable causes an
          infinite loop.  Instead, go ahead and generate the bad function
          call.  A validator will catch the 0-Id. *)
       errs_print (missing_callee_message callee_name)
     else ret tt) ;;;
    args <- VMap_ids (take (Call_NumParams Call) (Call_args Call)) ;;
    insertRes InsertPoint OpFunctionCall ResID
      (MkId tyid :: MkId CalleeID :: args).

(** The body of the loop of [HandleDeferredInstruction] for one entry. *)
Definition HandleDeferredInstruction_one (DeferredInst : DeferredInst)
  : M unit :=
  l <- gets SPIRVInsts ;;
  InsertPoint <-
    match iterator_next (DI_InsertPoint DeferredInst) l with
    | None => llvm_unreachable "increment of an invalid iterator"
    | Some End => ret End
    | Some (It a) =>
        match suffix_from a l with
        | Some suffix => lift (skip_OpPhi suffix)
        | None => llvm_unreachable "invalid iterator"
        end
    end ;;
  match DI_Inst DeferredInst with
  | IBranch Br => HandleDeferred_Branch InsertPoint Br
  | IPHI PHI => HandleDeferred_PHI InsertPoint (DI_ResID DeferredInst) PHI
  | ICall Call => HandleDeferred_Call InsertPoint (DI_ResID DeferredInst) Call
  end.

(** [void HandleDeferredInstruction()]: the entries are taken from the
    last one to the first. *)
Definition HandleDeferredInstruction : M unit :=
  DeferredInsts <- gets DeferredInstVec ;;
  forM_ (rev DeferredInsts) HandleDeferredInstruction_one.

End Deferred.

(** * Properties *)

(** ** Arithmetic helpers *)

Lemma wrap16_small z : 0 <= z < 2 ^ 16 -> wrap16 z = z.
Proof. intros; unfold wrap16; apply Z.mod_small; lia. Qed.

Lemma wrap32_small z : 0 <= z < 2 ^ 32 -> wrap32 z = z.
Proof. intros; unfold wrap32; apply Z.mod_small; lia. Qed.

Lemma wrap64_small z : 0 <= z < 2 ^ 64 -> wrap64 z = z.
Proof. intros; unfold wrap64; apply Z.mod_small; lia. Qed.

Lemma wrap32_range z : 0 <= wrap32 z < 2 ^ 32.
Proof. unfold wrap32; apply Z.mod_pos_bound; lia. Qed.

(** ** Word counts *)

(** [ceil(a / 4)] for a natural [a]. *)
Definition ceil_div4 (a : Z) : Z :=
  if a mod 4 =? 0 then a / 4 else a / 4 + 1.

(** The word count of one operand as the design states it. *)
Definition operand_words (o : SPIRVOperand) : Z :=
  match Type_ o with
  | NUMBERID => 1
  | LITERAL_INTEGER | LITERAL_FLOAT => Z.of_nat (length (LiteralNum o))
  | LITERAL_STRING => ceil_div4 (Z.of_nat (String.length (LiteralStr o)) + 1)
  end.

Definition sum_operand_words (Ops : list SPIRVOperand) : Z :=
  fold_right (fun o acc => operand_words o + acc) 0 Ops.

(** The word count of an instruction as the design states it. *)
Definition instruction_words (hasResultID : bool) (Ops : list SPIRVOperand)
  : Z :=
  1 + (if hasResultID then 1 else 0) + sum_operand_words Ops.

Lemma ceil_div4_plus1 n : 0 <= n -> ceil_div4 (n + 1) = (n + 4) / 4.
Proof.
  intros Hn. unfold ceil_div4.
  destruct (Z.eqb_spec ((n + 1) mod 4) 0) as [E|E].
  - pose proof (Z.div_mod (n + 1) 4 ltac:(lia)) as D.
    rewrite E in D.
    replace (n + 4) with ((n + 1) / 4 * 4 + 3) by lia.
    rewrite Z.div_add_l by lia. change (3 / 4) with 0. lia.
  - pose proof (Z.div_mod (n + 1) 4 ltac:(lia)) as D.
    pose proof (Z.mod_pos_bound (n + 1) 4 ltac:(lia)) as B.
    replace (n + 4) with (((n + 1) / 4 + 1) * 4 + ((n + 1) mod 4 - 1)) by lia.
    rewrite Z.div_add_l by lia.
    rewrite (Z.div_small ((n + 1) mod 4 - 1)) by lia. lia.
Qed.

Lemma operand_words_nonneg o : 0 <= operand_words o.
Proof.
  unfold operand_words. destruct (Type_ o); try lia.
  rewrite ceil_div4_plus1 by lia. apply Z.div_pos; lia.
Qed.

Lemma sum_operand_words_nonneg Ops : 0 <= sum_operand_words Ops.
Proof.
  induction Ops as [|o Ops IH]; simpl; [lia|].
  pose proof (operand_words_nonneg o). lia.
Qed.

Lemma GetNumWords_small o :
  operand_words o < 2 ^ 16 -> GetNumWords o = operand_words o.
Proof.
  unfold GetNumWords, operand_words. destruct (Type_ o); intros Hb.
  - reflexivity.
  - apply wrap32_small. lia.
  - rewrite ceil_div4_plus1 in Hb |- * by lia.
    set (n := Z.of_nat (String.length (LiteralStr o))) in *.
    assert (Hn : 0 <= n) by (subst n; lia).
    assert (Hlt : n + 4 < 4 * 2 ^ 16).
    { destruct (Z_lt_ge_dec (n + 4) (4 * 2 ^ 16)) as [?|Hge]; [assumption|].
      exfalso.
      assert (2 ^ 16 <= (n + 4) / 4) by (apply Z.div_le_lower_bound; lia).
      lia. }
    rewrite (wrap64_small (n + 4)) by lia.
    apply wrap32_small. split; [apply Z.div_pos; lia|lia].
  - apply wrap32_small. lia.
Qed.

Lemma addWordCounts_small Ops : forall init,
  0 <= init -> init + sum_operand_words Ops < 2 ^ 16 ->
  addWordCounts init Ops = init + sum_operand_words Ops
  /\ Forall (fun o => GetNumWords o = operand_words o) Ops.
Proof.
  unfold addWordCounts.
  induction Ops as [|o Ops IH]; intros init Hi Hb; simpl in *.
  - split; [lia|constructor].
  - pose proof (operand_words_nonneg o) as Ho.
    pose proof (sum_operand_words_nonneg Ops) as Hs.
    assert (Hg : GetNumWords o = operand_words o)
      by (apply GetNumWords_small; lia).
    rewrite Hg.
    rewrite (wrap32_small (init + operand_words o)) by lia.
    rewrite (wrap16_small (init + operand_words o)) by lia.
    destruct (IH (init + operand_words o)) as [E F]; [lia|lia|].
    split; [rewrite E; lia|constructor; assumption].
Qed.

(** The two constructors of [SPIRVInstruction] as one: with a result id or
    without. *)
Definition construct (Opc : Op) (ResID : option Z) (Ops : list SPIRVOperand)
  : result SPIRVInstruction :=
  match ResID with
  | Some id => NewInstRes Opc id Ops
  | None => OK (NewInst Opc Ops)
  end.

(** C8 (as the code has it): for every instruction whose stated total, one
    word for the opcode/count word plus one if a result id is present plus
    the operands' words, is at most 65535, each operand counts 1 word for an
    id, its number of literal words for literal integers and floats, and
    ceil((len+1)/4) words for a string of length len, and the instruction's
    word count is that total. *)
Theorem word_count_within_16_bits (Opc : Op) (ResID : option Z)
    (Ops : list SPIRVOperand) :
  instruction_words (bool_decide (is_Some ResID)) Ops <= 65535 ->
  ResID <> Some 0 ->
  Forall (fun o => GetNumWords o = operand_words o) Ops
  /\ exists I, construct Opc ResID Ops = OK I
               /\ WordCount I
                  = instruction_words (bool_decide (is_Some ResID)) Ops.
Proof.
  intros Hb Hres. unfold instruction_words in *.
  pose proof (sum_operand_words_nonneg Ops) as Hs.
  destruct ResID as [id|]; simpl in *.
  - destruct (addWordCounts_small Ops 2) as [E2 F]; [lia|lia|].
    split; [exact F|]. unfold NewInstRes.
    destruct (Z.eqb_spec id 0) as [->|_]; [congruence|].
    eexists; split; [reflexivity|]. simpl. lia.
  - destruct (addWordCounts_small Ops 1) as [E1 F]; [lia|lia|].
    split; [exact F|]. eexists; split; [reflexivity|]. simpl. lia.
Qed.

Lemma word_count_within_16_bits_witness :
  Forall (fun o => GetNumWords o = operand_words o)
         [MkId 1; MkInteger [0; 1]; MkString "GLSL.std.450"]
  /\ exists I, construct OpExtInst (Some 7)
                 [MkId 1; MkInteger [0; 1]; MkString "GLSL.std.450"] = OK I
               /\ WordCount I = 9.
Proof.
  apply (word_count_within_16_bits OpExtInst (Some 7)
           [MkId 1; MkInteger [0; 1]; MkString "GLSL.std.450"]).
  - vm_compute. discriminate.
  - discriminate.
Defined.

(** C8 fails as stated: an OpConstantComposite with a result id, a type id
    and 65534 element ids has 65537 words by the stated formula, but its
    16-bit word count is 1. *)
Lemma word_count_wraps_at_65536 :
  exists I,
    construct OpConstantComposite (Some 7)
      (MkId 3 :: repeat (MkId 5) (Z.to_nat 65534)) = OK I
    /\ instruction_words true (MkId 3 :: repeat (MkId 5) (Z.to_nat 65534))
       = 65537
    /\ WordCount I = 1.
Proof.
  eexists. split; [reflexivity|].
  split; vm_compute; reflexivity.
Qed.

(** ** Reasoning about the pass monad *)

(** [m] relates every state it starts from to the state it ends in by [R],
    whenever it ends without a fatal stop. *)
Definition respects {A} (R : relation Pass) (m : M A) : Prop :=
  forall s a s', m s = OK (a, s') -> R s s'.

Lemma bind_OK {A B} (m : M A) (k : A -> M B) s b s' :
  bind m k s = OK (b, s') ->
  exists a s1, m s = OK (a, s1) /\ k a s1 = OK (b, s').
Proof.
  unfold bind. destruct (m s) as [[a s1]|msg]; [|discriminate].
  intros H. exists a, s1. split; [reflexivity|exact H].
Qed.

Lemma bind_Abort_l {A B} (m : M A) (k : A -> M B) s msg :
  m s = Abort msg -> bind m k s = Abort msg.
Proof. unfold bind. intros ->. reflexivity. Qed.

Lemma bind_OK_l {A B} (m : M A) (k : A -> M B) s a s1 :
  m s = OK (a, s1) -> bind m k s = k a s1.
Proof. unfold bind. intros ->. reflexivity. Qed.

Lemma NewInstRes_OK Opc id Ops I :
  NewInstRes Opc id Ops = OK I ->
  id <> 0 /\ I = mkSPIRVInstruction (addWordCounts 2 Ops) Opc id Ops.
Proof.
  unfold NewInstRes. destruct (Z.eqb_spec id 0); [discriminate|].
  intros H. injection H as <-. auto.
Qed.

Lemma emit_OK Opc id Ops s :
  id <> 0 ->
  emit Opc id Ops s
  = OK (tt, set_nextNode (S (nextNode s))
              (set_SPIRVInsts
                 (SPIRVInsts s
                  ++ [mkNode (nextNode s)
                        (mkSPIRVInstruction (addWordCounts 2 Ops) Opc id Ops)])
                 s)).
Proof.
  intros Hid. unfold emit, bind, lift, NewInstRes.
  destruct (Z.eqb_spec id 0); [contradiction|]. reflexivity.
Qed.

Lemma emit_zero Opc Ops s : exists msg, emit Opc 0 Ops s = Abort msg.
Proof. eexists. reflexivity. Qed.

Lemma insert_at_split a n l l' :
  insert_at a n l = Some l' ->
  exists l1 l2, l = l1 ++ l2 /\ l' = l1 ++ n :: l2
                /\ find_if (fun _ => true) l2 = It a
                /\ Forall (fun x => addr x <> a) l1.
Proof.
  revert l'. induction l as [|x r IH]; simpl; intros l' H; [discriminate|].
  destruct (Nat.eqb_spec (addr x) a) as [E|E].
  - injection H as <-. exists [], (x :: r). simpl. rewrite E. auto.
  - destruct (insert_at a n r) as [r'|] eqn:Er; [|discriminate].
    injection H as <-. destruct (IH r' eq_refl) as (l1 & l2 & -> & -> & F & G).
    exists (x :: l1), l2. simpl. auto.
Qed.

(** A list that differs from [l] by one more node somewhere. *)
Definition one_more (n : Node) (l l' : list Node) : Prop :=
  exists l1 l2, l = l1 ++ l2 /\ l' = l1 ++ n :: l2.

Section Respects.

Context {R : relation Pass} `{!PreOrder R}.

Lemma respects_ret {A} (a : A) : respects R (ret a).
Proof. intros s a' s' H. injection H as _ <-. reflexivity. Qed.

Lemma respects_bind {A B} (m : M A) (k : A -> M B) :
  respects R m -> (forall a, respects R (k a)) -> respects R (bind m k).
Proof.
  intros Hm Hk s b s' H. apply bind_OK in H as (a & s1 & H1 & H2).
  etransitivity; [eapply Hm; eassumption|eapply Hk; eassumption].
Qed.

Lemma respects_gets {A} (f : Pass -> A) : respects R (gets f).
Proof. intros s a s' H. injection H as _ <-. reflexivity. Qed.

Lemma respects_lift {A} (r : result A) : respects R (lift r).
Proof.
  intros s a s' H. unfold lift in H. destruct r; [|discriminate].
  injection H as _ <-. reflexivity.
Qed.

Lemma respects_unreachable {A} msg : respects R (@llvm_unreachable A msg).
Proof. intros s a s' H. discriminate. Qed.

Lemma respects_lookupType T : respects R (lookupType T).
Proof.
  intros s a s' H. unfold lookupType in H.
  destruct (TypeMap s !! _); [|discriminate]. injection H as _ <-.
  reflexivity.
Qed.

Lemma respects_GetStorageClass AS : respects R (GetStorageClass AS).
Proof.
  destruct AS; simpl; first [apply respects_ret|apply respects_unreachable].
Qed.

Lemma respects_modify (f : Pass -> Pass) :
  (forall s, R s (f s)) -> respects R (modify f).
Proof. intros Hf s a s' H. injection H as _ <-. apply Hf. Qed.

Lemma respects_nextID_postinc :
  (forall s v, R s (set_nextID v s)) -> respects R nextID_postinc.
Proof. intros Hf s a s' H. injection H as _ <-. apply Hf. Qed.

Lemma respects_VMap_at V :
  (forall s, R s (set_ValueMap (at_ (ValueMap s) V).2 s)) ->
  respects R (VMap_at V).
Proof. intros Hf s a s' H. injection H as _ <-. apply Hf. Qed.

Lemma respects_TypeMap_at T :
  (forall s, R s (set_TypeMap (at_ (TypeMap s) T).2 s)) ->
  respects R (TypeMap_at T).
Proof. intros Hf s a s' H. injection H as _ <-. apply Hf. Qed.

Lemma respects_list_insert' pos I :
  (forall s l, one_more (mkNode (nextNode s) I) (SPIRVInsts s) l ->
               R s (set_nextNode (S (nextNode s)) (set_SPIRVInsts l s))) ->
  respects R (list_insert' pos I).
Proof.
  intros Hf s a s' H. unfold list_insert' in H. destruct pos as [p|].
  - destruct (insert_at _ _ _) as [l|] eqn:E; [|discriminate].
    injection H as _ <-. apply Hf.
    apply insert_at_split in E as (l1 & l2 & E1 & E2 & _).
    exists l1, l2. auto.
  - injection H as _ <-. apply Hf. exists (SPIRVInsts s), [].
    rewrite app_nil_r. auto.
Qed.

Lemma respects_list_insert pos I :
  (forall s l, one_more (mkNode (nextNode s) I) (SPIRVInsts s) l ->
               R s (set_nextNode (S (nextNode s)) (set_SPIRVInsts l s))) ->
  respects R (list_insert pos I).
Proof.
  intros Hf. apply respects_bind; [|intros; apply respects_ret].
  apply respects_list_insert'. exact Hf.
Qed.

Lemma respects_push_back I :
  (forall s l, one_more (mkNode (nextNode s) I) (SPIRVInsts s) l ->
               R s (set_nextNode (S (nextNode s)) (set_SPIRVInsts l s))) ->
  respects R (push_back I).
Proof.
  intros Hf. apply respects_modify. intros s. apply Hf.
  exists (SPIRVInsts s), []. rewrite app_nil_r. auto.
Qed.

Lemma respects_emit Opc id Ops :
  (forall s l I,
      NewInstRes Opc id Ops = OK I ->
      one_more (mkNode (nextNode s) I) (SPIRVInsts s) l ->
      R s (set_nextNode (S (nextNode s)) (set_SPIRVInsts l s))) ->
  respects R (emit Opc id Ops).
Proof.
  intros Hf s a s' H. unfold emit in H.
  apply bind_OK in H as (I & s1 & H1 & H2).
  unfold lift in H1. destruct (NewInstRes Opc id Ops) as [I'|] eqn:E;
    [|discriminate].
  injection H1 as <- <-. revert H2. apply respects_push_back.
  intros s2 l Hl. eapply Hf; [reflexivity|exact Hl].
Qed.

Lemma respects_forM_ {A} (xs : list A) (body : A -> M unit) :
  (forall x, x ∈ xs -> respects R (body x)) -> respects R (forM_ xs body).
Proof.
  induction xs as [|x xs IH]; simpl; intros Hb; [apply respects_ret|].
  apply respects_bind; [apply Hb; left|intros _; apply IH].
  intros y Hy. apply Hb. right. exact Hy.
Qed.

Lemma respects_mapM {A B} (f : A -> M B) (xs : list A) :
  (forall x, x ∈ xs -> respects R (f x)) -> respects R (mapM f xs).
Proof.
  induction xs as [|x xs IH]; simpl; intros Hb; [apply respects_ret|].
  apply respects_bind; [apply Hb; left|intros b].
  apply respects_bind; [|intros; apply respects_ret].
  apply IH. intros y Hy. apply Hb. right. exact Hy.
Qed.

End Respects.

(** One structural step of a [respects] proof; what is left are goals
    [R s s'] for the state updates [R] may be sensitive to. *)
Ltac respects_step :=
  lazymatch goal with
  | |- respects _ (bind _ _) => apply respects_bind; [|intros ?]
  | |- respects _ (ret _) => apply respects_ret
  | |- respects _ (gets _) => apply respects_gets
  | |- respects _ (lift _) => apply respects_lift
  | |- respects _ (llvm_unreachable _) => apply respects_unreachable
  | |- respects _ (lookupType _) => apply respects_lookupType
  | |- respects _ (GetStorageClass _) => apply respects_GetStorageClass
  | |- respects _ (modify _) => apply respects_modify; intros ?
  | |- respects _ nextID_postinc => apply respects_nextID_postinc; intros ? ?
  | |- respects _ (VMap_at _) => apply respects_VMap_at; intros ?
  | |- respects _ (TypeMap_at _) => apply respects_TypeMap_at; intros ?
  | |- respects _ (VMap_set _ _) => unfold VMap_set
  | |- respects _ (TypeMap_set _ _) => unfold TypeMap_set
  | |- respects _ (errs_print _) => unfold errs_print
  | |- respects _ DecoInsertPoint => apply respects_gets
  | |- respects _ (emit _ _ _) => apply respects_emit; intros ? ? ? ? ?
  | |- respects _ (push_back _) => apply respects_push_back; intros ? ? ?
  | |- respects _ (list_insert _ _) => apply respects_list_insert; intros ? ? ?
  | |- respects _ (list_insert' _ _) =>
      apply respects_list_insert'; intros ? ? ?
  | |- respects _ (forM_ _ _) => apply respects_forM_; intros ? ?
  | |- respects _ (mapM _ _) => apply respects_mapM; intros ? ?
  | |- respects _ (if ?b then _ else _) => destruct b
  | |- respects _ (match ?x with _ => _ end) => destruct x
  end.

(** ** Frames of the pass state *)

(** Entries of the type map outside [K] are untouched. *)
Definition TypeMap_frame (K : Ty -> Prop) : relation Pass :=
  fun s s' => forall k, ~ K k -> TypeMap s' !! k = TypeMap s !! k.

(** No entry of the type map is lost or changed. *)
Definition TypeMap_grows : relation Pass :=
  fun s s' => forall k v, TypeMap s !! k = Some v -> TypeMap s' !! k = Some v.

(** Keys of the type map stay keys. *)
Definition TypeMap_dom : relation Pass :=
  fun s s' => forall k, is_Some (TypeMap s !! k) -> is_Some (TypeMap s' !! k).

(** The instructions satisfying [p] are the same, in the same order. *)
Definition insts_filter (p : SPIRVInstruction -> bool) : relation Pass :=
  fun s s' => filter p (insts s') = filter p (insts s).

Global Instance TypeMap_frame_preorder K : PreOrder (TypeMap_frame K).
Proof.
  split; [intros s k _; reflexivity|].
  intros s1 s2 s3 H1 H2 k Hk. rewrite H2, H1 by assumption. reflexivity.
Qed.

Global Instance TypeMap_grows_preorder : PreOrder TypeMap_grows.
Proof. split; [intros s k v H; exact H|]. intros s1 s2 s3 H1 H2 k v H. auto. Qed.

Global Instance TypeMap_dom_preorder : PreOrder TypeMap_dom.
Proof. split; [intros s k H; exact H|]. intros s1 s2 s3 H1 H2 k H. auto. Qed.

Global Instance insts_filter_preorder p : PreOrder (insts_filter p).
Proof.
  split; [intros s; reflexivity|].
  intros s1 s2 s3 H1 H2. unfold insts_filter in *. congruence.
Qed.

Lemma one_more_filter p n l l' :
  one_more n l l' -> p (inst n) = false ->
  filter p (map inst l') = filter p (map inst l).
Proof.
  intros (l1 & l2 & -> & ->) Hp.
  rewrite !map_app, !filter_app. simpl. rewrite filter_cons, Hp.
  reflexivity.
Qed.


Definition alias_of (T : Ty) : Ty :=
  match T with
  | IntegerTy w => if w =? 8 then i32 else if w =? 32 then i8 else T
  | _ => T
  end.

Lemma alias_of_other T : T <> i8 -> T <> i32 -> alias_of T = T.
Proof.
  intros N8 N32. destruct T; try reflexivity. simpl.
  destruct (Z.eqb_spec BitWidth 8) as [->|_]; [contradiction N8; reflexivity|].
  destruct (Z.eqb_spec BitWidth 32) as [->|_];
    [contradiction N32; reflexivity|].
  reflexivity.
Qed.

Ltac TypeMap_frame_solve :=
  let k := fresh "k" in
  let Hk := fresh "Hk" in
  intros k Hk; cbn;
  first [ reflexivity
        | rewrite lookup_insert_ne;
          [reflexivity|intros <-; apply Hk; cbn; auto] ].


Ltac TypeMap_dom_solve :=
  let k := fresh "k" in
  let Hk := fresh "Hk" in
  intros k Hk; cbn;
  first [ exact Hk
        | apply lookup_insert_is_Some';  right; exact Hk ].

Definition is_OpTypeInt32 (I : SPIRVInstruction) : bool :=
  isOp I OpTypeInt && bool_decide (Operands I = [MkNum 32; MkNum 0]).

Definition is_OpTypePointer (I : SPIRVInstruction) : bool :=
  isOp I OpTypePointer.

Ltac insts_filter_solve :=
  cbn; unfold insts_filter, insts; cbn;
  first [ reflexivity
        | eapply one_more_filter; [eassumption|];
          repeat match goal with
                 | H : NewInstRes _ _ _ = OK _ |- _ =>
                     apply NewInstRes_OK in H as [_ ->]
                 end;
          reflexivity ].


Definition both (R1 R2 : relation Pass) : relation Pass :=
  fun s s' => R1 s s' /\ R2 s s'.

Global Instance both_preorder R1 R2 `{!PreOrder R1, !PreOrder R2} :
  PreOrder (both R1 R2).
Proof.
  split; [intros s; split; reflexivity|].
  intros s1 s2 s3 [A1 A2] [B1 B2]. split; etransitivity; eassumption.
Qed.

Definition TypeMap_same : relation Pass :=
  fun s s' => TypeMap s' = TypeMap s.

Global Instance TypeMap_same_preorder : PreOrder TypeMap_same.
Proof.
  split; [intros s; reflexivity|].
  intros s1 s2 s3 H1 H2. unfold TypeMap_same in *. congruence.
Qed.

Ltac TypeMap_same_solve := cbn; unfold TypeMap_same; cbn; reflexivity.

Lemma emit_inv Opc id Ops s u s' :
  emit Opc id Ops s = OK (u, s') ->
  id <> 0
  /\ s' = set_nextNode (S (nextNode s))
            (set_SPIRVInsts
               (SPIRVInsts s
                ++ [mkNode (nextNode s)
                      (mkSPIRVInstruction (addWordCounts 2 Ops) Opc id Ops)])
               s).
Proof.
  intros H. destruct (Z.eq_dec id 0) as [->|E].
  - destruct (emit_zero Opc Ops s) as [msg Hm]. congruence.
  - rewrite emit_OK in H by assumption. injection H as _ <-. auto.
Qed.

Lemma lookupType_inv T s id s' :
  lookupType T s = OK (id, s') ->
  s' = s /\ exists T', TypeMap s !! T' = Some id
                       /\ (isOpaqueStruct (getPointerElementType T) = false -> T' = T).
Proof.
  unfold lookupType. intros H.
  match type of H with context [TypeMap s !! ?k] =>
    destruct (TypeMap s !! k) as [v|] eqn:E; [|discriminate];
    injection H as <- <-; split; [reflexivity|]; exists k; split; [exact E|]
  end.
  destruct T; try reflexivity. simpl. intros ->. rewrite andb_false_r.
  reflexivity.
Qed.

Lemma lookupType_plain T s id :
  isOpaqueStruct (getPointerElementType T) = false ->
  TypeMap s !! T = Some id -> lookupType T s = OK (id, s).
Proof.
  intros Ho Hl. unfold lookupType. destruct T; simpl in *; rewrite ?Hl; try reflexivity.
  rewrite Ho, andb_false_r, Hl. reflexivity.
Qed.

(** Instructions in the list stay in the list. *)
Definition insts_incl : relation Pass :=
  fun s s' => forall Ins, Ins ∈ insts s -> Ins ∈ insts s'.

Global Instance insts_incl_preorder : PreOrder insts_incl.
Proof. split; [intros s Ins H; exact H|]. intros s1 s2 s3 H1 H2 Ins H. auto. Qed.

Lemma one_more_incl n l l' (Ins : SPIRVInstruction) :
  one_more n l l' -> Ins ∈ map inst l -> Ins ∈ map inst l'.
Proof.
  intros (l1 & l2 & -> & ->). rewrite !map_app. simpl.
  rewrite !elem_of_app, elem_of_cons. tauto.
Qed.

Ltac insts_incl_solve :=
  let J := fresh "Ins" in
  let HJ := fresh "HJ" in
  intros J HJ; unfold insts in *; cbn;
  first [ exact HJ | eapply one_more_incl; eassumption ].

Ltac with_run tac :=
  match goal with H : _ = OK _ |- _ => tac H end.

Ltac minv_inj H :=
  first [ injection H as ? ?; subst | injection H as ?; subst | clear H ].

(** Inversion of a run of monadic code that ended well. *)
Ltac minv H :=
  lazymatch type of H with
  | bind _ _ _ = OK _ =>
      let a := fresh "a" in
      let s1 := fresh "s" in
      let H1 := fresh "H" in
      let H2 := fresh "H" in
      apply bind_OK in H as (a & s1 & H1 & H2); minv H1; minv H2
  | ret _ _ = OK _ => minv_inj H
  | gets _ _ = OK _ => minv_inj H
  | modify _ _ = OK _ => minv_inj H
  | TypeMap_set _ _ _ = OK _ => minv_inj H
  | VMap_set _ _ _ = OK _ => minv_inj H
  | VMap_at _ _ = OK _ => minv_inj H
  | errs_print _ _ = OK _ => minv_inj H
  | nextID_postinc _ = OK _ => minv_inj H
  | llvm_unreachable _ _ = OK _ => discriminate H
  | emit _ _ _ _ = OK _ =>
      let E := fresh "Hid" in apply emit_inv in H as [E ?]; subst
  | _ => idtac
  end.


Section TypeEmissionProperties.
Variable ArgGVMap : list (Argument * Ty).
Variable DL : DataLayout.

Lemma StructMembers_respects (R : relation Pass) `{!PreOrder R} es :
  forall orm, respects R (GenerateSPIRVTypes_StructMembers ArgGVMap es orm).
Proof.
  induction es as [|e es IH]; intros orm; simpl.
  - apply respects_ret.
  - repeat respects_step. apply IH.
Qed.

Lemma Integer_frame T BitWidth :
  T = IntegerTy BitWidth ->
  respects (TypeMap_frame (fun k => k = T \/ k = alias_of T))
           (GenerateSPIRVTypes_Integer T BitWidth).
Proof.
  intros ->. unfold GenerateSPIRVTypes_Integer.
  destruct (Z.eqb_spec BitWidth 1) as [->|H1].
  { repeat respects_step; TypeMap_frame_solve. }
  destruct (Z.eqb_spec BitWidth 8) as [->|H8]; simpl.
  { repeat respects_step; TypeMap_frame_solve. }
  destruct (Z.eqb_spec BitWidth 32) as [->|H32]; simpl.
  { repeat respects_step; TypeMap_frame_solve. }
  repeat respects_step; TypeMap_frame_solve.
Qed.

Lemma step_frame orm T :
  respects (TypeMap_frame (fun k => k = T \/ k = alias_of T))
           (GenerateSPIRVTypes_step ArgGVMap DL orm T).
Proof.
  unfold GenerateSPIRVTypes_step, GenerateSPIRVTypes_switch,
    GenerateSPIRVTypes_Pointer, GenerateSPIRVTypes_PointerBody,
    GenerateSPIRVTypes_Struct.
  repeat first [ apply StructMembers_respects | apply Integer_frame
               | respects_step ];
    try TypeMap_frame_solve; try typeclasses eauto; reflexivity.
Qed.

Lemma switch_dom orm T :
  respects TypeMap_dom (GenerateSPIRVTypes_switch ArgGVMap DL orm T).
Proof.
  unfold GenerateSPIRVTypes_switch, GenerateSPIRVTypes_Pointer,
    GenerateSPIRVTypes_PointerBody, GenerateSPIRVTypes_Struct,
    GenerateSPIRVTypes_Integer.
  repeat first [ apply StructMembers_respects | respects_step ];
    try TypeMap_dom_solve; try typeclasses eauto.
Qed.

Lemma step_dom orm T :
  respects TypeMap_dom (GenerateSPIRVTypes_step ArgGVMap DL orm T).
Proof.
  unfold GenerateSPIRVTypes_step.
  repeat first [ apply switch_dom | respects_step ]; TypeMap_dom_solve.
Qed.

Lemma step_mapped orm T s orm' s' :
  GenerateSPIRVTypes_step ArgGVMap DL orm T s = OK (orm', s') ->
  is_Some (TypeMap s' !! T).
Proof.
  intros H. unfold GenerateSPIRVTypes_step in H. minv H.
  eapply switch_dom; [eassumption|]. cbn. rewrite lookup_insert_eq. eauto.
Qed.

Lemma step_filter_int32 orm T :
  T <> i8 -> T <> i32 ->
  respects (insts_filter is_OpTypeInt32)
           (GenerateSPIRVTypes_step ArgGVMap DL orm T).
Proof.
  intros H8 H32.
  unfold GenerateSPIRVTypes_step, GenerateSPIRVTypes_switch,
    GenerateSPIRVTypes_Pointer, GenerateSPIRVTypes_PointerBody,
    GenerateSPIRVTypes_Struct.
  destruct T; try solve [
    repeat first [ apply StructMembers_respects | respects_step ];
    try insts_filter_solve; try typeclasses eauto ].
  unfold GenerateSPIRVTypes_Integer.
  destruct (Z.eqb_spec BitWidth 8) as [->|N8]; [contradiction H8; reflexivity|].
  destruct (Z.eqb_spec BitWidth 32) as [->|N32];
    [contradiction H32; reflexivity|].
  destruct (Z.eqb_spec BitWidth 1) as [->|N1]; simpl.
  { repeat respects_step; insts_filter_solve. }
  repeat respects_step; try insts_filter_solve.
  unfold insts_filter, insts; cbn. eapply one_more_filter; [eassumption|].
  apply NewInstRes_OK in H as [_ ->]. unfold is_OpTypeInt32; cbn.
  rewrite bool_decide_eq_false_2; [reflexivity|]. intros E. injection E as E.
  contradiction.
Qed.

Lemma step_int_first orm T s orm' s' :
  T = i8 \/ T = i32 ->
  TypeMap s !! i8 = None -> TypeMap s !! i32 = None ->
  GenerateSPIRVTypes_step ArgGVMap DL orm T s = OK (orm', s') ->
  TypeMap s' !! i8 = Some (nextID s) /\ TypeMap s' !! i32 = Some (nextID s)
  /\ exists I, insts s' = insts s ++ [I] /\ ResultID I = nextID s
               /\ is_OpTypeInt32 I = true.
Proof.
  intros HT H8 H32 H.
  unfold GenerateSPIRVTypes_step, GenerateSPIRVTypes_switch in H.
  destruct HT as [-> | ->]; unfold i8, i32, GenerateSPIRVTypes_Integer in *;
    cbn in H; minv H; cbn in *.
  - with_run ltac:(fun R =>
      rewrite lookup_insert_ne in R by discriminate; rewrite H32 in R;
      minv R). cbn. unfold insts; cbn. rewrite map_app.
    split; [by simplify_map_eq|]. split; [by simplify_map_eq|].
    eexists. repeat split.
  - with_run ltac:(fun R =>
      rewrite lookup_insert_ne in R by discriminate; rewrite H8 in R;
      minv R). cbn. unfold insts; cbn. rewrite map_app.
    split; [by simplify_map_eq|]. split; [by simplify_map_eq|].
    eexists. repeat split.
Qed.

Lemma step_int_alias orm T s orm' s' id :
  T = i8 \/ T = i32 ->
  TypeMap s !! i8 = Some id -> TypeMap s !! i32 = Some id ->
  GenerateSPIRVTypes_step ArgGVMap DL orm T s = OK (orm', s') ->
  TypeMap s' !! i8 = Some id /\ TypeMap s' !! i32 = Some id
  /\ insts s' = insts s.
Proof.
  intros HT H8 H32 H.
  unfold GenerateSPIRVTypes_step, GenerateSPIRVTypes_switch in H.
  destruct HT as [-> | ->]; unfold i8, i32, GenerateSPIRVTypes_Integer in *;
    cbn in H; minv H; cbn in *.
  - with_run ltac:(fun R =>
      rewrite lookup_insert_ne in R by discriminate; rewrite H32 in R;
      minv R). cbn. split; [by simplify_map_eq|].
    split; [by simplify_map_eq|]. reflexivity.
  - with_run ltac:(fun R =>
      rewrite lookup_insert_ne in R by discriminate; rewrite H8 in R;
      minv R). cbn. split; [by simplify_map_eq|].
    split; [by simplify_map_eq|]. reflexivity.
Qed.

Lemma PointerBody_existing orm PTy EleTy AddrSpace :
  respects (both TypeMap_same (insts_filter is_OpTypePointer))
    (GenerateSPIRVTypes_PointerBody ArgGVMap DL orm PTy EleTy AddrSpace true).
Proof.
  unfold GenerateSPIRVTypes_PointerBody. rewrite andb_false_r.
  repeat respects_step;
    (split; [TypeMap_same_solve|insts_filter_solve]).
Qed.

(** The address space a pointer to constant or global memory is conflated
    with. *)
Definition mirror (AS : AddressSpace.t) : option AddressSpace.t :=
  match AS with
  | AddressSpace.Constant => Some AddressSpace.Global
  | AddressSpace.Global => Some AddressSpace.Constant
  | _ => None
  end.

Lemma step_ptr_alias orm E AS AS' id s orm' s' :
  mirror AS = Some AS' ->
  TypeMap s !! PointerTy E AS' = Some id ->
  GenerateSPIRVTypes_step ArgGVMap DL orm (PointerTy E AS) s = OK (orm', s') ->
  TypeMap s' !! PointerTy E AS = Some id
  /\ filter is_OpTypePointer (insts s') = filter is_OpTypePointer (insts s).
Proof.
  intros Hm Hl H.
  unfold GenerateSPIRVTypes_step, GenerateSPIRVTypes_switch,
    GenerateSPIRVTypes_Pointer in H.
  destruct AS; try discriminate; injection Hm as <-; minv H; cbn in *;
    with_run ltac:(fun R =>
      rewrite lookup_insert_ne in R by discriminate; rewrite Hl in R; minv R).
  - with_run ltac:(fun R => apply PointerBody_existing in R as [R1 R2]).
    unfold TypeMap_same, insts_filter in *. cbn in *.
    rewrite R1, R2, lookup_insert_eq. auto.
  - cbn. rewrite lookup_insert_eq. auto.
Qed.

(** *** The loop over the type list *)

Definition IntInv (base : list SPIRVInstruction) (s : Pass) : Prop :=
  (TypeMap s !! i8 = None /\ TypeMap s !! i32 = None
   /\ filter is_OpTypeInt32 (insts s) = base)
  \/ (exists id I, TypeMap s !! i8 = Some id /\ TypeMap s !! i32 = Some id
                   /\ filter is_OpTypeInt32 (insts s) = base ++ [I]
                   /\ ResultID I = id).

Definition IntAliased (base : list SPIRVInstruction) (s : Pass) : Prop :=
  exists id I, TypeMap s !! i8 = Some id /\ TypeMap s !! i32 = Some id
               /\ filter is_OpTypeInt32 (insts s) = base ++ [I]
               /\ ResultID I = id.

Definition PtrInv (s : Pass) : Prop :=
  forall E a b,
    TypeMap s !! PointerTy E AddressSpace.Constant = Some a ->
    TypeMap s !! PointerTy E AddressSpace.Global = Some b -> a = b.

Lemma step_IntInv base orm T s orm' s' :
  GenerateSPIRVTypes_step ArgGVMap DL orm T s = OK (orm', s') ->
  IntInv base s ->
  IntInv base s' /\ (T = i8 \/ T = i32 -> IntAliased base s').
Proof.
  intros H Inv.
  destruct (decide (T = i8 \/ T = i32)) as [HT|HT].
  - assert (IntAliased base s') as A.
    { destruct Inv as [(H8 & H32 & F)|(id & Ins & H8 & H32 & F & R)].
      + destruct (step_int_first _ _ _ _ _ HT H8 H32 H)
          as (G8 & G32 & Ins & EI & RI & PI).
        exists (nextID s), Ins. repeat split; try assumption.
        rewrite EI, filter_app, F. f_equal.
        rewrite filter_cons, decide_True by (rewrite PI; constructor).
        reflexivity.
      + destruct (step_int_alias _ _ _ _ _ _ HT H8 H32 H) as (G8 & G32 & EI).
        exists id, Ins. rewrite EI. auto. }
    split; [right; exact A|intros _; exact A].
  - assert (T <> i8 /\ T <> i32) as [N8 N32] by tauto.
    split; [|tauto].
    pose proof (step_frame _ _ _ _ _ H) as Fr.
    pose proof (step_filter_int32 _ _ N8 N32 _ _ _ H) as Fi.
    unfold insts_filter in Fi.
    pose proof (alias_of_other T N8 N32) as EA.
    assert (E8 : TypeMap s' !! i8 = TypeMap s !! i8).
    { apply Fr. intros [?|?]; congruence. }
    assert (E32 : TypeMap s' !! i32 = TypeMap s !! i32).
    { apply Fr. intros [?|?]; congruence. }
    unfold IntInv. rewrite E8, E32, Fi. exact Inv.
Qed.

Lemma step_PtrInv orm T s orm' s' :
  GenerateSPIRVTypes_step ArgGVMap DL orm T s = OK (orm', s') ->
  PtrInv s -> PtrInv s'.
Proof.
  intros H Inv E a b Ha Hb.
  pose proof (step_frame _ _ _ _ _ H) as Fr.
  assert (Hfr : forall k, k <> T -> (forall w, k <> IntegerTy w) ->
                          TypeMap s' !! k = TypeMap s !! k).
  { intros k Hk Hw. apply Fr. intros [?|HA]; [contradiction|].
    destruct T; simpl in HA; try contradiction.
    repeat match type of HA with
           | context [if ?c then _ else _] => destruct c
           end; eapply Hw; exact HA. }
  destruct (decide (T = PointerTy E AddressSpace.Constant)) as [->|NC].
  - rewrite Hfr in Hb by discriminate.
    destruct (step_ptr_alias _ E AddressSpace.Constant _ _ _ _ _
                eq_refl Hb H) as [Hc _].
    congruence.
  - destruct (decide (T = PointerTy E AddressSpace.Global)) as [->|NG].
    + rewrite Hfr in Ha by discriminate.
      destruct (step_ptr_alias _ E AddressSpace.Global _ _ _ _ _
                  eq_refl Ha H) as [Hg _].
      congruence.
    + rewrite Hfr in Ha by (congruence || discriminate).
      rewrite Hfr in Hb by (congruence || discriminate).
      eapply Inv; eassumption.
Qed.

Lemma loop_dom Types : forall orm,
  respects TypeMap_dom (GenerateSPIRVTypes_loop ArgGVMap DL orm Types).
Proof.
  induction Types as [|T Types IH]; intros orm; simpl.
  - apply respects_ret.
  - apply respects_bind; [apply step_dom|intros orm'; apply IH].
Qed.

Lemma loop_inv base Types : forall orm s s',
  GenerateSPIRVTypes_loop ArgGVMap DL orm Types s = OK (tt, s') ->
  IntInv base s -> PtrInv s ->
  IntInv base s' /\ PtrInv s'
  /\ (i8 ∈ Types \/ i32 ∈ Types -> IntAliased base s')
  /\ (forall T, T ∈ Types -> is_Some (TypeMap s' !! T)).
Proof.
  induction Types as [|T Types IH]; intros orm s s' H HI HP; simpl in H.
  - minv H. repeat split; try assumption.
    + intros [C|C]; inversion C.
    + intros T C; inversion C.
  - minv H.
    match goal with
    | H1 : GenerateSPIRVTypes_step _ _ _ _ _ = OK (?o, ?s1),
      H2 : GenerateSPIRVTypes_loop _ _ _ _ _ = OK _ |- _ =>
        destruct (step_IntInv base _ _ _ _ _ H1 HI) as [HI1 HA1];
        pose proof (step_PtrInv _ _ _ _ _ H1 HP) as HP1;
        pose proof (step_mapped _ _ _ _ _ H1) as HM1;
        destruct (IH _ _ _ H2 HI1 HP1) as (HI2 & HP2 & HA2 & HM2);
        assert (Hdom : TypeMap_dom s1 s')
    end.
    { eapply loop_dom; eassumption. }
    repeat split; try assumption.
    + intros HT.
      assert (T = i8 \/ T = i32 \/ i8 ∈ Types \/ i32 ∈ Types) as [C|[C|C]].
      { destruct HT as [HT|HT]; apply elem_of_cons in HT as [<-|HT]; tauto. }
      * specialize (HA1 (or_introl C)).
        destruct HI2 as [(N8 & _)|A]; [|exact A].
        destruct HA1 as (id & _ & S8 & _).
        destruct (Hdom i8) as [v Hv]; [eauto|]. congruence.
      * specialize (HA1 (or_intror C)).
        destruct HI2 as [(N8 & _)|A]; [|exact A].
        destruct HA1 as (id & _ & S8 & _).
        destruct (Hdom i8) as [v Hv]; [eauto|]. congruence.
      * apply HA2. exact C.
    + intros T' HT'. apply elem_of_cons in HT' as [->|HT'].
      * apply Hdom. exact HM1.
      * apply HM2. exact HT'.
Qed.

(** *** Pointer types and the instructions that carry their ids *)

Lemma step_insts_incl orm T :
  respects insts_incl (GenerateSPIRVTypes_step ArgGVMap DL orm T).
Proof.
  unfold GenerateSPIRVTypes_step, GenerateSPIRVTypes_switch,
    GenerateSPIRVTypes_Pointer, GenerateSPIRVTypes_PointerBody,
    GenerateSPIRVTypes_Struct, GenerateSPIRVTypes_Integer.
  repeat first [ apply StructMembers_respects | respects_step ];
    try insts_incl_solve; try typeclasses eauto.
Qed.

Lemma loop_insts_incl Types : forall orm,
  respects insts_incl (GenerateSPIRVTypes_loop ArgGVMap DL orm Types).
Proof.
  induction Types as [|T Types IH]; intros orm; simpl.
  - apply respects_ret.
  - apply respects_bind; [apply step_insts_incl|intros orm'; apply IH].
Qed.

(** An OpTypePointer or an OpTypeRuntimeArray with the result id [id] is
    in the instruction list. *)
Definition pointer_emitted (id : Z) (s : Pass) : Prop :=
  exists Ins,
    Ins ∈ insts s
    /\ (Opcode Ins = OpTypePointer \/ Opcode Ins = OpTypeRuntimeArray)
    /\ ResultID Ins = id.

Lemma pointer_emitted_incl id s s' :
  insts_incl s s' -> pointer_emitted id s -> pointer_emitted id s'.
Proof. intros Hi (Ins & Hin & Ho & Hr). exists Ins. auto. Qed.

(** A pointer type that does not take the id of its mirror: the first
    instruction written for it, an OpTypePointer or else an
    OpTypeRuntimeArray, has the id the type was given. *)
Lemma PointerBody_first orm PTy EleTy AddrSpace s orm' s' :
  GenerateSPIRVTypes_PointerBody ArgGVMap DL orm PTy EleTy AddrSpace false s
  = OK (orm', s') ->
  TypeMap s' = TypeMap s /\ pointer_emitted (nextID s) s'.
Proof.
  unfold GenerateSPIRVTypes_PointerBody.
  generalize (existsb
                (fun ArgGV : Argument * Ty =>
                   bool_decide (Arg_getType ArgGV.1 = PTy)
                   && negb (bool_decide
                              (AddrSpace = AddressSpace.UniformConstant)))
                ArgGVMap) as IsOpTypeRuntimeArray.
  generalize (existsb
                (fun ArgGV : Argument * Ty =>
                   bool_decide (Arg_getType ArgGV.1 = PTy)
                   && existsb (fun U => negb (U_isGEP U)
                                        || bool_decide (U_getType U = PTy))
                              (Arg_users ArgGV.1))
                ArgGVMap) as HasArgUser.
  intros HasArgUser IsOpTypeRuntimeArray H.
  apply bind_OK in H as ([] & s1 & H1 & H2).
  destruct (negb IsOpTypeRuntimeArray || HasArgUser) eqn:Eb; cbn in H1.
  - (* an OpTypePointer is written first *)
    assert (R : both TypeMap_same insts_incl s1 s').
    { revert H2.
      match goal with |- ?m s1 = _ -> _ =>
        assert (Hr : respects (both TypeMap_same insts_incl) m) end.
      { repeat respects_step;
          (split; [TypeMap_same_solve|insts_incl_solve]). }
      apply Hr. }
    destruct R as [RT RI]. unfold TypeMap_same in RT.
    apply bind_OK in H1 as (sc & sa & Ha & H1).
    assert (sa = s) as ->.
    { destruct AddrSpace; cbn in Ha; try discriminate;
        injection Ha as _ <-; reflexivity. }
    apply bind_OK in H1 as (ety & sb & Hb & H1).
    apply lookupType_inv in Hb as [-> _].
    apply bind_OK in H1 as (id & sc' & Hc & H1).
    injection Hc as <- <-. apply emit_inv in H1 as [Hid ->].
    split; [rewrite RT; reflexivity|].
    eexists. split; [apply RI; unfold insts; cbn; rewrite map_app;
                     apply elem_of_app; right; left|].
    cbn. auto.
  - (* only an OpTypeRuntimeArray is written *)
    injection H1 as <-.
    destruct IsOpTypeRuntimeArray; [|destruct HasArgUser; discriminate].
    apply bind_OK in H2 as (ety & sb & Hb & H2).
    apply lookupType_inv in Hb as [-> _].
    apply bind_OK in H2 as (n & sc' & Hc & H2). injection Hc as <- <-.
    apply bind_OK in H2 as (id & sd & Hd & H2). injection Hd as <- <-.
    apply bind_OK in H2 as ([] & se & He & H2).
    apply emit_inv in He as [Hid ->].
    assert (R : both TypeMap_same insts_incl
                  (set_nextNode (S (nextNode (set_nextID (wrap32 (nextID s + 1)) s)))
                     (set_SPIRVInsts
                        (SPIRVInsts (set_nextID (wrap32 (nextID s + 1)) s)
                         ++ [mkNode (nextNode (set_nextID (wrap32 (nextID s + 1)) s))
                               (mkSPIRVInstruction
                                  (addWordCounts 2 [MkId ety])
                                  OpTypeRuntimeArray (nextID s) [MkId ety])])
                        (set_nextID (wrap32 (nextID s + 1)) s))) s').
    { revert H2.
      match goal with |- ?m ?s0 = _ -> _ =>
        assert (Hr : respects (both TypeMap_same insts_incl) m) end.
      { repeat respects_step;
          (split; [TypeMap_same_solve|insts_incl_solve]). }
      apply Hr. }
    destruct R as [RT RI]. unfold TypeMap_same in RT. cbn in RT.
    split; [exact RT|].
    eexists. split; [apply RI; unfold insts; cbn; rewrite map_app;
                     apply elem_of_app; right; left|].
    cbn. auto.
Qed.

Lemma step_ptr_first orm E AS s orm' s' :
  (forall AS', mirror AS = Some AS' ->
               TypeMap s !! PointerTy E AS' = None) ->
  GenerateSPIRVTypes_step ArgGVMap DL orm (PointerTy E AS) s = OK (orm', s') ->
  TypeMap s' !! PointerTy E AS = Some (nextID s)
  /\ pointer_emitted (nextID s) s'.
Proof.
  intros Hn H.
  unfold GenerateSPIRVTypes_step, GenerateSPIRVTypes_switch,
    GenerateSPIRVTypes_Pointer in H.
  apply bind_OK in H as (n & s1 & H1 & H). injection H1 as <- <-.
  apply bind_OK in H as ([] & s1 & H1 & H). injection H1 as <-.
  apply bind_OK in H as (tm & s1 & H1 & H). injection H1 as <- <-.
  cbn [TypeMap set_TypeMap] in H.
  assert (Hbody : GenerateSPIRVTypes_PointerBody ArgGVMap DL orm
                    (PointerTy E AS) E
                    (match mirror AS with Some AS' => AS' | None => AS end)
                    false
                    (set_TypeMap (<[PointerTy E AS := nextID s]> (TypeMap s)) s)
                  = OK (orm', s')).
  { destruct AS; cbn [mirror]; try exact H.
    - rewrite lookup_insert_ne, (Hn _ eq_refl) in H by discriminate. exact H.
    - rewrite lookup_insert_ne, (Hn _ eq_refl) in H by discriminate. exact H. }
  apply PointerBody_first in Hbody as [HT HE]. cbn in HT, HE.
  rewrite HT, lookup_insert_eq. auto.
Qed.

Definition PtrEmitted (s : Pass) : Prop :=
  forall E AS a,
    TypeMap s !! PointerTy E AS = Some a -> pointer_emitted a s.

Lemma step_PtrEmitted orm T s orm' s' :
  GenerateSPIRVTypes_step ArgGVMap DL orm T s = OK (orm', s') ->
  PtrEmitted s -> PtrEmitted s'.
Proof.
  intros H Inv E AS a Ha.
  pose proof (step_frame _ _ _ _ _ H) as Fr.
  pose proof (step_insts_incl _ _ _ _ _ H) as Hi.
  assert (Hfr : forall k, k <> T -> (forall w, k <> IntegerTy w) ->
                          TypeMap s' !! k = TypeMap s !! k).
  { intros k Hk Hw. apply Fr. intros [?|HA]; [contradiction|].
    destruct T; simpl in HA; try contradiction.
    repeat match type of HA with
           | context [if ?c then _ else _] => destruct c
           end; eapply Hw; exact HA. }
  destruct (decide (T = PointerTy E AS)) as [->|N].
  - destruct (mirror AS) as [AS'|] eqn:Em.
    + destruct (TypeMap s !! PointerTy E AS') as [id|] eqn:El.
      * destruct (step_ptr_alias _ E AS AS' id _ _ _ Em El H) as [Hs _].
        assert (a = id) as -> by congruence.
        eapply pointer_emitted_incl; [exact Hi|]. eapply Inv. exact El.
      * assert (Hn : forall A', mirror AS = Some A' ->
                               TypeMap s !! PointerTy E A' = None)
          by (intros A' EA; congruence).
        destruct (step_ptr_first _ E AS _ _ _ Hn H) as [Hs He].
        congruence.
    + assert (Hn : forall A', mirror AS = Some A' ->
                             TypeMap s !! PointerTy E A' = None)
        by (intros A' EA; congruence).
      destruct (step_ptr_first _ E AS _ _ _ Hn H) as [Hs He].
      congruence.
  - rewrite Hfr in Ha by (congruence || discriminate).
    eapply pointer_emitted_incl; [exact Hi|]. eapply Inv. exact Ha.
Qed.

Lemma loop_PtrEmitted Types : forall orm s s',
  GenerateSPIRVTypes_loop ArgGVMap DL orm Types s = OK (tt, s') ->
  PtrEmitted s -> PtrEmitted s'.
Proof.
  induction Types as [|T Types IH]; intros orm s s' H Inv; simpl in H.
  - injection H as <-. exact Inv.
  - apply bind_OK in H as (orm1 & s1 & H1 & H2).
    eapply IH; [exact H2|]. eapply step_PtrEmitted; eassumption.
Qed.

(** *** The two loops after the type list *)

Lemma at__grows `{Countable K} (m : gmap K Z) (k k' : K) v :
  m !! k' = Some v -> (at_ m k).2 !! k' = Some v.
Proof.
  unfold at_. destruct (m !! k) eqn:E; simpl; [auto|].
  intros Hk. rewrite lookup_insert_ne; [exact Hk|]. congruence.
Qed.

Ltac TypeMap_grows_solve :=
  let k := fresh "k" in
  let v := fresh "v" in
  let Hk := fresh "Hk" in
  intros k v Hk; cbn; first [ exact Hk | apply at__grows; exact Hk ].

(** C3: when type emission runs to its end from an empty type map, an 8-bit
    and a 32-bit integer type that are both in the type list, in whatever
    order, map to one id, and exactly one [OpTypeInt 32 0] was emitted, with
    that id; a pointer to constant memory and a pointer to global memory with
    the same pointee that are both in the list map to one id, and an
    OpTypePointer (or, for a kernel argument type used through
    [getelementptr] only, the OpTypeRuntimeArray written in its place) with
    that result id is in the instruction list; and whenever the mirror
    pointer type already has an id, the step for the other one takes that
    id and emits no OpTypePointer. *)
Theorem alias_correctness Types Images LocalArgs s imgs s' :
  TypeMap s = ∅ ->
  GenerateSPIRVTypes ArgGVMap DL Types Images LocalArgs s = OK (imgs, s') ->
  (i8 ∈ Types -> i32 ∈ Types ->
   exists id Ins,
     TypeMap s' !! i8 = Some id /\ TypeMap s' !! i32 = Some id
     /\ filter is_OpTypeInt32 (insts s')
        = filter is_OpTypeInt32 (insts s) ++ [Ins]
     /\ ResultID Ins = id)
  /\ (forall E,
        PointerTy E AddressSpace.Constant ∈ Types ->
        PointerTy E AddressSpace.Global ∈ Types ->
        exists id Ins,
          TypeMap s' !! PointerTy E AddressSpace.Constant = Some id
          /\ TypeMap s' !! PointerTy E AddressSpace.Global = Some id
          /\ Ins ∈ insts s'
          /\ (Opcode Ins = OpTypePointer \/ Opcode Ins = OpTypeRuntimeArray)
          /\ ResultID Ins = id)
  /\ (forall orm E AS AS' id s1 orm' s2,
        mirror AS = Some AS' ->
        TypeMap s1 !! PointerTy E AS' = Some id ->
        GenerateSPIRVTypes_step ArgGVMap DL orm (PointerTy E AS) s1
        = OK (orm', s2) ->
        TypeMap s2 !! PointerTy E AS = Some id
        /\ filter is_OpTypePointer (insts s2)
           = filter is_OpTypePointer (insts s1)).
Proof.
  intros Hempty H. unfold GenerateSPIRVTypes in H.
  apply bind_OK in H as ([] & s1 & Hloop & Htail).
  assert (Ht : both TypeMap_grows (insts_filter is_OpTypeInt32) s1 s').
  { revert Htail.
    match goal with |- ?m s1 = _ -> _ => assert (Hr : respects (both TypeMap_grows (insts_filter is_OpTypeInt32)) m) end.
    { repeat respects_step;
        (split; [TypeMap_grows_solve|insts_filter_solve]). }
    apply Hr. }
  destruct Ht as [Hg Hf]. unfold insts_filter in Hf.
  assert (Hi : insts_incl s1 s').
  { revert Htail.
    match goal with |- ?m s1 = _ -> _ => assert (Hr : respects insts_incl m) end.
    { repeat respects_step; insts_incl_solve. }
    apply Hr. }
  assert (HE : PtrEmitted s1).
  { eapply loop_PtrEmitted; [exact Hloop|].
    intros E AS a Ha. rewrite Hempty, lookup_empty in Ha. discriminate. }
  destruct (loop_inv (filter is_OpTypeInt32 (insts s)) Types ∅ s s1 Hloop)
    as (_ & HP & HA & HM).
  { left. rewrite Hempty, !lookup_empty. auto. }
  { intros E a b Ha. rewrite Hempty, lookup_empty in Ha. discriminate. }
  split; [|split].
  - intros H8 _. destruct (HA (or_introl H8)) as (id & Ins & A8 & A32 & AF & AR).
    exists id, Ins. rewrite Hf. auto.
  - intros E HC HG.
    destruct (HM _ HC) as [a Ha]. destruct (HM _ HG) as [b Hb].
    pose proof (HP E a b Ha Hb) as ->.
    destruct (HE _ _ _ Hb) as (Ins & Hin & Hop & Hres).
    exists b, Ins. auto 6.
  - intros orm E AS AS' id s2 orm' s3. apply step_ptr_alias.
Qed.

End TypeEmissionProperties.

(** *** A run of type emission *)

Definition final_state {A} (r : result (A * Pass)) (d : Pass) : Pass :=
  match r with OK (_, s) => s | Abort _ => d end.

(** The pass object as its constructor leaves it, writing a binary. *)
Definition initial_Pass : Pass :=
  mkPass false false [] [] 0 1 ∅ ∅ ∅ [] 0 [] [] [] [] 0 0 0 0 [].

Definition DL_example : DataLayout := mkDataLayout (fun _ => 4) (fun _ _ => 0).

Definition Types_example : list Ty :=
  [i8; i32; PointerTy i32 AddressSpace.Global;
   PointerTy i32 AddressSpace.Constant].

Definition after_types_example : Pass :=
  final_state (GenerateSPIRVTypes [] DL_example Types_example [] []
                 initial_Pass) initial_Pass.

Lemma alias_correctness_witness :
  (exists id Ins,
      TypeMap after_types_example !! i8 = Some id
      /\ TypeMap after_types_example !! i32 = Some id
      /\ filter is_OpTypeInt32 (insts after_types_example)
         = filter is_OpTypeInt32 (insts initial_Pass) ++ [Ins]
      /\ ResultID Ins = id)
  /\ (exists id Ins,
         TypeMap after_types_example !! PointerTy i32 AddressSpace.Constant
         = Some id
         /\ TypeMap after_types_example !! PointerTy i32 AddressSpace.Global
            = Some id
         /\ Ins ∈ insts after_types_example
         /\ (Opcode Ins = OpTypePointer \/ Opcode Ins = OpTypeRuntimeArray)
         /\ ResultID Ins = id).
Proof.
  destruct (alias_correctness [] DL_example Types_example [] []
              initial_Pass [] after_types_example) as (W1 & W2 & _).
  - reflexivity.
  - vm_compute. reflexivity.
  - split.
    + apply W1; unfold Types_example; repeat constructor.
    + apply W2; unfold Types_example; repeat constructor.
Defined.

(** ** Vector types *)

Lemma Ty_not_own_vector E : forall n, VectorTy E n <> E.
Proof.
  induction E; intros n' C; try discriminate.
  injection C as C _. eapply IHE. exact C.
Qed.

(** A type lookup that succeeds still succeeds, with the same result, once
    an entry for a non-struct type other than the looked-up one is set. *)
Lemma lookupType_after_insert E T v id s :
  T <> E -> (forall n o es, T <> StructTy n o es) ->
  lookupType E s = OK (id, s) ->
  lookupType E (set_TypeMap (<[T := v]> (TypeMap s)) s)
  = OK (id, set_TypeMap (<[T := v]> (TypeMap s)) s).
Proof.
  intros HT HS H. unfold lookupType in *. cbn.
  match type of H with context [TypeMap s !! ?k] =>
    destruct (TypeMap s !! k) as [w|] eqn:Ek; [|discriminate];
    assert (Hne : T <> k)
  end.
  { destruct E; try exact HT.
    destruct (negb _ && isOpaqueStruct E) eqn:Eo; [|exact HT].
    apply andb_prop in Eo as [_ Eo]. destruct E; try discriminate.
    apply HS. }
  rewrite lookup_insert_ne by exact Hne. rewrite Ek.
  injection H as ->. reflexivity.
Qed.

Section VectorTypes.
Variable ArgGVMap : list (Argument * Ty).
Variable DL : DataLayout.

Lemma step_i8_vector_aborts orm n s :
  n <> 4 ->
  exists msg,
    GenerateSPIRVTypes_step ArgGVMap DL orm (VectorTy i8 n) s = Abort msg.
Proof.
  intros Hn. unfold GenerateSPIRVTypes_step, GenerateSPIRVTypes_switch.
  rewrite bool_decide_eq_true_2 by reflexivity.
  apply Z.eqb_neq in Hn. rewrite Hn. eexists. reflexivity.
Qed.

Lemma loop_i8_vector_aborts n Types : forall orm s,
  n <> 4 -> VectorTy i8 n ∈ Types ->
  exists msg, GenerateSPIRVTypes_loop ArgGVMap DL orm Types s = Abort msg.
Proof.
  induction Types as [|T Types IH]; intros orm s Hn Hin.
  - inversion Hin.
  - simpl. unfold bind.
    destruct (GenerateSPIRVTypes_step ArgGVMap DL orm T s) as [[orm' s1]|msg]
      eqn:E; [|eauto].
    apply elem_of_cons in Hin as [<-|Hin].
    + destruct (step_i8_vector_aborts orm n s Hn) as [msg Hm]. congruence.
    + apply IH; assumption.
Qed.

(** C10: in type emission only the vector of exactly 4 elements of 8-bit
    integers takes the id the 8-bit integer type has, with no instruction
    of its own; a vector of 8-bit integers with any other element count
    stops the step, and with it the whole of type emission for any type
    list that holds it, with a fatal error; a vector with another element
    type gets its own OpTypeVector, with a fresh id. *)
Theorem i8_vectors_collapse_only_at_4 (orm : gmap Ty Z) (E : Ty) (n : Z)
    (s : Pass) :
  (E = i8 -> n = 4 ->
   forall id, TypeMap s !! i8 = Some id ->
     exists s', GenerateSPIRVTypes_step ArgGVMap DL orm (VectorTy E n) s
                = OK (orm, s')
                /\ TypeMap s' !! VectorTy E n = Some id
                /\ insts s' = insts s)
  /\ (E = i8 -> n <> 4 ->
      (exists msg, GenerateSPIRVTypes_step ArgGVMap DL orm (VectorTy E n) s
                   = Abort msg)
      /\ forall Types Images LocalArgs s0,
           VectorTy E n ∈ Types ->
           exists msg, GenerateSPIRVTypes ArgGVMap DL Types Images LocalArgs s0
                       = Abort msg)
  /\ (E <> i8 ->
      forall id, lookupType E s = OK (id, s) -> nextID s <> 0 ->
        exists s' Ins,
          GenerateSPIRVTypes_step ArgGVMap DL orm (VectorTy E n) s
          = OK (orm, s')
          /\ TypeMap s' !! VectorTy E n = Some (nextID s)
          /\ insts s' = insts s ++ [Ins]
          /\ Opcode Ins = OpTypeVector /\ ResultID Ins = nextID s
          /\ Operands Ins = [MkId id; MkNum n]).
Proof.
  split; [|split].
  - intros -> -> id Hid.
    unfold GenerateSPIRVTypes_step, GenerateSPIRVTypes_switch.
    rewrite bool_decide_eq_true_2 by reflexivity. cbn.
    unfold bind, gets, TypeMap_set, modify, lookupType. cbn.
    rewrite lookup_insert_ne by discriminate. rewrite Hid.
    cbn. eexists. split; [reflexivity|]. cbn.
    rewrite lookup_insert_eq. auto.
  - intros -> Hn. split; [apply step_i8_vector_aborts; exact Hn|].
    intros Types Images LocalArgs s0 Hin. unfold GenerateSPIRVTypes.
    destruct (loop_i8_vector_aborts n Types ∅ s0 Hn Hin) as [msg Hm].
    exists msg. apply bind_Abort_l. exact Hm.
  - intros HE id Hid Hn.
    unfold GenerateSPIRVTypes_step, GenerateSPIRVTypes_switch.
    rewrite bool_decide_eq_false_2 by exact HE.
    unfold bind, gets, TypeMap_set, modify. cbn.
    assert (Hl : lookupType E
                   (set_TypeMap (<[VectorTy E n:=nextID s]> (TypeMap s)) s)
                 = OK (id, set_TypeMap (<[VectorTy E n:=nextID s]> (TypeMap s))
                             s)).
    { apply lookupType_after_insert;
        [apply Ty_not_own_vector|discriminate|exact Hid]. }
    rewrite Hl. cbn. rewrite emit_OK by exact Hn. cbn.
    do 2 eexists. split; [reflexivity|]. cbn. unfold insts. cbn.
    rewrite lookup_insert_eq, map_app. cbn. auto 10.
Qed.

End VectorTypes.

Lemma i8_vectors_collapse_only_at_4_witness :
  exists msg,
    GenerateSPIRVTypes_step [] DL_example ∅ (VectorTy i8 3) initial_Pass
    = Abort msg.
Proof.
  destruct (i8_vectors_collapse_only_at_4 [] DL_example ∅ i8 3 initial_Pass)
    as (_ & W & _).
  destruct W as [W _]; [reflexivity|lia|exact W].
Defined.

(** ** Binary operators *)

(** What [VMap[V]] evaluates to. *)
Definition VMap_read (m : gmap Value Z) (V : Value) : Z := default 0 (m !! V).

Lemma at__fst `{Countable K} (m : gmap K Z) (k : K) :
  (at_ m k).1 = default 0 (m !! k).
Proof. unfold at_. destruct (m !! k); reflexivity. Qed.

Lemma at__snd_read `{Countable K} (m : gmap K Z) (k k' : K) :
  default 0 ((at_ m k).2 !! k') = default 0 (m !! k').
Proof.
  unfold at_. destruct (m !! k) eqn:E; simpl; [reflexivity|].
  destruct (decide (k = k')) as [<-|N].
  - rewrite lookup_insert_eq, E. reflexivity.
  - rewrite lookup_insert_ne by exact N. reflexivity.
Qed.

(** The value map once [GenerateInstruction] has registered the
    instruction [V]. *)
Definition VMap_registered (V : Value) (s : Pass) : gmap Value Z :=
  let r := at_ (ValueMap s) V in
  if r.1 =? 0 then <[V := nextID s]> r.2 else r.2.

Lemma register_OK V s :
  GenerateInstruction_register V s
  = OK (tt, set_ValueMap (VMap_registered V s) s).
Proof.
  unfold GenerateInstruction_register, VMap_registered, bind, VMap_at.
  cbn. destruct ((at_ (ValueMap s) V).1 =? 0); cbn; [reflexivity|].
  reflexivity.
Qed.
 
Lemma lookupType_i1 s tyid :
  TypeMap s !! i1 = Some tyid -> lookupType i1 s = OK (tyid, s).
Proof. intros H. unfold lookupType, i1 in *. rewrite H. reflexivity. Qed.

(** C6: an [xor] of type i1 with a constant operand is lowered to
    OpLogicalNot of one operand, the second operand when the first one is a
    constant and the first one otherwise, hence a non-constant operand when
    there is one; with no constant operand it goes the general way and is
    lowered to OpLogicalNotEqual of both operands.  The special case is
    taken exactly when a constant operand is present. *)
Theorem xor_i1_lowering (I : BinaryOperator) (s : Pass) (tyid : Z) :
  BO_getOpcode I = Xor ->
  BO_getType I = i1 ->
  TypeMap s !! i1 = Some tyid ->
  nextID s <> 0 ->
  exists s' Ins,
    GenerateInstruction_BinaryOperator I s = OK (tt, s')
    /\ insts s' = insts s ++ [Ins]
    /\ ResultID Ins = nextID s
    /\ if isa_Constant (BO_Op0 I) || isa_Constant (BO_Op1 I) then
         let CondV := if isa_Constant (BO_Op0 I) then BO_Op1 I else BO_Op0 I in
         Opcode Ins = OpLogicalNot
         /\ Operands Ins
            = [MkId tyid;
               MkId (VMap_read (VMap_registered (VInstruction (BO_id I)) s)
                               CondV)]
         /\ (isa_Constant (BO_Op0 I) && isa_Constant (BO_Op1 I) = false ->
             isa_Constant CondV = false)
       else
         Opcode Ins = OpLogicalNotEqual
         /\ Operands Ins
            = [MkId tyid;
               MkId (VMap_read (VMap_registered (VInstruction (BO_id I)) s)
                               (BO_Op0 I));
               MkId (VMap_read (VMap_registered (VInstruction (BO_id I)) s)
                               (BO_Op1 I))].
Proof.
  intros Hop Hty Htm Hn.
  unfold GenerateInstruction_BinaryOperator, GetSPIRVBinaryOpcode.
  rewrite Hop, Hty.
  rewrite !bool_decide_eq_true_2 by reflexivity.
  rewrite (bind_OK_l _ _ _ _ _ (register_OK _ s)).
  set (vm := VMap_registered (VInstruction (BO_id I)) s).
  set (s1 := set_ValueMap vm s).
  assert (Hl : lookupType i1 s1 = OK (tyid, s1))
    by (apply lookupType_i1; exact Htm).
  destruct (isa_Constant (BO_Op0 I)) eqn:C0;
    [|destruct (isa_Constant (BO_Op1 I)) eqn:C1]; cbn [andb orb];
    rewrite (bind_OK_l _ _ _ _ _ Hl);
    unfold bind, VMap_at, nextID_postinc; cbn;
    rewrite emit_OK by exact Hn; cbn;
    do 2 eexists; (split; [reflexivity|]); unfold insts; cbn;
    rewrite map_app, ?at__fst; cbn.
  - (split; [reflexivity|]); cbn; repeat split; auto.
  - (split; [reflexivity|]); cbn; repeat split; auto.
  - fold (VMap_read vm (BO_Op0 I)). rewrite at__snd_read.
    (split; [reflexivity|]); cbn; repeat split; auto.
Qed.

Definition xor_example : BinaryOperator :=
  mkBinaryOperator 7 Xor i1 (VInstruction 5) (VConstant (ConstantInt 1 1)).

Definition xor_example_Pass : Pass :=
  set_TypeMap (<[i1 := 2]> ∅) (set_nextID 3 initial_Pass).

Lemma xor_i1_lowering_witness :
  exists s' Ins,
    GenerateInstruction_BinaryOperator xor_example xor_example_Pass
    = OK (tt, s')
    /\ insts s' = insts xor_example_Pass ++ [Ins]
    /\ Opcode Ins = OpLogicalNot.
Proof.
  destruct (xor_i1_lowering xor_example xor_example_Pass 2)
    as (s' & Ins & W1 & W2 & _ & W3).
  - reflexivity.
  - reflexivity.
  - vm_compute. reflexivity.
  - vm_compute. discriminate.
  - exists s', Ins. simpl in W3. destruct W3 as (W3 & _). auto.
Defined.

(** ** Constant emission and the 32-bit zero *)

Definition AllocatedValueMap_same : relation Pass :=
  fun s s' => AllocatedValueMap s' = AllocatedValueMap s.

(** Entries of the value map for keys other than [V] are kept. *)
Definition ValueMap_keeps (V : Value) : relation Pass :=
  fun s s' => forall k v, k <> V -> ValueMap s !! k = Some v ->
                          ValueMap s' !! k = Some v.

Definition zero_id_same : relation Pass :=
  fun s s' => constant_i32_zero_id_ s' = constant_i32_zero_id_ s.

Global Instance AllocatedValueMap_same_preorder : PreOrder AllocatedValueMap_same.
Proof.
  split; [intros s; reflexivity|].
  intros s1 s2 s3 H1 H2. unfold AllocatedValueMap_same in *. congruence.
Qed.

Global Instance ValueMap_keeps_preorder V : PreOrder (ValueMap_keeps V).
Proof.
  split; [intros s k v _ H; exact H|].
  intros s1 s2 s3 H1 H2 k v Hk H. auto.
Qed.

Global Instance zero_id_same_preorder : PreOrder zero_id_same.
Proof.
  split; [intros s; reflexivity|].
  intros s1 s2 s3 H1 H2. unfold zero_id_same in *. congruence.
Qed.

Definition constants_frame (V : Value) : relation Pass :=
  both AllocatedValueMap_same
    (both TypeMap_same (both (ValueMap_keeps V) insts_incl)).

Ltac constants_frame_solve :=
  cbn;
  split; [cbn; unfold AllocatedValueMap_same; cbn; reflexivity|];
  split; [cbn; unfold TypeMap_same; cbn; reflexivity|];
  split;
  [ let k := fresh "k" in
    let v := fresh "v" in
    let Hk := fresh "Hk" in
    let Hv := fresh "Hv" in
    intros k v Hk Hv; cbn;
    first [ exact Hv
          | apply at__grows; exact Hv
          | rewrite lookup_insert_ne by congruence; exact Hv ]
  | let J := fresh "Ins" in
    let HJ := fresh "HJ" in
    intros J HJ; unfold insts in *; cbn;
    first [ exact HJ | eapply one_more_incl; eassumption ] ].

Lemma packed_frame Cst tyid IntValue :
  respects (constants_frame (VConstant Cst))
           (GenerateSPIRVConstants_packed Cst tyid IntValue).
Proof.
  unfold GenerateSPIRVConstants_packed, constants_frame.
  repeat respects_step; try constants_frame_solve.
Qed.

Lemma packed_zero_id Cst tyid IntValue :
  respects zero_id_same (GenerateSPIRVConstants_packed Cst tyid IntValue).
Proof.
  unfold GenerateSPIRVConstants_packed.
  repeat respects_step; reflexivity.
Qed.

Lemma step_frame_constants hack_undef Cst :
  respects (constants_frame (VConstant Cst))
           (GenerateSPIRVConstants_step hack_undef Cst).
Proof.
  unfold GenerateSPIRVConstants_step, constants_frame. cbv zeta.
  repeat first [ apply packed_frame | respects_step ];
    try constants_frame_solve.
Qed.

Definition zero32 : Constant := ConstantInt 32 0.

Lemma step_zero_id_other hack_undef Cst :
  Cst <> zero32 ->
  respects zero_id_same (GenerateSPIRVConstants_step hack_undef Cst).
Proof.
  intros Hne. unfold GenerateSPIRVConstants_step. cbv zeta.
  destruct Cst; try solve [
    repeat first [ apply packed_zero_id | respects_step ]; reflexivity ].
  destruct ((BitWidth =? 32) && (val =? 0)) eqn:E.
  - apply andb_prop in E as [E1 E2].
    apply Z.eqb_eq in E1, E2. subst. contradiction Hne. reflexivity.
  - repeat respects_step; reflexivity.
Qed.

Lemma step_allocated hack_undef Cst s :
  is_Some (AllocatedValueMap s !! VConstant Cst) ->
  GenerateSPIRVConstants_step hack_undef Cst s = OK (tt, s).
Proof.
  intros H. unfold GenerateSPIRVConstants_step, bind, gets.
  rewrite bool_decide_eq_true_2 by exact H. reflexivity.
Qed.

Lemma step_zero32 hack_undef s s' :
  AllocatedValueMap s !! VConstant zero32 = None ->
  GenerateSPIRVConstants_step hack_undef zero32 s = OK (tt, s') ->
  exists tyid Ins,
    constant_i32_zero_id_ s' = nextID s /\ nextID s <> 0
    /\ ValueMap s' !! VConstant zero32 = Some (nextID s)
    /\ insts s' = insts s ++ [Ins]
    /\ Opcode Ins = OpConstant /\ ResultID Ins = nextID s
    /\ Operands Ins = [MkId tyid; MkInteger [0]].
Proof.
  intros Ha H. unfold GenerateSPIRVConstants_step in H. cbv zeta in H.
  apply bind_OK in H as (avm & s1 & H1 & H). minv H1.
  rewrite bool_decide_eq_false_2 in H
    by (rewrite Ha; intros [? ?]; discriminate).
  unfold zero32 in H. cbn in H. minv H. 
  with_run ltac:(fun R => apply lookupType_inv in R as [-> (T' & HT' & _)]).
  cbn in *. do 2 eexists. unfold insts. cbn. rewrite map_app. cbn.
  rewrite lookup_insert_eq. repeat split. assumption.
Qed.

Lemma loop_frame_constants hack_undef CstList :
  respects (both AllocatedValueMap_same insts_incl)
           (GenerateSPIRVConstants hack_undef CstList).
Proof.
  unfold GenerateSPIRVConstants. apply respects_forM_. intros Cst _.
  intros s a s' H. apply step_frame_constants in H as (A & _ & _ & B).
  split; assumption.
Qed.

(** The constants of the list that constant emission itself emits: those
    that type emission has not already produced. *)
Definition emits_zero32 (CstList : list Constant) (s : Pass) : Prop :=
  zero32 ∈ CstList /\ AllocatedValueMap s !! VConstant zero32 = None.

Lemma loop_zero32_absent hack_undef CstList : forall s s',
  GenerateSPIRVConstants hack_undef CstList s = OK (tt, s') ->
  ~ emits_zero32 CstList s ->
  constant_i32_zero_id_ s' = constant_i32_zero_id_ s.
Proof.
  unfold GenerateSPIRVConstants, emits_zero32.
  induction CstList as [|Cst L IH]; intros s s' H Hne; simpl in H.
  - minv H. reflexivity.
  - apply bind_OK in H as ([] & s1 & H1 & H2).
    pose proof (step_frame_constants _ _ _ _ _ H1) as (A & _).
    unfold AllocatedValueMap_same in A.
    rewrite (IH _ _ H2).
    + destruct (decide (Cst = zero32)) as [->|N].
      * destruct (AllocatedValueMap s !! VConstant zero32) as [v|] eqn:E.
        -- rewrite step_allocated in H1 by (rewrite E; eauto).
           injection H1 as <-. reflexivity.
        -- contradiction Hne. split; [left|reflexivity].
      * eapply step_zero_id_other; eassumption.
    + rewrite A. intros [B1 B2]. apply Hne. split; [right; exact B1|exact B2].
Qed.

Lemma loop_keeps_zero32 hack_undef CstList : forall s s' id,
  GenerateSPIRVConstants hack_undef CstList s = OK (tt, s') ->
  zero32 ∉ CstList ->
  ValueMap s !! VConstant zero32 = Some id ->
  ValueMap s' !! VConstant zero32 = Some id.
Proof.
  unfold GenerateSPIRVConstants.
  induction CstList as [|Cst L IH]; intros s s' id H Hni Hv; simpl in H.
  - minv H. exact Hv.
  - apply bind_OK in H as ([] & s1 & H1 & H2).
    apply not_elem_of_cons in Hni as [N Hni].
    pose proof (step_frame_constants _ _ _ _ _ H1) as (_ & _ & K & _).
    eapply IH; [exact H2|exact Hni|]. apply K; [congruence|exact Hv].
Qed.

(** C9: after constant emission has run to its end, on a pass whose
    32-bit zero id was reset, a request for the 32-bit zero id is a fatal
    error when constant emission has emitted no 32-bit integer constant 0
    (none in the list, or the one in the list was already produced by type
    emission); when it has emitted one, the request returns the id of that
    OpConstant, which is not 0, and does not stop. *)
Theorem GetI32Zero_after_constant_emission (hack_undef : bool)
    (CstList : list Constant) (s s' : Pass) :
  constant_i32_zero_id_ s = 0 ->
  NoDup CstList ->
  GenerateSPIRVConstants hack_undef CstList s = OK (tt, s') ->
  (~ emits_zero32 CstList s -> exists msg, GetI32Zero s' = Abort msg)
  /\ (emits_zero32 CstList s ->
      exists id tyid Ins,
        GetI32Zero s' = OK (id, s') /\ id <> 0
        /\ ValueMap s' !! VConstant zero32 = Some id
        /\ Ins ∈ insts s'
        /\ Opcode Ins = OpConstant /\ ResultID Ins = id
        /\ Operands Ins = [MkId tyid; MkInteger [0]]).
Proof.
  intros Hz Hnd H. split.
  - intros Hne. pose proof (loop_zero32_absent _ _ _ _ H Hne) as E.
    unfold GetI32Zero, bind, gets. rewrite E, Hz. eexists. reflexivity.
  - intros [Hin Ha]. clear Hz. revert s s' Hnd H Hin Ha.
    unfold GenerateSPIRVConstants.
    induction CstList as [|Cst L IH]; intros s s' Hnd H Hin Ha;
      [inversion Hin|].
    simpl in H. apply bind_OK in H as ([] & s1 & H1 & H2).
    apply NoDup_cons in Hnd as [Hni Hnd].
    pose proof (step_frame_constants _ _ _ _ _ H1) as (A & _).
    unfold AllocatedValueMap_same in A.
    destruct (decide (Cst = zero32)) as [->|N].
    + destruct (step_zero32 _ _ _ Ha H1)
        as (tyid & Ins & Z1 & Z2 & Z3 & Z4 & Z5 & Z6 & Z7).
      exists (nextID s), tyid, Ins.
      assert (Hne : ~ emits_zero32 L s1) by (intros [B _]; contradiction).
      pose proof (loop_zero32_absent hack_undef L _ _ H2 Hne) as E.
      pose proof (loop_keeps_zero32 hack_undef L _ _ _ H2 Hni Z3) as K.
      pose proof (loop_frame_constants hack_undef L _ _ _ H2) as [_ Inc].
      unfold GetI32Zero, bind, gets. rewrite E, Z1.
      destruct (Z.eqb_spec (nextID s) 0) as [?|_]; [contradiction|].
      repeat split; try assumption.
      apply Inc. rewrite Z4. apply elem_of_app. right. left.
    + apply elem_of_cons in Hin as [Hin|Hin]; [congruence|].
      eapply IH; try eassumption. rewrite A. exact Ha.
Qed.

Lemma GetI32Zero_after_constant_emission_witness :
  (exists id, GetI32Zero
                (final_state
                   (GenerateSPIRVConstants false [ConstantInt 32 0]
                      (set_TypeMap (<[i32 := 1]> ∅)
                         (set_nextID 2 initial_Pass))) initial_Pass)
              = OK (id, final_state
                          (GenerateSPIRVConstants false [ConstantInt 32 0]
                             (set_TypeMap (<[i32 := 1]> ∅)
                                (set_nextID 2 initial_Pass))) initial_Pass)
              /\ id <> 0).
Proof.
  destruct (GetI32Zero_after_constant_emission false [ConstantInt 32 0]
              (set_TypeMap (<[i32 := 1]> ∅) (set_nextID 2 initial_Pass))
              (final_state
                 (GenerateSPIRVConstants false [ConstantInt 32 0]
                    (set_TypeMap (<[i32 := 1]> ∅)
                       (set_nextID 2 initial_Pass))) initial_Pass))
    as [_ W].
  - reflexivity.
  - apply NoDup_singleton.
  - vm_compute. reflexivity.
  - destruct W as (id & _ & _ & W1 & W2 & _).
    + split; [left|reflexivity].
    + exists id. auto.
Defined.

(** *** Packed <4 x i8> constants *)

Lemma land_shifted_byte k b : 0 <= b < 256 -> Z.land (256 * k) b = 0.
Proof.
  intros Hb. apply Z.bits_inj'. intros i Hi.
  rewrite Z.land_spec, Z.bits_0.
  destruct (Z_lt_ge_dec i 8) as [L|G].
  - replace (256 * k) with (k * 2 ^ 8) by lia.
    rewrite Z.mul_pow2_bits_low by lia. reflexivity.
  - rewrite (Z.bits_above_log2 b i); [apply andb_false_r|lia|].
    destruct (Z.eq_dec b 0) as [->|N]; [simpl; lia|].
    assert (Z.log2 b < 8) by (apply Z.log2_lt_pow2; lia). lia.
Qed.

Lemma pack_step_arith IntValue Val :
  0 <= IntValue ->
  pack_step IntValue Val = 256 * (IntValue mod 2 ^ 24) + Val mod 256.
Proof.
  intros HI. unfold pack_step, wrap32.
  change 255 with (Z.ones 8). rewrite Z.land_ones by lia.
  rewrite Z.shiftl_mul_pow2 by lia.
  replace (IntValue * 2 ^ 8) with (256 * IntValue) by lia.
  change (2 ^ 32) with (256 * 2 ^ 24).
  rewrite Z.mul_mod_distr_l by lia.
  pose proof (Z.mod_pos_bound Val 256 ltac:(lia)) as Hb.
  pose proof (Z.mod_pos_bound IntValue (2 ^ 24) ltac:(lia)) as Hk.
  change (2 ^ 8) with 256.
  rewrite <- Z.add_nocarry_lor by (apply land_shifted_byte; exact Hb).
  apply Z.mod_small. lia.
Qed.

(** The byte an element contributes: its low 8 bits. *)
Definition byte_of (v : Z) : Z := v mod 256.

(** First element in the most significant byte. *)
Definition big_endian_pack (b0 b1 b2 b3 : Z) : Z :=
  b0 * 2 ^ 24 + b1 * 2 ^ 16 + b2 * 2 ^ 8 + b3.

Lemma pack_CDS_big_endian e0 e1 e2 e3 :
  pack_CDS [e0; e1; e2; e3]
  = big_endian_pack (byte_of e0) (byte_of e1) (byte_of e2) (byte_of e3).
Proof.
  unfold pack_CDS, big_endian_pack, byte_of. simpl.
  pose proof (Z.mod_pos_bound e0 256 ltac:(lia)) as B0.
  pose proof (Z.mod_pos_bound e1 256 ltac:(lia)) as B1.
  pose proof (Z.mod_pos_bound e2 256 ltac:(lia)) as B2.
  pose proof (Z.mod_pos_bound e3 256 ltac:(lia)) as B3.
  change (2 ^ 24) with 16777216. change (2 ^ 16) with 65536.
  change (2 ^ 8) with 256.
  assert (P1 : pack_step 0 e0 = e0 mod 256).
  { rewrite pack_step_arith by lia. change (0 mod 2 ^ 24) with 0. lia. }
  rewrite P1.
  assert (P2 : pack_step (e0 mod 256) e1 = 256 * (e0 mod 256) + e1 mod 256).
  { rewrite pack_step_arith by lia. change (2 ^ 24) with 16777216.
    rewrite (Z.mod_small (e0 mod 256)) by lia. reflexivity. }
  rewrite P2.
  assert (P3 : pack_step (256 * (e0 mod 256) + e1 mod 256) e2
               = 256 * (256 * (e0 mod 256) + e1 mod 256) + e2 mod 256).
  { rewrite pack_step_arith by lia. change (2 ^ 24) with 16777216.
    rewrite (Z.mod_small (256 * (e0 mod 256) + e1 mod 256)) by lia.
    reflexivity. }
  rewrite P3. rewrite pack_step_arith by lia. change (2 ^ 24) with 16777216.
  rewrite (Z.mod_small (256 * _ + e2 mod 256)) by lia. lia.
Qed.

(** The value an operand of an aggregate contributes: an operand that is no
    ConstantInt (an undef element) counts as 0. *)
Definition element_value (c : Constant) : Z :=
  match c with ConstantInt _ v => v | _ => 0 end.

Lemma pack_CA_CDS ops : length ops = 4%nat ->
  pack_CA ops = pack_CDS (map element_value ops).
Proof.
  intros H. destruct ops as [|c0 [|c1 [|c2 [|c3 [|]]]]]; try discriminate.
  reflexivity.
Qed.

(** The packed 32-bit value of a <4 x i8> constant. *)
Definition packed_value (Cst : Constant) : Z :=
  match Cst with
  | ConstantDataSequential _ elts => pack_CDS elts
  | ConstantAggregate _ ops => pack_CA ops
  | _ => 0
  end.

Definition is_data_or_aggregate (Cst : Constant) : bool :=
  match Cst with
  | ConstantDataSequential _ _ | ConstantAggregate _ _ => true
  | _ => false
  end.

(** C1 (as the code has it): for every <4 x i8> vector constant that is a
    constant-data vector or a constant aggregate and that type emission has
    not already produced, the packed 32-bit value has the first element in
    the most significant byte, an element that is no integer constant (an
    undef) counting as 0; if the value map has an entry for the 32-bit
    integer constant of that packed value, the vector constant takes that
    entry's id and nothing is emitted; otherwise exactly one OpConstant of
    the unified 32-bit type with the packed value is emitted, under a fresh
    id. *)
Theorem packed_4xi8_constant (hack_undef : bool) (Cst : Constant)
    (s : Pass) (tyid : Z) :
  Constant_getType Cst = VectorTy i8 4 ->
  is_data_or_aggregate Cst = true ->
  AllocatedValueMap s !! VConstant Cst = None ->
  TypeMap s !! VectorTy i8 4 = Some tyid ->
  nextID s <> 0 ->
  (forall e0 e1 e2 e3,
      pack_CDS [e0; e1; e2; e3]
      = big_endian_pack (byte_of e0) (byte_of e1) (byte_of e2) (byte_of e3))
  /\ (forall c0 c1 c2 c3,
         pack_CA [c0; c1; c2; c3]
         = big_endian_pack (byte_of (element_value c0))
             (byte_of (element_value c1)) (byte_of (element_value c2))
             (byte_of (element_value c3)))
  /\ exists s',
       GenerateSPIRVConstants_step hack_undef Cst s = OK (tt, s')
       /\ match ValueMap s !! VConstant (ConstantInt 32 (packed_value Cst)) with
          | Some id =>
              insts s' = insts s /\ nextID s' = nextID s
              /\ ValueMap s' !! VConstant Cst = Some id
          | None =>
              exists Ins,
                insts s' = insts s ++ [Ins]
                /\ Opcode Ins = OpConstant /\ ResultID Ins = nextID s
                /\ Operands Ins = [MkId tyid; MkNum (packed_value Cst)]
                /\ ValueMap s' !! VConstant Cst = Some (nextID s)
          end.
Proof.
  intros Hty Hk Ha Htm Hn.
  split; [exact pack_CDS_big_endian|].
  split; [intros; rewrite pack_CA_CDS by reflexivity; apply pack_CDS_big_endian|].
  unfold GenerateSPIRVConstants_step. cbv zeta.
  unfold bind at 1. unfold gets at 1.
  rewrite bool_decide_eq_false_2 by (rewrite Ha; intros [? ?]; discriminate).
  unfold bind at 1. unfold gets at 1.
  unfold bind at 1. unfold VMap_set at 1, modify.
  set (s1 := set_ValueMap _ s).
  assert (Hl : lookupType (Constant_getType Cst) s1 = OK (tyid, s1)).
  { rewrite Hty. unfold lookupType. cbn. rewrite Htm. reflexivity. }
  rewrite (bind_OK_l _ _ _ _ _ Hl).
  assert (Hp : GenerateSPIRVConstants_packed Cst tyid (packed_value Cst) s1
               = match ValueMap s !! VConstant (ConstantInt 32 (packed_value Cst)) with
                 | Some id => OK (tt, set_ValueMap (<[VConstant Cst := id]> (ValueMap s1)) s1)
                 | None => emit OpConstant (nextID s) [MkId tyid; MkNum (packed_value Cst)] (set_nextID (wrap32 (nextID s + 1)) s1)
                 end).
  { unfold GenerateSPIRVConstants_packed, bind, gets, count. cbn.
    rewrite lookup_insert_ne by (destruct Cst; discriminate).
    destruct (ValueMap s !! VConstant (ConstantInt 32 (packed_value Cst))) as [id|] eqn:E.
    - cbn. unfold VMap_at, VMap_set, modify, at_. cbn. 
      rewrite lookup_insert_ne by (destruct Cst; discriminate). rewrite E. cbn. reflexivity.
    - cbn. reflexivity. }
  assert (Hfin : exists s',
    GenerateSPIRVConstants_packed Cst tyid (packed_value Cst) s1 = OK (tt, s')
    /\ match ValueMap s !! VConstant (ConstantInt 32 (packed_value Cst)) with
       | Some id =>
           insts s' = insts s /\ nextID s' = nextID s
           /\ ValueMap s' !! VConstant Cst = Some id
       | None =>
           exists Ins,
             insts s' = insts s ++ [Ins]
             /\ Opcode Ins = OpConstant /\ ResultID Ins = nextID s
             /\ Operands Ins = [MkId tyid; MkNum (packed_value Cst)]
             /\ ValueMap s' !! VConstant Cst = Some (nextID s)
       end).
  { rewrite Hp.
    destruct (ValueMap s !! VConstant (ConstantInt 32 (packed_value Cst)))
      as [id|].
    - eexists. split; [reflexivity|]. cbn. rewrite lookup_insert_eq. auto.
    - rewrite emit_OK by exact Hn. eexists. split; [reflexivity|].
      eexists. unfold insts. cbn. rewrite map_app. cbn.
      split; [reflexivity|]. cbn. rewrite lookup_insert_eq. auto. }
  destruct Cst; try discriminate; simpl in Hty; subst ty; exact Hfin.
Qed.

Definition constants_example_Pass : Pass :=
  set_SPIRVInsts [mkNode 0 (mkSPIRVInstruction 4 OpTypeInt 1 [MkNum 32; MkNum 0])]
    (set_nextNode 1
       (set_TypeMap (<[VectorTy i8 4 := 1]> (<[i32 := 1]> (<[i8 := 1]> ∅)))
          (set_nextID 2 initial_Pass))).

Lemma packed_4xi8_constant_witness :
  exists s' Ins,
    GenerateSPIRVConstants_step false
      (ConstantDataSequential (VectorTy i8 4) [1; 2; 3; 4])
      constants_example_Pass = OK (tt, s')
    /\ insts s' = insts constants_example_Pass ++ [Ins]
    /\ Opcode Ins = OpConstant
    /\ Operands Ins = [MkId 1; MkNum 0x01020304].
Proof.
  destruct (packed_4xi8_constant false
              (ConstantDataSequential (VectorTy i8 4) [1; 2; 3; 4])
              constants_example_Pass 1) as (_ & _ & s' & W1 & W2).
  - reflexivity.
  - reflexivity.
  - reflexivity.
  - vm_compute. reflexivity.
  - vm_compute. discriminate.
  - vm_compute in W2. destruct W2 as (Ins & W2 & W3 & _ & W4 & _).
    exists s', Ins. auto.
Defined.

(** The constant list of a module that uses the vector [<1, 0, 0, 0>], the
    vector [<1, undef, 0, 0>] and an undefined <4 x i8>, elements before
    the vector they belong to. *)
Definition constants_example : list Constant :=
  [ConstantInt 8 1; ConstantInt 8 0;
   ConstantDataSequential (VectorTy i8 4) [1; 0; 0; 0];
   UndefValue i8;
   ConstantAggregate (VectorTy i8 4)
     [ConstantInt 8 1; UndefValue i8; ConstantInt 8 0; ConstantInt 8 0];
   UndefValue (VectorTy i8 4)].

(** What is seen of an instruction: opcode, result id, operands. *)
Definition shape (Ins : SPIRVInstruction) : Op * Z * list SPIRVOperand :=
  (Opcode Ins, ResultID Ins, Operands Ins).

(** C1 fails as stated: [<1, 0, 0, 0>] and [<1, undef, 0, 0>] pack to the
    same value 0x01000000, and each gets an OpConstant of its own (ids 4 and
    6), since the first one was entered in the value map under the vector
    and not under the 32-bit integer; and the undefined <4 x i8> gets an
    OpUndef, no OpConstant. *)
Lemma packed_constant_emitted_twice :
  exists s',
    GenerateSPIRVConstants false constants_example constants_example_Pass
    = OK (tt, s')
    /\ map shape (insts s')
       = [(OpTypeInt, 1, [MkNum 32; MkNum 0]);
          (OpConstant, 2, [MkId 1; MkInteger [1]]);
          (OpConstant, 3, [MkId 1; MkInteger [0]]);
          (OpConstant, 4, [MkId 1; MkNum 0x01000000]);
          (OpUndef, 5, [MkId 1]);
          (OpConstant, 6, [MkId 1; MkNum 0x01000000]);
          (OpUndef, 7, [MkId 1])]
    /\ packed_value (ConstantDataSequential (VectorTy i8 4) [1; 0; 0; 0])
       = packed_value
           (ConstantAggregate (VectorTy i8 4)
              [ConstantInt 8 1; UndefValue i8; ConstantInt 8 0;
               ConstantInt 8 0]).
Proof.
  eexists. split; [vm_compute; reflexivity|].
  split; vm_compute; reflexivity.
Qed.

(** ** The header and its patch *)

Lemma byte_roundtrip b :
  0 <= b < 256 -> Z.of_N (N_of_ascii (ascii_of_N (Z.to_N b))) = b.
Proof.
  intros Hb. rewrite N_ascii_embedding by lia. lia.
Qed.

Lemma land_255_range z : 0 <= Z.land z 255 < 256.
Proof.
  change 255 with (Z.ones 8). rewrite Z.land_ones by lia.
  apply Z.mod_pos_bound. lia.
Qed.

Lemma byte_bit n k i :
  0 <= k -> 0 <= i ->
  Z.testbit (Z.shiftl (Z.land (Z.shiftr n k) (Z.ones 8)) k) i
  = Z.testbit n i && ((k <=? i) && (i <? k + 8)).
Proof.
  intros Hk Hi. destruct (Z.leb_spec k i) as [L|L].
  - rewrite Z.shiftl_spec, Z.land_spec, Z.shiftr_spec by lia.
    replace (i - k + k) with i by lia. f_equal.
    destruct (Z.ltb_spec i (k + 8)) as [L'|L'].
    + apply Z.ones_spec_low. lia.
    + apply Z.ones_spec_high. lia.
  - rewrite Z.shiftl_spec_low by lia. rewrite andb_false_r. reflexivity.
Qed.

Lemma u32_recompose n :
  0 <= n < 2 ^ 32 ->
  Z.lor (Z.land (Z.shiftr n 0) 255)
    (Z.lor (Z.shiftl (Z.land (Z.shiftr n 8) 255) 8)
       (Z.lor (Z.shiftl (Z.land (Z.shiftr n 16) 255) 16)
              (Z.shiftl (Z.land (Z.shiftr n 24) 255) 24))) = n.
Proof.
  intros Hn. apply Z.bits_inj'. intros i Hi.
  change 255 with (Z.ones 8).
  rewrite <- (Z.shiftl_0_r (Z.land (Z.shiftr n 0) (Z.ones 8))).
  rewrite !Z.lor_spec, !byte_bit by lia.
  destruct (Z_lt_ge_dec i 32) as [L32|G32].
  - destruct (Z.testbit n i); [|reflexivity]. simpl.
    destruct (Z.leb_spec 0 i), (Z.ltb_spec i (0 + 8)), (Z.leb_spec 8 i),
      (Z.ltb_spec i (8 + 8)), (Z.leb_spec 16 i), (Z.ltb_spec i (16 + 8)),
      (Z.leb_spec 24 i), (Z.ltb_spec i (24 + 8)); simpl; try reflexivity; lia.
  - assert (Z.testbit n i = false) as ->; [|reflexivity].
    destruct (Z.eq_dec n 0) as [->|N]; [apply Z.bits_0|].
    apply Z.bits_above_log2; [lia|].
    assert (Z.log2 n < 32) by (apply Z.log2_lt_pow2; lia). lia.
Qed.

Lemma read_u32_bytes pre n post :
  0 <= n < 2 ^ 32 ->
  read_u32 (pre ++ u32_bytes n ++ post) (Z.of_nat (length pre)) = n.
Proof.
  intros Hn. unfold read_u32. rewrite Nat2Z.id.
  rewrite drop_app_length. unfold u32_bytes. cbn [map app nth].
  rewrite !byte_roundtrip by apply land_255_range.
  apply u32_recompose. exact Hn.
Qed.

Lemma pwrite_inside pre old post new :
  (length new <= length old)%nat ->
  pwrite (pre ++ old ++ post) new (Z.of_nat (length pre))
  = pre ++ new ++ drop (length new) old ++ post.
Proof.
  intros Hl. unfold pwrite. rewrite Nat2Z.id.
  rewrite take_app_length. f_equal. f_equal.
  rewrite drop_app_add'  by reflexivity.
  rewrite drop_app_le by exact Hl. reflexivity.
Qed.

(** *** Decimal text *)

Lemma is_digit_digit_char d : 0 <= d <= 9 -> is_digit (digit_char d) = true.
Proof.
  intros Hd. unfold is_digit, digit_char.
  rewrite N_ascii_embedding by lia. rewrite Z2N.id by lia.
  apply andb_true_intro. split; apply Z.leb_le; lia.
Qed.

Lemma digit_char_value d :
  0 <= d <= 9 -> Z.of_N (N_of_ascii (digit_char d)) - 48 = d.
Proof.
  intros Hd. unfold digit_char. rewrite N_ascii_embedding by lia. lia.
Qed.

(** What [digits_loop] puts in front of the accumulator reads back as the
    number, and has as many digits as the number needs. *)
Lemma digits_loop_spec fuel : forall n acc,
  (1 <= fuel)%nat -> 0 <= n < 10 ^ Z.of_nat fuel ->
  exists ds,
    digits_loop fuel n acc = ds ++ acc
    /\ (forall rest a, parse_digits (ds ++ rest) a
                       = parse_digits rest (a * 10 ^ Z.of_nat (length ds) + n))
    /\ (1 <= length ds)%nat
    /\ (length ds = 1%nat \/ 10 ^ (Z.of_nat (length ds) - 1) <= n).
Proof.
  induction fuel as [|f IH]; intros n acc Hf Hn; [lia|].
  assert (Hd : 0 <= n mod 10 <= 9)
    by (pose proof (Z.mod_pos_bound n 10 ltac:(lia)); lia).
  simpl digits_loop. destruct (Z.eqb_spec (n / 10) 0) as [E|E].
  - exists [digit_char (n mod 10)]. split; [reflexivity|].
    assert (n mod 10 = n).
    { pose proof (Z.div_mod n 10 ltac:(lia)). lia. }
    split; [|split; [simpl; lia|left; reflexivity]].
    intros rest a. simpl. rewrite is_digit_digit_char by exact Hd.
    rewrite digit_char_value by exact Hd. f_equal. lia.
  - assert (Hq : 0 < n / 10).
    { pose proof (Z.div_pos n 10 ltac:(lia) ltac:(lia)). lia. }
    assert (Hf' : (1 <= f)%nat).
    { destruct f; [|lia]. simpl in Hn.
      assert (n / 10 = 0) by (apply Z.div_small; lia). lia. }
    destruct (IH (n / 10) (digit_char (n mod 10) :: acc) Hf')
      as (ds & E1 & E2 & E3 & E4).
    { split; [lia|]. apply Z.div_lt_upper_bound; [lia|].
      replace (10 * 10 ^ Z.of_nat f) with (10 ^ Z.of_nat (S f)); [lia|].
      rewrite Nat2Z.inj_succ, Z.pow_succ_r by lia. reflexivity. }
    exists (ds ++ [digit_char (n mod 10)]).
    split; [rewrite E1, <- app_assoc; reflexivity|].
    split; [|split].
    + intros rest a. rewrite <- app_assoc. rewrite E2. simpl.
      rewrite is_digit_digit_char by exact Hd.
      rewrite digit_char_value by exact Hd. f_equal.
      rewrite length_app. simpl length.
      replace (Z.of_nat (length ds + 1)) with (Z.succ (Z.of_nat (length ds)))
        by lia.
      rewrite Z.pow_succ_r by lia.
      pose proof (Z.div_mod n 10 ltac:(lia)). lia.
    + rewrite length_app. simpl. lia.
    + right. rewrite length_app. simpl length.
      replace (Z.of_nat (length ds + 1) - 1) with (Z.of_nat (length ds)) by lia.
      pose proof (Z.div_mod n 10 ltac:(lia)).
      destruct E4 as [E4|E4].
      * rewrite E4. simpl. lia.
      * replace (Z.of_nat (length ds)) with (Z.succ (Z.of_nat (length ds) - 1))
          by lia.
        rewrite Z.pow_succ_r by lia. lia.
Qed.

Lemma to_string_spec n :
  0 <= n < 2 ^ 32 ->
  (length (to_string n) <= 10)%nat
  /\ forall c rest,
       is_digit c = false ->
       parse_digits (to_string n ++ c :: rest) 0 = n.
Proof.
  intros Hn. unfold to_string.
  destruct (digits_loop_spec 20 n [] ltac:(lia)) as (ds & E1 & E2 & E3 & E4).
  { split; [lia|]. change (Z.of_nat 20) with 20.
    assert (2 ^ 32 < 10 ^ 20) by (vm_compute; reflexivity). lia. }
  rewrite E1, app_nil_r. split.
  - destruct E4 as [E4|E4]; [lia|].
    destruct (le_lt_dec (length ds) 10) as [L|L]; [exact L|exfalso].
    assert (10 ^ 10 <= 10 ^ (Z.of_nat (length ds) - 1))
      by (apply Z.pow_le_mono_r; lia).
    assert (2 ^ 32 < 10 ^ 10) by (vm_compute; reflexivity). lia.
  - intros c rest Hc. rewrite E2. simpl. rewrite Hc. lia.
Qed.

(** *** The patch *)

(** What holds of the pass object at [patchHeader] relative to the one
    [outputHeader] left: everything written in between went to the end of
    the streams, the recorded offset and the output modes are untouched, and
    [nextID] is a 32-bit value. *)
Definition after_header (s1 s2 : Pass) : Prop :=
  outputAsm s2 = outputAsm s1
  /\ outputCInitList s2 = outputCInitList s1
  /\ patchBoundOffset s2 = patchBoundOffset s1
  /\ (exists body, out s2 = out s1 ++ body)
  /\ (exists body, binaryTempOut s2 = binaryTempOut s1 ++ body)
  /\ 0 <= nextID s2 < 2 ^ 32.

Lemma binaryOut_set_binaryOut os s : binaryOut (set_binaryOut os s) = os.
Proof. unfold binaryOut, set_binaryOut. destruct (outputCInitList s) eqn:E; cbn; rewrite E; reflexivity. Qed.

Definition header_text_to_bound : list ascii :=
  text "; SPIR-V" ++ nl ++ text "; Version: 1.0" ++ nl
  ++ text "; Generator: Codeplay; 0" ++ nl ++ text "; Bound: ".

Definition header_text_after_bound : list ascii :=
  nl ++ text "; Schema: 0" ++ nl.

Lemma outputHeader_asm s :
  outputAsm s = true ->
  out (outputHeader s)
  = (out s ++ header_text_to_bound) ++ replicate 10 " "%char
    ++ header_text_after_bound
  /\ patchBoundOffset (outputHeader s)
     = Z.of_nat (length (out s ++ header_text_to_bound))
  /\ outputAsm (outputHeader s) = true.
Proof.
  intros Ha. unfold outputHeader. rewrite Ha. cbn -[to_string text nl bound_spaces].
  unfold write, tell.
  change (bound_spaces 32 (2 ^ 32 - 1)) with (replicate 10 " "%char).
  change (to_string (Z.land (Z.shiftr Version 16) 255)) with (text "1").
  change (to_string (Z.land (Z.shiftr Version 8) 255)) with (text "0").
  unfold header_text_to_bound, header_text_after_bound.
  rewrite <- !app_assoc. repeat split; try assumption.
Qed.

Lemma outputHeader_binary s :
  outputAsm s = false ->
  binaryOut (outputHeader s)
  = (binaryOut s ++ u32_bytes MagicNumber ++ u32_bytes Version
     ++ u32_bytes (Z.shiftl 3 16))
    ++ u32_bytes (nextID s) ++ u32_bytes 0
  /\ patchBoundOffset (outputHeader s) = tell (binaryOut s) + 12
  /\ patchBoundOffset (outputHeader s)
     = Z.of_nat (length (binaryOut s ++ u32_bytes MagicNumber
                         ++ u32_bytes Version ++ u32_bytes (Z.shiftl 3 16)))
  /\ outputAsm (outputHeader s) = false
  /\ outputCInitList (outputHeader s) = outputCInitList s.
Proof.
  intros Ha. unfold outputHeader. rewrite Ha.
  rewrite binaryOut_set_binaryOut. unfold write, tell.
  assert (E : forall o v s0, patchBoundOffset (set_binaryOut o (set_patchBoundOffset v s0)) = v).
  { intros. unfold set_binaryOut. cbn. destruct (outputCInitList s0); reflexivity. }
  rewrite !E. rewrite <- !app_assoc. 
  split; [reflexivity|]. split; [|split; [reflexivity|]].
  - rewrite !length_app. cbn [length u32_bytes map]. lia.
  - unfold set_binaryOut. cbn. destruct (outputCInitList s) eqn:Ec; cbn; auto.
Qed.

(** C2: header patch.  Whatever the translation appended to the streams
    after [outputHeader] and whatever value below 2^32 the id allocator
    [nextID] has reached, after [patchHeader] the bound field read back at
    the offset [outputHeader] recorded is that final [nextID].  In binary
    output the field is the four little-endian bytes at byte offset 12 from
    where the header starts (the fourth header word); in assembly output it
    is the run of ten reserved characters that follows the text
    [; Bound: ], which holds the decimal digits of [nextID] and then
    spaces. *)
Theorem header_patch (s s2 : Pass) :
  after_header (outputHeader s) s2 ->
  if outputAsm s then
    read_decimal (out (patchHeader s2)) (patchBoundOffset (outputHeader s))
    = nextID s2
    /\ take 10 (drop (Z.to_nat (patchBoundOffset (outputHeader s)))
                     (out (patchHeader s2)))
       = to_string (nextID s2)
         ++ replicate (10 - length (to_string (nextID s2))) " "%char
    /\ take (length header_text_to_bound)
            (drop (length (out s)) (out (patchHeader s2)))
       = header_text_to_bound
    /\ patchBoundOffset (outputHeader s)
       = tell (out s) + Z.of_nat (length header_text_to_bound)
  else
    read_u32 (binaryOut (patchHeader s2)) (patchBoundOffset (outputHeader s))
    = nextID s2
    /\ patchBoundOffset (outputHeader s) = tell (binaryOut s) + 12.
Proof.
  intros (Ha & Hc & Hp & [body Ho] & [tbody Ht] & Hn).
  destruct (outputAsm s) eqn:Easm.
  - destruct (outputHeader_asm s Easm) as (E1 & E2 & E3).
    destruct (to_string_spec (nextID s2) Hn) as [Hlen Hparse].
    assert (Hout : out (patchHeader s2)
                   = (out s ++ header_text_to_bound)
                     ++ to_string (nextID s2)
                     ++ replicate (10 - length (to_string (nextID s2))) " "%char
                     ++ header_text_after_bound ++ body).
    { unfold patchHeader. rewrite Ha, E3. unfold set_out; cbn [out]. rewrite Ho, E1, Hp, E2.
      set (A := out s ++ header_text_to_bound).
      rewrite <- !app_assoc.
      rewrite pwrite_inside by (rewrite length_replicate; exact Hlen).
      rewrite drop_replicate. reflexivity. }
    rewrite Hout, E2. repeat split.
    + unfold read_decimal. rewrite Nat2Z.id, drop_app_length.
      destruct (10 - length (to_string (nextID s2)))%nat; cbn [replicate app];
        apply Hparse; reflexivity.
    + rewrite Nat2Z.id, drop_app_length.
      rewrite app_assoc, take_app_length'; [reflexivity|].
      rewrite length_app, length_replicate. lia.
    + rewrite <- app_assoc, drop_app_length, take_app_length. reflexivity.
    + unfold tell. rewrite length_app. lia.
  - destruct (outputHeader_binary s Easm) as (E1 & E2 & E3 & E4 & E5).
    split; [|exact E2].
    assert (Hb : binaryOut s2 = binaryOut (outputHeader s) ++
                   (if outputCInitList s2 then tbody else body)).
    { unfold binaryOut. rewrite Hc. destruct (outputCInitList (outputHeader s)); assumption. }
    unfold patchHeader. rewrite Ha, E4, binaryOut_set_binaryOut.
    rewrite Hb, E1, Hp, E3.
    set (A := binaryOut s ++ u32_bytes MagicNumber ++ u32_bytes Version
              ++ u32_bytes (Z.shiftl 3 16)).
    rewrite <- !app_assoc.
    rewrite pwrite_inside by reflexivity.
    apply read_u32_bytes. exact Hn.
Qed.

(** A binary-mode run and an assembly-mode run: the header is written on the
    initial pass object, a body follows it in the stream, and the allocator
    has reached 42 when the header is patched. *)
Definition asm_Pass : Pass := set_outputAsm true initial_Pass.

Definition patch_example (s : Pass) : Pass :=
  let s1 := outputHeader s in
  set_nextID 42 (set_out (out s1 ++ text "%1 = OpTypeVoid") s1).

Lemma header_patch_witness :
  (after_header (outputHeader initial_Pass) (patch_example initial_Pass)
   /\ read_u32 (binaryOut (patchHeader (patch_example initial_Pass))) 12 = 42)
  /\ (after_header (outputHeader asm_Pass) (patch_example asm_Pass)
      /\ read_decimal (out (patchHeader (patch_example asm_Pass))) 58 = 42).
Proof.
  assert (H1 : after_header (outputHeader initial_Pass)
                 (patch_example initial_Pass)).
  { repeat split; try reflexivity.
    - exists (text "%1 = OpTypeVoid"). reflexivity.
    - exists []. reflexivity.
    - vm_compute. discriminate. }
  assert (H2 : after_header (outputHeader asm_Pass) (patch_example asm_Pass)).
  { repeat split; try reflexivity.
    - exists (text "%1 = OpTypeVoid"). reflexivity.
    - exists []. reflexivity.
    - vm_compute. discriminate. }
  split; (split; [assumption|]).
  - exact (proj1 (header_patch initial_Pass (patch_example initial_Pass) H1)).
  - exact (proj1 (header_patch asm_Pass (patch_example asm_Pass) H2)).
Defined.

(** ** Deferred instructions *)

(** The nodes of the list have distinct identities, all below the next one
    to be handed out. *)
Definition fresh_nodes (s : Pass) : Prop :=
  NoDup (map addr (SPIRVInsts s))
  /\ Forall (fun x => (addr x < nextNode s)%nat) (SPIRVInsts s).

(** The stored iterator of a deferred entry denotes a node of [front]; what
    follows that node in [front] are OpPhi instructions, and [rest] starts
    with an instruction that is not an OpPhi, or the stored iterator denotes
    the last node of the list. *)
Definition deferred_at (it : iterator) (front rest : list Node) : Prop :=
  exists pre x phis,
    it = It (addr x) /\ front = pre ++ x :: phis
    /\ Forall (fun p => isOp (inst p) OpPhi = true) phis
    /\ match rest with
       | [] => phis = []
       | r :: _ => isOp (inst r) OpPhi = false
       end.

Lemma suffix_from_app a pre x r :
  a ∉ map addr pre -> addr x = a ->
  suffix_from a (pre ++ x :: r) = Some (x :: r).
Proof.
  intros Hn <-. induction pre as [|p pre IH]; simpl.
  - rewrite Nat.eqb_refl. reflexivity.
  - simpl in Hn. apply not_elem_of_cons in Hn as [Hp Hn].
    destruct (Nat.eqb_spec (addr p) (addr x)); [congruence|]. auto.
Qed.

Lemma insert_at_app a n pre x r :
  a ∉ map addr pre -> addr x = a ->
  insert_at a n (pre ++ x :: r) = Some (pre ++ n :: x :: r).
Proof.
  intros Hn <-. induction pre as [|p pre IH]; simpl.
  - rewrite Nat.eqb_refl. reflexivity.
  - simpl in Hn. apply not_elem_of_cons in Hn as [Hp Hn].
    destruct (Nat.eqb_spec (addr p) (addr x)); [congruence|].
    rewrite IH by exact Hn. reflexivity.
Qed.

Lemma NoDup_app_head (front : list Node) r rest :
  NoDup (map addr (front ++ r :: rest)) -> addr r ∉ map addr front.
Proof.
  rewrite map_app. intros H. apply NoDup_app in H as (_ & H & _).
  intros Hin. apply (H _ Hin). simpl. left.
Qed.

Lemma skip_OpPhi_app phis r rest :
  Forall (fun p => isOp (inst p) OpPhi = true) phis ->
  isOp (inst r) OpPhi = false ->
  skip_OpPhi (phis ++ r :: rest) = OK (It (addr r)).
Proof.
  intros Hp Hr. induction Hp as [|p phis Hp _ IH]; simpl.
  - rewrite Hr. reflexivity.
  - rewrite Hp. exact IH.
Qed.

(** [SPIRVInstList.insert] at the boundary between [front] and [rest]. *)
Lemma list_insert_at front rest I s :
  SPIRVInsts s = front ++ rest ->
  NoDup (map addr (SPIRVInsts s)) ->
  list_insert (iterator_of rest) I s
  = OK (tt, set_nextNode (S (nextNode s))
              (set_SPIRVInsts (front ++ mkNode (nextNode s) I :: rest) s)).
Proof.
  intros E Hnd. unfold list_insert, list_insert', bind, ret.
  destruct rest as [|r rest]; simpl.
  - rewrite E, app_nil_r. reflexivity.
  - rewrite E in Hnd |- *.
    rewrite insert_at_app; [reflexivity| |reflexivity].
    eapply NoDup_app_head, Hnd.
Qed.

Lemma fresh_nodes_insert front rest I s :
  SPIRVInsts s = front ++ rest ->
  fresh_nodes s ->
  fresh_nodes (set_nextNode (S (nextNode s))
                 (set_SPIRVInsts (front ++ mkNode (nextNode s) I :: rest) s)).
Proof.
  intros E [Hnd Hlt]. rewrite E in Hnd, Hlt. unfold fresh_nodes. cbn.
  apply Forall_app in Hlt as [H1 H2]. split.
  - rewrite map_app in Hnd |- *. simpl.
    apply NoDup_app in Hnd as (N1 & N2 & N3).
    apply NoDup_app. split; [exact N1|]. split.
    + intros a Ha Hin. apply elem_of_cons in Hin as [->|Hin].
      * apply (list_elem_of_fmap addr) in Ha as (y & Ey & Hy).
        rewrite Forall_forall in H1. specialize (H1 y Hy). lia.
      * exact (N2 a Ha Hin).
    + apply NoDup_cons. split; [|exact N3].
      intros Hin. apply (list_elem_of_fmap addr) in Hin as (y & Ey & Hy).
      rewrite Forall_forall in H2. specialize (H2 y Hy). simpl in Ey. lia.
  - apply Forall_app. split; [|apply Forall_cons; split].
    + eapply Forall_impl; [exact H1|]. simpl. intros; lia.
    + simpl. lia.
    + eapply Forall_impl; [exact H2|]. simpl. intros; lia.
Qed.

Section DeferredProperties.
Variable getAnalysis : string -> FunctionAnalyses.
Variable getExtInstEnum : string -> Z.
Variable getIndirectExtInstEnum : string -> Z.
Variable ExtInstImportID : Z.

(** The insert point the loop body computes is the boundary between
    [front] and [rest]. *)
Lemma HandleDeferredInstruction_one_at d s front rest :
  SPIRVInsts s = front ++ rest ->
  NoDup (map addr (SPIRVInsts s)) ->
  deferred_at (DI_InsertPoint d) front rest ->
  HandleDeferredInstruction_one getAnalysis getExtInstEnum
    getIndirectExtInstEnum ExtInstImportID d s
  = match DI_Inst d with
    | IBranch Br => HandleDeferred_Branch getAnalysis (iterator_of rest) Br
    | IPHI PHI => HandleDeferred_PHI (iterator_of rest) (DI_ResID d) PHI
    | ICall Call =>
        HandleDeferred_Call getExtInstEnum getIndirectExtInstEnum
          ExtInstImportID (iterator_of rest) (DI_ResID d) Call
    end s.
Proof.
  intros E Hnd (pre & x & phis & Hit & -> & Hphis & Hrest).
  unfold HandleDeferredInstruction_one. rewrite Hit.
  unfold bind at 1. unfold gets at 1. cbn beta iota.
  rewrite E in Hnd |- *. rewrite <- !app_assoc in Hnd |- *. simpl in Hnd |- *.
  unfold iterator_next.
  rewrite suffix_from_app; [| |reflexivity].
  2:{ eapply NoDup_app_head, Hnd. }
  destruct rest as [|r rest].
  - subst phis. simpl. reflexivity.
  - destruct phis as [|p phis].
    + simpl. unfold bind at 1.
      change (pre ++ x :: r :: rest) with (pre ++ [x] ++ r :: rest).
      rewrite app_assoc. rewrite suffix_from_app; [| |reflexivity].
      2:{ apply (NoDup_app_head _ r rest). rewrite <- app_assoc. exact Hnd. }
      simpl. rewrite Hrest. reflexivity.
    + simpl. unfold bind at 1.
      change (pre ++ x :: p :: phis ++ r :: rest)
        with (pre ++ [x] ++ p :: phis ++ r :: rest).
      rewrite app_assoc. rewrite suffix_from_app; [| |reflexivity].
      2:{ apply (NoDup_app_head _ p (phis ++ r :: rest)).
          rewrite <- app_assoc. exact Hnd. }
      change (p :: phis ++ r :: rest) with ((p :: phis) ++ r :: rest).
      rewrite skip_OpPhi_app by assumption. reflexivity.
Qed.


(** [VMap[V]] evaluates to the stored id, or to 0 for a value that has
    none; it leaves the instruction list alone. *)
Definition same_list (s s1 : Pass) : Prop :=
  SPIRVInsts s1 = SPIRVInsts s /\ nextNode s1 = nextNode s
  /\ errs s1 = errs s /\ TypeMap s1 = TypeMap s
  /\ forall V, VMap_read (ValueMap s1) V = VMap_read (ValueMap s) V.


Lemma same_list_trans s s1 s2 :
  same_list s s1 -> same_list s1 s2 -> same_list s s2.
Proof.
  intros (A1 & A2 & A3 & A4 & A5) (B1 & B2 & B3 & B4 & B5).
  repeat split; try congruence.
Qed.

Lemma VMap_at_run V s :
  exists s1, VMap_at V s = OK (VMap_read (ValueMap s) V, s1)
             /\ same_list s s1.
Proof.
  eexists. unfold VMap_at. rewrite at__fst. split; [reflexivity|].
  split; [reflexivity|]. split; [reflexivity|]. split; [reflexivity|].
  split; [reflexivity|]. intros V'. apply at__snd_read.
Qed.

Lemma same_list_fresh s s1 : same_list s s1 -> fresh_nodes s -> fresh_nodes s1.
Proof. intros (A1 & A2 & _) H. unfold fresh_nodes. rewrite A1, A2. exact H. Qed.

(** The branch instruction that ends the resolution of a branch. *)
Definition branch_inst (m : gmap Value Z) (Br : BranchInst)
  : SPIRVInstruction :=
  match Br with
  | BrCond _ _ Condition IfTrue IfFalse =>
      NewInst OpBranchConditional
        [MkId (VMap_read m Condition); MkId (VMap_read m (VBasicBlock IfTrue));
         MkId (VMap_read m (VBasicBlock IfFalse))]
  | BrUncond _ _ Target =>
      NewInst OpBranch [MkId (VMap_read m (VBasicBlock Target))]
  end.

Lemma list_insert_run front rest I s :
  SPIRVInsts s = front ++ rest ->
  fresh_nodes s ->
  exists s', list_insert (iterator_of rest) I s = OK (tt, s')
             /\ SPIRVInsts s' = front ++ mkNode (nextNode s) I :: rest
             /\ nextNode s' = S (nextNode s)
             /\ ValueMap s' = ValueMap s /\ errs s' = errs s
             /\ TypeMap s' = TypeMap s
             /\ fresh_nodes s'.
Proof.
  intros E Hf. eexists. split; [apply list_insert_at; [exact E|apply Hf]|].
  repeat split; try apply (fresh_nodes_insert front rest I s E Hf).
Qed.

Lemma branch_tail front rest Br s :
  SPIRVInsts s = front ++ rest ->
  fresh_nodes s ->
  exists s',
    match Br with
    | BrCond _ _ Condition IfTrue IfFalse =>
        CondID <- VMap_at Condition ;;
        TrueBBID <- VMap_at (VBasicBlock IfTrue) ;;
        FalseBBID <- VMap_at (VBasicBlock IfFalse) ;;
        list_insert (iterator_of rest)
          (NewInst OpBranchConditional
             [MkId CondID; MkId TrueBBID; MkId FalseBBID])
    | BrUncond _ _ Target =>
        TargetID <- VMap_at (VBasicBlock Target) ;;
        list_insert (iterator_of rest) (NewInst OpBranch [MkId TargetID])
    end s = OK (tt, s')
    /\ SPIRVInsts s'
       = front ++ mkNode (nextNode s) (branch_inst (ValueMap s) Br) :: rest.
Proof.
  intros E Hf. destruct Br as [P F T|P F C T Fa]; simpl.
  - destruct (VMap_at_run (VBasicBlock T) s) as (s1 & R1 & S1).
    rewrite (bind_OK_l _ _ _ _ _ R1).
    destruct (list_insert_run front rest
                (NewInst OpBranch [MkId (VMap_read (ValueMap s) (VBasicBlock T))])
                s1) as (s' & R & L & _).
    { destruct S1 as (-> & _). exact E. }
    { eapply same_list_fresh; eassumption. }
    exists s'. split; [exact R|]. rewrite L.
    destruct S1 as (_ & -> & _). reflexivity.
  - destruct (VMap_at_run C s) as (s1 & R1 & S1).
    rewrite (bind_OK_l _ _ _ _ _ R1).
    destruct (VMap_at_run (VBasicBlock T) s1) as (s2 & R2 & S2).
    rewrite (bind_OK_l _ _ _ _ _ R2).
    destruct (VMap_at_run (VBasicBlock Fa) s2) as (s3 & R3 & S3).
    rewrite (bind_OK_l _ _ _ _ _ R3).
    pose proof (same_list_trans _ _ _ S1 S2) as S12.
    pose proof (same_list_trans _ _ _ S12 S3) as S13.
    destruct S1 as (_ & _ & _ & _ & V1). destruct S12 as (_ & _ & _ & _ & V2).
    rewrite V1, V2.
    destruct (list_insert_run front rest
                (NewInst OpBranchConditional
                   [MkId (VMap_read (ValueMap s) C);
                    MkId (VMap_read (ValueMap s) (VBasicBlock T));
                    MkId (VMap_read (ValueMap s) (VBasicBlock Fa))])
                s3) as (s' & R & L & _).
    { destruct S13 as (-> & _). exact E. }
    { eapply same_list_fresh; eassumption. }
    exists s'. split; [exact R|]. rewrite L.
    destruct S13 as (_ & -> & _). reflexivity.
Qed.

Lemma find_ContinueBB_last dominates L bs1 C bs2 :
  L_blocks L = bs1 ++ C :: bs2 ->
  C <> L_getHeader L ->
  dominates C (L_getLoopLatch L) = true ->
  Forall (fun B => B = L_getHeader L
                   \/ dominates B (L_getLoopLatch L) = false) bs2 ->
  find_ContinueBB dominates L = Some C.
Proof.
  intros E Hh Hd Hrest. unfold find_ContinueBB. rewrite E, fold_left_app.
  simpl. destruct (Z.eqb_spec C (L_getHeader L)); [contradiction|].
  rewrite Hd. clear E. induction Hrest as [|B bs2 HB _ IH]; simpl.
  - reflexivity.
  - destruct (Z.eqb_spec B (L_getHeader L)) as [|N]; [exact IH|].
    destruct HB as [HB|HB]; [contradiction|]. rewrite HB. exact IH.
Qed.

(** The OpLoopMerge of a loop whose merge block is [MergeBB] and whose
    continue target is [ContinueBB]. *)
Definition loop_merge (m : gmap Value Z) (MergeBB ContinueBB : Z)
  : SPIRVInstruction :=
  NewInst OpLoopMerge
    [MkId (VMap_read m (VBasicBlock MergeBB));
     MkId (VMap_read m (VBasicBlock ContinueBB));
     MkNum spv.SelectionControlMaskNone].

Lemma loop_merge_then_branch front rest Br MergeBB ContinueBB s :
  SPIRVInsts s = front ++ rest ->
  fresh_nodes s ->
  exists s',
    ((MergeBBID <- VMap_at (VBasicBlock MergeBB) ;;
      ContinueBBID <- VMap_at (VBasicBlock ContinueBB) ;;
      list_insert (iterator_of rest)
        (NewInst OpLoopMerge
           [MkId MergeBBID; MkId ContinueBBID;
            MkNum spv.SelectionControlMaskNone])) ;;;
     match Br with
     | BrCond _ _ Condition IfTrue IfFalse =>
         CondID <- VMap_at Condition ;;
         TrueBBID <- VMap_at (VBasicBlock IfTrue) ;;
         FalseBBID <- VMap_at (VBasicBlock IfFalse) ;;
         list_insert (iterator_of rest)
           (NewInst OpBranchConditional
              [MkId CondID; MkId TrueBBID; MkId FalseBBID])
     | BrUncond _ _ Target =>
         TargetID <- VMap_at (VBasicBlock Target) ;;
         list_insert (iterator_of rest) (NewInst OpBranch [MkId TargetID])
     end) s = OK (tt, s')
    /\ SPIRVInsts s'
       = front
         ++ [mkNode (nextNode s) (loop_merge (ValueMap s) MergeBB ContinueBB);
             mkNode (S (nextNode s)) (branch_inst (ValueMap s) Br)]
         ++ rest.
Proof.
  intros E Hf.
  destruct (VMap_at_run (VBasicBlock MergeBB) s) as (s1 & R1 & S1).
  destruct (VMap_at_run (VBasicBlock ContinueBB) s1) as (s2 & R2 & S2).
  pose proof (same_list_trans _ _ _ S1 S2) as S12.
  destruct (list_insert_run front rest
              (loop_merge (ValueMap s) MergeBB ContinueBB) s2)
    as (s3 & R3 & L3 & N3 & V3 & _ & _ & F3).
  { destruct S12 as (-> & _). exact E. }
  { eapply same_list_fresh; eassumption. }
  destruct (branch_tail (front ++ [mkNode (nextNode s2)
                                     (loop_merge (ValueMap s) MergeBB
                                                 ContinueBB)])
              rest Br s3) as (s' & R & L).
  { rewrite L3, <- app_assoc. reflexivity. }
  { exact F3. }
  exists s'. split.
  - unfold bind at 1. unfold bind at 1. rewrite R1.
    unfold bind at 1. rewrite R2.
    destruct S1 as (_ & _ & _ & _ & V1). rewrite V1.
    fold (loop_merge (ValueMap s) MergeBB ContinueBB). rewrite R3. exact R.
  - rewrite L, <- app_assoc. simpl. rewrite N3.
    destruct S12 as (_ & -> & _ & _ & V12).
    assert (EB : branch_inst (ValueMap s3) Br = branch_inst (ValueMap s) Br).
    { rewrite V3. destruct Br; simpl; rewrite !V12; reflexivity. }
    rewrite EB. reflexivity.
Qed.

(** C5: a deferred branch whose block is a loop header.  The instruction
    list is [front ++ rest], cut where the pass inserts for this entry.
    If the loop has no unique exit block the translation stops.  Otherwise
    the list becomes [front], an OpLoopMerge, the branch, [rest]: the
    OpLoopMerge sits immediately before the branch, its merge operand is
    the id of the exit block, and its continue operand is the id of the
    header when the header is a latch of the loop, and otherwise the id of
    the last block of the loop, other than the header, that dominates the
    latch (the only such block when there is one only). *)
Theorem loop_header_branch (d : DeferredInst) (Br : BranchInst) (L : Loop)
    (s : Pass) (front rest : list Node) :
  let A := getAnalysis (Br_getFunction Br) in
  let run := HandleDeferredInstruction_one getAnalysis getExtInstEnum
               getIndirectExtInstEnum ExtInstImportID d s in
  let resolved MergeBB ContinueBB :=
    exists s',
      run = OK (tt, s')
      /\ SPIRVInsts s'
         = front
           ++ [mkNode (nextNode s)
                 (loop_merge (ValueMap s) MergeBB ContinueBB);
               mkNode (S (nextNode s)) (branch_inst (ValueMap s) Br)]
           ++ rest in
  DI_Inst d = IBranch Br ->
  SPIRVInsts s = front ++ rest ->
  fresh_nodes s ->
  deferred_at (DI_InsertPoint d) front rest ->
  LI_isLoopHeader A (Br_getParent Br) = true ->
  LI_getLoopFor A (Br_getParent Br) = Some L ->
  (L_getExitBlock L = None -> exists msg, run = Abort msg)
  /\ (forall MergeBB,
        L_getExitBlock L = Some MergeBB ->
        (L_isLoopLatch L (Br_getParent Br) = true ->
         resolved MergeBB (Br_getParent Br))
        /\ (L_isLoopLatch L (Br_getParent Br) = false ->
            forall bs1 ContinueBB bs2,
              L_blocks L = bs1 ++ ContinueBB :: bs2 ->
              ContinueBB <> L_getHeader L ->
              DT_dominates A ContinueBB (L_getLoopLatch L) = true ->
              Forall (fun B => B = L_getHeader L
                               \/ DT_dominates A B (L_getLoopLatch L) = false)
                     bs2 ->
              resolved MergeBB ContinueBB)).
Proof.
  intros A run resolved Hd E Hf Hat Hh HL.
  assert (Hrun : run = HandleDeferred_Branch getAnalysis (iterator_of rest) Br s).
  { unfold run. rewrite (HandleDeferredInstruction_one_at d s front rest E);
      [rewrite Hd; reflexivity|apply Hf|exact Hat]. }
  unfold HandleDeferred_Branch in Hrun. fold A in Hrun.
  rewrite Hh, HL in Hrun. split.
  - intros Hex. rewrite Hex in Hrun. eexists. rewrite Hrun. reflexivity.
  - intros MergeBB Hex. rewrite Hex in Hrun. split.
    + intros Hlatch. rewrite Hlatch in Hrun. unfold resolved. rewrite Hrun.
      destruct (loop_merge_then_branch front rest Br MergeBB (Br_getParent Br)
                  s E Hf) as (s' & R & Ls).
      exists s'. split; [|exact Ls]. rewrite <- R. reflexivity.
    + intros Hlatch bs1 C bs2 Hb Hne Hdom Hlast. rewrite Hlatch in Hrun.
      rewrite (find_ContinueBB_last _ _ _ _ _ Hb Hne Hdom Hlast) in Hrun.
      unfold resolved. rewrite Hrun.
      destruct (loop_merge_then_branch front rest Br MergeBB C s E Hf)
        as (s' & R & Ls).
      exists s'. split; [|exact Ls]. rewrite <- R. reflexivity.
Qed.

End DeferredProperties.

(** A loop of three blocks: header 1, body 2 and latch 3, left for block 4.
    Both the body and the latch dominate the latch. *)
Definition loop_example : Loop :=
  mkLoop (Some 4) (fun B => B =? 3) 1 (Some 3) [1; 2; 3].

Definition analyses_example (F : string) : FunctionAnalyses :=
  mkFunctionAnalyses
    (fun B => B =? 1)
    (fun B => if (1 <=? B) && (B <=? 3) then Some loop_example else None)
    (fun B Latch => bool_decide (Latch = Some 3) && ((B =? 2) || (B =? 3))).

Definition branch_example : BranchInst := BrCond 1 "kernel" (VInstruction 7) 2 4.

Definition loop_front_example : list Node :=
  [mkNode 0 (mkSPIRVInstruction 2 OpLabel 11 []);
   mkNode 1 (mkSPIRVInstruction 5 OpPhi 20 [MkId 3; MkId 21; MkId 13])].

Definition loop_rest_example : list Node :=
  [mkNode 2 (mkSPIRVInstruction 5 OpIAdd 21 [MkId 3; MkId 20; MkId 9])].

Definition loop_example_Pass : Pass :=
  set_ValueMap
    (<[VInstruction 7 := 22]>
       (<[VBasicBlock 1 := 11]>
          (<[VBasicBlock 2 := 12]>
             (<[VBasicBlock 3 := 13]> (<[VBasicBlock 4 := 14]> ∅)))))
    (set_nextNode 3
       (set_SPIRVInsts (loop_front_example ++ loop_rest_example) initial_Pass)).

Lemma loop_header_branch_witness :
  exists s',
    HandleDeferredInstruction_one analyses_example (fun _ => 0) (fun _ => 0) 0
      (mkDeferredInst (IBranch branch_example) (It 0%nat) 0) loop_example_Pass
    = OK (tt, s')
    /\ map inst (SPIRVInsts s')
       = map inst loop_front_example
         ++ [NewInst OpLoopMerge [MkId 14; MkId 13; MkNum 0];
             NewInst OpBranchConditional [MkId 22; MkId 12; MkId 14]]
         ++ map inst loop_rest_example.
Proof.
  assert (Hf : fresh_nodes loop_example_Pass).
  { split.
    - apply (bool_decide_unpack _). vm_compute. exact I.
    - repeat constructor. }
  assert (Hat : deferred_at (It 0%nat) loop_front_example loop_rest_example).
  { exists [], (mkNode 0 (mkSPIRVInstruction 2 OpLabel 11 [])),
      [mkNode 1 (mkSPIRVInstruction 5 OpPhi 20 [MkId 3; MkId 21; MkId 13])].
    repeat split. repeat constructor. }
  destruct (proj2 (proj2 (loop_header_branch analyses_example (fun _ => 0)
                            (fun _ => 0) 0
                            (mkDeferredInst (IBranch branch_example)
                                            (It 0%nat) 0)
                            branch_example loop_example loop_example_Pass
                            loop_front_example loop_rest_example
                            eq_refl eq_refl Hf Hat eq_refl eq_refl)
                     4 eq_refl)
              eq_refl [1; 2] 3 [] eq_refl ltac:(discriminate) eq_refl
              ltac:(constructor))
    as (s' & R & Ls).
  exists s'. split; [exact R|]. rewrite Ls. reflexivity.
Defined.

(** ** Diagnostics *)

(** Nothing was written to [errs()]. *)
Definition errs_same : relation Pass := fun s s' => errs s' = errs s.

Global Instance errs_same_preorder : PreOrder errs_same.
Proof.
  split; [intros s; reflexivity|].
  intros a b c H1 H2. unfold errs_same in *. congruence.
Qed.









Section DeferredCalls.
Variable getAnalysis : string -> FunctionAnalyses.
Variable getExtInstEnum : string -> Z.
Variable getIndirectExtInstEnum : string -> Z.
Variable ExtInstImportID : Z.








End DeferredCalls.





(** ** Required workgroup sizes *)

(** [Func] is a kernel the module defines. *)
Definition is_kernel (Func : Function_) : Prop :=
  F_isDeclaration Func = false /\ F_getCallingConv Func = SPIR_KERNEL.

(** [Func] is a kernel that declares the required workgroup size [D]. *)
Definition declares (Func : Function_) (D : Z * Z * Z) : Prop :=
  is_kernel Func
  /\ exists MD, F_reqd_work_group_size Func = Some MD /\ MD_dims MD = D.

(** The value the loop of [GenerateGlobalVar] starts from. *)
Definition unset_dims : Z * Z * Z := (0xFFFFFFFF, 0xFFFFFFFF, 0xFFFFFFFF).

Lemma kernel_skipped Ty_ st Func s :
  ~ is_kernel Func -> GenerateGlobalVar_kernel Ty_ st Func s = OK (st, s).
Proof.
  unfold is_kernel, GenerateGlobalVar_kernel. intros N.
  destruct (F_isDeclaration Func); [reflexivity|].
  destruct (decide (F_getCallingConv Func = SPIR_KERNEL)) as [E|E].
  - contradiction N. auto.
  - rewrite bool_decide_eq_false_2 by exact E. reflexivity.
Qed.

Lemma is_kernel_dec Func : {is_kernel Func} + {~ is_kernel Func}.
Proof.
  unfold is_kernel. destruct (F_isDeclaration Func).
  - right. intros [? _]. discriminate.
  - destruct (decide (F_getCallingConv Func = SPIR_KERNEL)); [left|right];
      tauto.
Qed.

(** Once a size is recorded, a kernel that declares another one stops the
    translation. *)
Lemma kernels_abort Ty_ Funcs : forall st s,
  PrevDimCst st <> unset_dims ->
  (exists Func D', Func ∈ Funcs /\ declares Func D' /\ D' <> PrevDimCst st) ->
  exists msg, GenerateGlobalVar_kernels Ty_ st Funcs s = Abort msg.
Proof.
  induction Funcs as [|F Funcs IH]; intros st s Hp (K & D' & Hin & HK & Hne).
  - inversion Hin.
  - simpl. unfold bind.
    destruct (GenerateGlobalVar_kernel Ty_ st F s) as [[st' s']|msg] eqn:E;
      [|eauto].
    assert (Hst : PrevDimCst st' = PrevDimCst st
                  /\ (F = K -> False)).
    { unfold GenerateGlobalVar_kernel in E.
      destruct (F_isDeclaration F) eqn:Ed.
      { injection E as <- <-. split; [reflexivity|]. intros ->.
        destruct HK as [[HK _] _]. congruence. }
      destruct (decide (F_getCallingConv F = SPIR_KERNEL)) as [Ec|Ec].
      2:{ rewrite bool_decide_eq_false_2 in E by exact Ec. injection E as <- <-.
          split; [reflexivity|]. intros ->. destruct HK as [[_ HK] _].
          congruence. }
      rewrite bool_decide_eq_true_2 in E by exact Ec. simpl in E.
      destruct (F_reqd_work_group_size F) as [MD|] eqn:Em.
      - rewrite bool_decide_eq_false_2 in E by exact Hp.
        destruct (decide (MD_dims MD = PrevDimCst st)) as [Eq|Eq].
        + rewrite bool_decide_eq_true_2 in E by exact Eq. injection E as <- <-.
          split; [reflexivity|]. intros ->.
          destruct HK as (_ & MD' & HM & HD). congruence.
        + rewrite bool_decide_eq_false_2 in E by exact Eq. discriminate.
      - injection E as <- <-. split; [reflexivity|]. intros ->.
        destruct HK as (_ & MD' & HM & HD). congruence. }
    destruct Hst as [Hprev HneF].
    apply IH; [congruence|]. exists K, D'. rewrite Hprev.
    apply elem_of_cons in Hin as [->|Hin]; [contradiction HneF; reflexivity|].
    auto.
Qed.

(** While no size is recorded: two kernels declaring different sizes stop
    the translation. *)
Lemma kernels_abort_unset Ty_ Funcs : forall st s,
  PrevDimCst st = unset_dims ->
  (forall Func D, Func ∈ Funcs -> declares Func D -> D <> unset_dims) ->
  (exists Fa Fb Da Db, Fa ∈ Funcs /\ Fb ∈ Funcs /\ declares Fa Da
                       /\ declares Fb Db /\ Da <> Db) ->
  exists msg, GenerateGlobalVar_kernels Ty_ st Funcs s = Abort msg.
Proof.
  induction Funcs as [|F Funcs IH];
    intros st s Hp Hall (Fa & Fb & Da & Db & Ha & Hb & HDa & HDb & Hne).
  - inversion Ha.
  - simpl. unfold bind.
    destruct (GenerateGlobalVar_kernel Ty_ st F s) as [[st' s']|msg] eqn:E;
      [|eauto].
    destruct (is_kernel_dec F) as [HkF|HkF].
    2:{ rewrite kernel_skipped in E by exact HkF. injection E as <- <-.
        apply IH; [exact Hp| |].
        - intros K D HK. apply Hall. right. exact HK.
        - exists Fa, Fb, Da, Db.
          apply elem_of_cons in Ha as [->|Ha];
            [destruct HDa as [? _]; contradiction|].
          apply elem_of_cons in Hb as [->|Hb];
            [destruct HDb as [? _]; contradiction|].
          auto. }
    destruct (F_reqd_work_group_size F) as [MD|] eqn:Em.
    + (* the first kernel with a size: it is recorded *)
      assert (Hprev : PrevDimCst st' = MD_dims MD).
      { unfold GenerateGlobalVar_kernel in E. destruct HkF as [Ed Ec].
        rewrite Ed, Ec, Em in E.
        rewrite bool_decide_eq_true_2 in E by reflexivity. simpl in E.
        rewrite bool_decide_eq_true_2 in E by exact Hp.
        repeat (apply bind_OK in E as (? & ? & _ & E)).
        injection E as <- _. reflexivity. }
      assert (HF : declares F (MD_dims MD)) by (split; eauto).
      apply kernels_abort.
      * rewrite Hprev. eapply Hall; [left|exact HF].
      * rewrite Hprev.
        destruct (decide (Da = MD_dims MD)) as [Ea|Ea].
        -- exists Fb, Db. split; [|split; [exact HDb|congruence]].
           apply elem_of_cons in Hb as [->|Hb]; [|exact Hb].
           destruct HDb as (_ & MD' & HM & HD). congruence.
        -- exists Fa, Da. split; [|split; [exact HDa|exact Ea]].
           apply elem_of_cons in Ha as [->|Ha]; [|exact Ha].
           destruct HDa as (_ & MD' & HM & HD). congruence.
    + assert (Hprev : PrevDimCst st' = PrevDimCst st).
      { unfold GenerateGlobalVar_kernel in E. destruct HkF as [Ed Ec].
        rewrite Ed, Ec, Em in E.
        rewrite bool_decide_eq_true_2 in E by reflexivity. simpl in E.
        injection E as <- _. reflexivity. }
      apply IH; [congruence| |].
      * intros K D HK. apply Hall. right. exact HK.
      * exists Fa, Fb, Da, Db.
        apply elem_of_cons in Ha as [->|Ha];
          [destruct HDa as (_ & MD' & HM & _); congruence|].
        apply elem_of_cons in Hb as [->|Hb];
          [destruct HDb as (_ & MD' & HM & _); congruence|].
        auto.
Qed.

Lemma lookupType_same T s s1 id :
  TypeMap s1 = TypeMap s ->
  lookupType T s = OK (id, s) -> lookupType T s1 = OK (id, s1).
Proof.
  unfold lookupType. intros ->.
  match goal with |- context [TypeMap s !! ?k] =>
    destruct (TypeMap s !! k); [|discriminate] end.
  intros H. injection H as ->. reflexivity.
Qed.

(** The OpConstantComposite that holds the required workgroup size. *)
Definition workgroup_size_value (m : gmap Value Z) (tyid id : Z)
    (MD : MDNode3) : SPIRVInstruction :=
  let Ops :=
    [MkId tyid;
     MkId (VMap_read m (VConstant (MD_ConstantInt (MD_op0 MD))));
     MkId (VMap_read m (VConstant (MD_ConstantInt (MD_op1 MD))));
     MkId (VMap_read m (VConstant (MD_ConstantInt (MD_op2 MD))))] in
  mkSPIRVInstruction (addWordCounts 2 Ops) OpConstantComposite id Ops.

(** What the first kernel with a required size leaves behind. *)
Definition value_pushed (I : SPIRVInstruction) (s s1 : Pass) : Prop :=
  SPIRVInsts s1 = SPIRVInsts s ++ [mkNode (nextNode s) I]
  /\ nextID s1 = wrap32 (nextID s + 1)
  /\ TypeMap s1 = TypeMap s.

Lemma kernel_first Ty_ st K MD tyid s :
  is_kernel K ->
  F_reqd_work_group_size K = Some MD ->
  PrevDimCst st = unset_dims ->
  lookupType (getPointerElementType Ty_) s = OK (tyid, s) ->
  nextID s <> 0 ->
  exists s1,
    GenerateGlobalVar_kernel Ty_ st K s
    = OK (mkWGState (HasMDVec st ++ [true]) (MD_dims MD) (nextID s), s1)
    /\ value_pushed (workgroup_size_value (ValueMap s) tyid (nextID s) MD) s s1.
Proof.
  intros [Ed Ec] Em Hp Hty Hid. unfold GenerateGlobalVar_kernel.
  rewrite Ed, Ec, Em. rewrite bool_decide_eq_true_2 by reflexivity. simpl.
  rewrite bool_decide_eq_true_2 by exact Hp.
  unfold bind at 1. unfold VMap_at at 1.
  unfold bind at 1. unfold VMap_at at 1.
  unfold bind at 1. unfold VMap_at at 1.
  unfold bind at 1. unfold gets at 1.
  unfold bind at 1.
  match goal with |- context [lookupType ?T ?s1] =>
    rewrite (lookupType_same T s s1 tyid eq_refl Hty) end.
  unfold bind at 1. unfold nextID_postinc at 1.
  unfold bind at 1. rewrite emit_OK by exact Hid.
  eexists. split; [reflexivity|].
  unfold value_pushed, workgroup_size_value. cbn -[at_ wrap32].
  rewrite !at__fst. unfold VMap_read. rewrite !at__snd_read.
  repeat split.
Qed.

Lemma kernels_same Ty_ D Funcs : forall st s,
  PrevDimCst st = D -> D <> unset_dims ->
  (forall K, K ∈ Funcs -> is_kernel K -> declares K D) ->
  GenerateGlobalVar_kernels Ty_ st Funcs s = OK (st, s).
Proof.
  induction Funcs as [|F Funcs IH]; intros st s Hp Hne Hall; [reflexivity|].
  simpl. unfold bind.
  assert (E : GenerateGlobalVar_kernel Ty_ st F s = OK (st, s)).
  { destruct (is_kernel_dec F) as [Hk|Hk]; [|apply kernel_skipped, Hk].
    destruct (Hall F ltac:(left) Hk) as ([Ed Ec] & MD & Em & HD).
    unfold GenerateGlobalVar_kernel. rewrite Ed, Ec, Em.
    rewrite bool_decide_eq_true_2 by reflexivity. simpl.
    rewrite bool_decide_eq_false_2 by (rewrite Hp; exact Hne).
    rewrite bool_decide_eq_true_2 by congruence. reflexivity. }
  rewrite E. apply IH; [exact Hp|exact Hne|].
  intros K HK. apply Hall. right. exact HK.
Qed.

Lemma kernels_first Ty_ D tyid Funcs : forall st s,
  PrevDimCst st = unset_dims -> HasMDVec st = [] -> D <> unset_dims ->
  (forall K, K ∈ Funcs -> is_kernel K -> declares K D) ->
  (exists K, K ∈ Funcs /\ is_kernel K) ->
  lookupType (getPointerElementType Ty_) s = OK (tyid, s) ->
  nextID s <> 0 ->
  exists MD s1,
    GenerateGlobalVar_kernels Ty_ st Funcs s
    = OK (mkWGState [true] D (nextID s), s1)
    /\ MD_dims MD = D
    /\ value_pushed (workgroup_size_value (ValueMap s) tyid (nextID s) MD) s s1.
Proof.
  induction Funcs as [|F Funcs IH];
    intros st s Hp Hv Hne Hall (K & HK & Hk) Hty Hid.
  - inversion HK.
  - simpl. destruct (is_kernel_dec F) as [HkF|HkF].
    + destruct (Hall F ltac:(left) HkF) as (_ & MD & Em & HD).
      destruct (kernel_first Ty_ st F MD tyid s HkF Em Hp Hty Hid)
        as (s1 & R & P).
      exists MD, s1. split; [|split; [exact HD|exact P]].
      unfold bind. rewrite R, Hv, HD. simpl.
      apply (kernels_same Ty_ D); [reflexivity|exact Hne|].
      intros K' HK'. apply Hall. right. exact HK'.
    + unfold bind. rewrite kernel_skipped by exact HkF.
      apply IH; try assumption.
      * intros K' HK'. apply Hall. right. exact HK'.
      * exists K. split; [|exact Hk].
        apply elem_of_cons in HK as [->|HK]; [contradiction|exact HK].
Qed.

Lemma GetStorageClass_any AS sc s s1 :
  GetStorageClass AS s = OK (sc, s) -> GetStorageClass AS s1 = OK (sc, s1).
Proof.
  destruct AS; simpl; unfold ret, llvm_unreachable; intros H;
    try discriminate; injection H as <-; reflexivity.
Qed.

Lemma find_if_insert_at p n l a :
  find_if p l = It a -> is_Some (insert_at a n l).
Proof.
  induction l as [|x r IH]; simpl; [discriminate|].
  destruct (p (inst x)).
  - intros H. injection H as <-. rewrite Nat.eqb_refl. eauto.
  - intros H. destruct (Nat.eqb (addr x) a); [eauto|].
    destruct (IH H) as [l' ->]. simpl. eauto.
Qed.

(** An insertion in front of the first instruction that satisfies [p]
    (at the end if there is none) always finds its place. *)
Lemma list_insert_find_if p I s l :
  SPIRVInsts s = l ->
  exists l',
    list_insert (find_if p l) I s
    = OK (tt, set_nextNode (S (nextNode s)) (set_SPIRVInsts l' s))
    /\ one_more (mkNode (nextNode s) I) l l'.
Proof.
  intros E. unfold list_insert, list_insert', bind, ret.
  destruct (find_if p l) as [a|] eqn:Ef.
  - rewrite E.
    destruct (find_if_insert_at p (mkNode (nextNode s) I) l a Ef) as [l' El].
    rewrite El. exists l'. split; [reflexivity|].
    apply insert_at_split in El as (l1 & l2 & E1 & E2 & _).
    exists l1, l2. auto.
  - rewrite E. exists (l ++ [mkNode (nextNode s) I]). split; [reflexivity|].
    exists l, []. rewrite app_nil_r. auto.
Qed.

Lemma list_insert_find_if_OK p I s l :
  SPIRVInsts s = l ->
  list_insert (find_if p l) I s
  = OK (tt, final_state (list_insert (find_if p l) I s) s).
Proof.
  intros E. destruct (list_insert_find_if p I s l E) as (l' & -> & _).
  reflexivity.
Qed.

Lemma GetBuiltin_WorkgroupSize GV :
  GetBuiltin (GV_getName GV) = spv.BuiltInWorkgroupSize ->
  strip_spirv_initializer GV
  = mkGlobalVariable (GV_getName GV) (GV_getType GV) None.
Proof.
  unfold GetBuiltin, strip_spirv_initializer.
  destruct (String.eqb_spec (GV_getName GV) "__spirv_GlobalInvocationId");
    [discriminate|].
  destruct (String.eqb_spec (GV_getName GV) "__spirv_LocalInvocationId");
    [discriminate|].
  destruct (String.eqb_spec (GV_getName GV) "__spirv_WorkgroupSize") as [->|].
  - reflexivity.
  - destruct (String.eqb_spec (GV_getName GV) "__spirv_NumWorkgroups");
      [discriminate|].
    destruct (String.eqb_spec (GV_getName GV) "__spirv_WorkgroupId");
      discriminate.
Qed.

Lemma filter_singleton (p : SPIRVInstruction -> bool) x :
  filter p [x] = if p x then [x] else [].
Proof. rewrite filter_cons, filter_nil. destruct (p x); reflexivity. Qed.

Definition is_OpConstantComposite (I : SPIRVInstruction) : bool :=
  isOp I OpConstantComposite.

(** The decoration [OpDecorate %id BuiltIn WorkgroupSize]. *)
Definition decorate_WorkgroupSize (id : Z) : SPIRVInstruction :=
  NewInst OpDecorate
    [MkId id; MkNum spv.DecorationBuiltIn;
     MkNum (spv.BuiltIn_value spv.BuiltInWorkgroupSize)].

(** C4: required workgroup sizes, for a module that has the variable
    [__spirv_WorkgroupSize], and whose kernels do not declare the size
    0xFFFFFFFF in all three dimensions.  When the variable is generated:
    if two kernels of the module declare different required sizes, the
    translation stops; if the module has a kernel and all its kernels
    declare the same required size, the translation goes on, exactly one
    OpConstantComposite is added to the instruction list, which holds the
    size, and its id is decorated BuiltIn WorkgroupSize. *)
Theorem workgroup_size_agreement (Module_ : list Function_)
    (ModuleConstantsInStorageBuffer : bool) (GV : GlobalVariable) (s : Pass) :
  let run := GenerateGlobalVar Module_ ModuleConstantsInStorageBuffer
               (strip_spirv_initializer GV) s in
  GetBuiltin (GV_getName GV) = spv.BuiltInWorkgroupSize ->
  (forall Func D, Func ∈ Module_ -> declares Func D -> D <> unset_dims) ->
  (forall Fa Fb Da Db,
      Fa ∈ Module_ -> Fb ∈ Module_ -> declares Fa Da -> declares Fb Db ->
      Da <> Db ->
      exists msg, run = Abort msg)
  /\ (forall D tyid ptyid sc,
        (exists K, K ∈ Module_ /\ is_kernel K) ->
        (forall K, K ∈ Module_ -> is_kernel K -> declares K D) ->
        lookupType (getPointerElementType (GV_getType GV)) s = OK (tyid, s) ->
        lookupType (GV_getType GV) s = OK (ptyid, s) ->
        GetStorageClass (getPointerAddressSpace (GV_getType GV)) s
        = OK (sc, s) ->
        0 < nextID s < 2 ^ 32 - 1 ->
        exists s' MD,
          run = OK (tt, s')
          /\ MD_dims MD = D
          /\ filter is_OpConstantComposite (insts s')
             = filter is_OpConstantComposite (insts s)
               ++ [workgroup_size_value (ValueMap s) tyid (nextID s) MD]
          /\ decorate_WorkgroupSize (nextID s) ∈ insts s'
          /\ WorkgroupSizeValueID s' = nextID s).
Proof.
  intros run HB Hall. unfold run. rewrite (GetBuiltin_WorkgroupSize GV HB).
  unfold GenerateGlobalVar. cbv zeta. cbn [GV_getName GV_getType GV_Initializer].
  rewrite HB. rewrite bool_decide_eq_true_2 by reflexivity.
  rewrite (bool_decide_eq_false_2 (spv.BuiltInWorkgroupSize = spv.BuiltInMax))
    by discriminate.
  split.
  - intros Fa Fb Da Db Ha Hb HDa HDb Hne.
    destruct (kernels_abort_unset (GV_getType GV) Module_
                (mkWGState [] unset_dims 0) s eq_refl Hall)
      as [msg E]; [exists Fa, Fb, Da, Db; auto|].
    exists msg. unfold bind at 1. unfold bind at 1.
    unfold unset_dims in E. rewrite E. reflexivity.
  - intros D tyid ptyid sc HK HallD Hty Hpty Hsc Hid.
    assert (HD : D <> unset_dims).
    { destruct HK as (K & HK & Hk). eapply Hall; eauto. }
    destruct (kernels_first (GV_getType GV) D tyid Module_
                (mkWGState [] unset_dims 0) s eq_refl eq_refl HD HallD HK Hty
                ltac:(lia)) as (MD & s1 & R & HMD & P1 & P2 & P3).
    assert (Hid1 : wrap32 (nextID s + 1) <> 0).
    { rewrite wrap32_small; lia. }
    eexists _, MD. split; [|split; [exact HMD|]].
    + unfold bind at 1. unfold bind at 1.
      unfold unset_dims in R. rewrite R. cbn [HasMDVec forallb InitializerID].
      unfold bind at 1. unfold ret at 1. cbn [negb]. unfold ret at 1.
      unfold bind at 1. unfold gets at 1.
      unfold bind at 1. unfold VMap_set at 1. unfold modify at 1.
      unfold bind at 1.
      match goal with |- context [lookupType ?T ?s2] =>
        rewrite (lookupType_same T s s2 ptyid P3 Hpty) end.
      unfold bind at 1.
      match goal with |- context [GetStorageClass ?A ?s2] =>
        rewrite (GetStorageClass_any A sc s s2 Hsc) end.
      unfold bind at 1. unfold ret at 1.
      unfold bind at 1. unfold nextID_postinc at 1.
      unfold bind at 1. cbn [nextID set_ValueMap set_nextID].
      rewrite P2. rewrite emit_OK by exact Hid1.
      cbn [negb].
      unfold bind at 1. unfold DecoInsertPoint at 1. unfold gets at 1.
      unfold bind at 1. unfold VMap_at at 1.
      unfold bind at 1. unfold bind at 1. unfold modify at 1. unfold ret at 1.
      apply list_insert_find_if_OK. reflexivity.
    + match goal with
      | |- context [final_state (list_insert (find_if ?p ?l) ?I ?s6) _] =>
          destruct (list_insert_find_if p I s6 l eq_refl) as (l' & Rl & Hone);
          rewrite Rl
      end.
      cbn [final_state]. unfold insts.
      cbn [SPIRVInsts set_nextNode set_SPIRVInsts WorkgroupSizeValueID
           set_ValueMap set_nextID set_WorkgroupSizeVarID
           set_WorkgroupSizeValueID nextNode ValueMap] in Hone |- *.
      split; [|split; [|reflexivity]].
      * rewrite (one_more_filter _ _ _ _ Hone) by reflexivity.
        rewrite P1, !map_app, !filter_app. cbn [map inst].
        rewrite !filter_singleton. cbn. rewrite app_nil_r. reflexivity.
      * destruct Hone as (l1 & l2 & _ & ->). rewrite map_app.
        apply elem_of_app. right. left.
Qed.

(** Two modules of two kernels: in the first the kernels declare the sizes
    (1,1,1) and (2,1,1), in the second both declare (2,1,1). *)
Definition kernel_example (Name : string) (X : Z) : Function_ :=
  mkFunction Name false SPIR_KERNEL
    (Some (mkMDNode3 (32, X) (32, 1) (32, 1))).

Definition differing_module : list Function_ :=
  [kernel_example "foo" 1; kernel_example "bar" 2].

Definition agreeing_module : list Function_ :=
  [kernel_example "foo" 2; kernel_example "bar" 2].

Definition WorkgroupSize_example : GlobalVariable :=
  mkGlobalVariable "__spirv_WorkgroupSize"
    (PointerTy (VectorTy i32 3) AddressSpace.ModuleScopePrivate)
    (Some (ConstantAggregateZero (VectorTy i32 3))).

Definition workgroup_example_Pass : Pass :=
  set_nextID 10
    (set_TypeMap
       (<[i32 := 1]>
          (<[VectorTy i32 3 := 2]>
             (<[PointerTy (VectorTy i32 3) AddressSpace.ModuleScopePrivate
                := 3]> ∅)))
       (set_ValueMap
          (<[VConstant (ConstantInt 32 1) := 5]>
             (<[VConstant (ConstantInt 32 2) := 6]> ∅))
          initial_Pass)).

Lemma kernel_example_declares Name X :
  declares (kernel_example Name X) (wrap32 X, 1, 1).
Proof. split; [split; reflexivity|]. eexists. split; reflexivity. Qed.

Lemma workgroup_size_agreement_witness :
  (exists msg,
      GenerateGlobalVar differing_module false
        (strip_spirv_initializer WorkgroupSize_example) workgroup_example_Pass
      = Abort msg)
  /\ (exists s',
         GenerateGlobalVar agreeing_module false
           (strip_spirv_initializer WorkgroupSize_example)
           workgroup_example_Pass
         = OK (tt, s')
         /\ filter is_OpConstantComposite (insts s')
            = [mkSPIRVInstruction 6 OpConstantComposite 10
                 [MkId 2; MkId 6; MkId 5; MkId 5]]
         /\ decorate_WorkgroupSize 10 ∈ insts s').
Proof.
  assert (Hall : forall M X Y, M = [kernel_example "foo" X; kernel_example "bar" Y] ->
                 0 <= X < 3 -> 0 <= Y < 3 ->
                 forall Func D, Func ∈ M -> declares Func D -> D <> unset_dims).
  { intros M X Y -> HX HY Func D Hin (_ & MD & Em & <-).
    apply elem_of_cons in Hin as [->|Hin];
      [|apply elem_of_cons in Hin as [->|Hin]; [|inversion Hin]];
      injection Em as <-; unfold MD_dims, unset_dims; cbn;
      rewrite wrap32_small by lia; intros H; injection H; lia. }
  split.
  - apply (proj1 (workgroup_size_agreement differing_module false
                    WorkgroupSize_example workgroup_example_Pass eq_refl
                    (Hall _ 1 2 eq_refl ltac:(lia) ltac:(lia)))
             (kernel_example "foo" 1) (kernel_example "bar" 2)
             (1, 1, 1) (2, 1, 1)).
    + left.
    + right. left.
    + apply (kernel_example_declares "foo" 1).
    + apply (kernel_example_declares "bar" 2).
    + discriminate.
  - destruct (proj2 (workgroup_size_agreement agreeing_module false
                       WorkgroupSize_example workgroup_example_Pass eq_refl
                       (Hall _ 2 2 eq_refl ltac:(lia) ltac:(lia)))
                (2, 1, 1) 2 3 spv.StorageClassPrivate)
      as (s' & MD & R & HMD & Hf & Hd & _).
    + exists (kernel_example "foo" 2). split; [left|split; reflexivity].
    + intros K HK _.
      apply elem_of_cons in HK as [->|HK];
        [|apply elem_of_cons in HK as [->|HK]; [|inversion HK]];
        apply (kernel_example_declares _ 2).
    + reflexivity.
    + reflexivity.
    + reflexivity.
    + cbn. lia.
    + exists s'. split; [exact R|]. split; [|exact Hd].
      clear Hf Hd. vm_compute in R. injection R as <-. reflexivity.
Defined.

(** A module without the variable [__spirv_WorkgroupSize]: the pass object
    when [GenerateModuleInfo] runs, with the two kernels as entry points. *)
Definition no_variable_Pass (Module_ : list Function_) : Pass :=
  set_EntryPointVec (zip Module_ [4; 5]) initial_Pass.

(** Without the variable nothing compares the sizes: the kernels of the
    first module declare different sizes and each gets its OpExecutionMode;
    the kernels of the second module declare the same size and no
    OpConstantComposite is produced. *)
Lemma different_sizes_without_WorkgroupSize_variable :
  declares (kernel_example "foo" 1) (1, 1, 1)
  /\ declares (kernel_example "bar" 2) (2, 1, 1)
  /\ (exists s',
         runOnModule_workgroup_size differing_module false [] End
           (no_variable_Pass differing_module)
         = OK (tt, s')
         /\ insts s'
            = [NewInst OpExecutionMode
                 [MkId 4; MkNum spv.ExecutionModeLocalSize;
                  MkNum 1; MkNum 1; MkNum 1];
               NewInst OpExecutionMode
                 [MkId 5; MkNum spv.ExecutionModeLocalSize;
                  MkNum 2; MkNum 1; MkNum 1]])
  /\ (exists s',
         runOnModule_workgroup_size agreeing_module false [] End
           (no_variable_Pass agreeing_module)
         = OK (tt, s')
         /\ filter is_OpConstantComposite (insts s') = []).
Proof.
  split; [apply (kernel_example_declares "foo" 1)|].
  split; [apply (kernel_example_declares "bar" 2)|].
  split; eexists; (split; [vm_compute; reflexivity|]); reflexivity.
Qed.

(** * The binary writer *)

(** ** The code *)

(** The numbers of the opcodes of [Op] (spirv/1.0/spirv.hpp). *)
Definition Op_value (o : Op) : Z :=
  match o with
  | OpNop => 0 | OpUndef => 1 | OpSource => 3 | OpExtension => 10
  | OpExtInstImport => 11 | OpExtInst => 12 | OpMemoryModel => 14
  | OpEntryPoint => 15 | OpExecutionMode => 16 | OpCapability => 17
  | OpTypeVoid => 19 | OpTypeBool => 20 | OpTypeInt => 21
  | OpTypeFloat => 22 | OpTypeVector => 23 | OpTypeImage => 25
  | OpTypeSampler => 26 | OpTypeSampledImage => 27 | OpTypeArray => 28
  | OpTypeRuntimeArray => 29 | OpTypeStruct => 30 | OpTypePointer => 32
  | OpTypeFunction => 33 | OpConstantTrue => 41 | OpConstantFalse => 42
  | OpConstant => 43 | OpConstantComposite => 44 | OpConstantNull => 46
  | OpSpecConstant => 50 | OpSpecConstantComposite => 51
  | OpFunction => 54 | OpFunctionParameter => 55 | OpFunctionEnd => 56
  | OpFunctionCall => 57 | OpVariable => 59 | OpDecorate => 71
  | OpMemberDecorate => 72 | OpCompositeConstruct => 80
  | OpIAdd => 128 | OpFAdd => 129 | OpISub => 130 | OpFSub => 131
  | OpIMul => 132 | OpFMul => 133 | OpUDiv => 134 | OpSDiv => 135
  | OpFDiv => 136 | OpUMod => 137 | OpSRem => 138 | OpFRem => 140
  | OpLogicalNotEqual => 165 | OpLogicalOr => 166 | OpLogicalAnd => 167
  | OpLogicalNot => 168
  | OpShiftRightLogical => 194 | OpShiftRightArithmetic => 195
  | OpShiftLeftLogical => 196
  | OpBitwiseOr => 197 | OpBitwiseXor => 198 | OpBitwiseAnd => 199
  | OpBitCount => 205
  | OpPhi => 245 | OpLoopMerge => 246 | OpSelectionMerge => 247
  | OpLabel => 248 | OpBranch => 249 | OpBranchConditional => 250
  | OpReturn => 253 | OpReturnValue => 254
  end.

(** [void WriteOneWord(uint32_t Word)] *)
Definition WriteOneWord (Word : Z) : M unit :=
  modify (fun s => set_binaryOut (write (binaryOut s) (u32_bytes Word)) s).

(** [void WriteResultID(SPIRVInstruction *Inst)] *)
Definition WriteResultID (Inst : SPIRVInstruction) : M unit :=
  WriteOneWord (ResultID Inst).

(** [void WriteWordCountAndOpcode(SPIRVInstruction *Inst)] *)
Definition WriteWordCountAndOpcode (Inst : SPIRVInstruction) : M unit :=
  (* High 16 bit : Word Count
     Low 16 bit  : Opcode *)
  let Word := Op_value (Opcode Inst) in
  let Word := Z.lor Word (wrap32 (Z.shiftl (WordCount Inst) 16)) in
  WriteOneWord Word.

Section WriteOperand.

(** Whether plain [char] is a signed type, which the implementation
    chooses. *)
Variable char_is_signed : bool.

(** A [char] promoted to [int]. *)
Definition char_to_int (c : ascii) : Z :=
  let n := Z.of_N (N_of_ascii c) in
  if char_is_signed && (128 <=? n) then n - 256 else n.

(** [void WriteOperand(SPIRVOperand *Op)] *)
Definition WriteOperand (Op : SPIRVOperand) : M unit :=
  match Type_ Op with
  | NUMBERID =>
      match LiteralNum Op with
      | NumID :: _ => WriteOneWord NumID
      | [] => llvm_unreachable "LiteralNum[0] of an empty vector"
      end
  | LITERAL_STRING =>
      let Data := list_ascii_of_string (LiteralStr Op) in
      let WordSize := (length Data / 4)%nat in
      forM_ (seq 0 WordSize)
            (fun Idx => WriteOneWord
                          (read_u32 Data (wrap32 (4 * Z.of_nat Idx)))) ;;;
      let Remainder := (length Data mod 4)%nat in
      let LastWord :=
        fold_left
          (fun LastWord Idx =>
             Z.lor LastWord
               (wrap32 (Z.shiftl
                          (char_to_int (nth (4 * WordSize + Idx) Data zero))
                          (8 * Z.of_nat Idx))))
          (seq 0 Remainder) 0 in
      WriteOneWord LastWord
  | LITERAL_INTEGER | LITERAL_FLOAT =>
      (* TODO: Handle LiteranNum carefully. *)
      forM_ (LiteralNum Op) WriteOneWord
  end.

(** The three shapes an instruction is written in, by its opcode; [None]
    for an opcode the writer has no case for. *)
Inductive Layout : Set :=
| NoResultID         (* word count and opcode, operands *)
| ResultIDFirst      (* word count and opcode, result id, operands *)
| ResultIDSecond.    (* word count and opcode, operand 0, result id,
                        the other operands *)

Definition WriteSPIRVBinary_layout (Opcode : Op) : option Layout :=
  match Opcode with
  | OpCapability | OpExtension | OpMemoryModel | OpEntryPoint
  | OpExecutionMode | OpSource | OpDecorate | OpMemberDecorate | OpBranch
  | OpBranchConditional | OpSelectionMerge | OpLoopMerge | OpReturnValue
  | OpReturn | OpFunctionEnd => Some NoResultID
  | OpTypeBool | OpTypeVoid | OpTypeSampler | OpLabel | OpExtInstImport
  | OpTypePointer | OpTypeRuntimeArray | OpTypeStruct | OpTypeImage
  | OpTypeSampledImage | OpTypeInt | OpTypeFloat | OpTypeArray
  | OpTypeVector | OpTypeFunction => Some ResultIDFirst
  | OpFunction | OpFunctionParameter | OpIAdd | OpFAdd | OpISub | OpFSub
  | OpIMul | OpFMul | OpUDiv | OpSDiv | OpFDiv | OpUMod | OpSRem | OpFRem
  | OpBitwiseOr | OpBitwiseXor | OpBitwiseAnd | OpShiftLeftLogical
  | OpShiftRightLogical | OpShiftRightArithmetic | OpBitCount
  | OpCompositeConstruct | OpExtInst | OpUndef | OpConstantNull
  | OpLogicalOr | OpLogicalAnd | OpLogicalNot | OpLogicalNotEqual
  | OpConstantComposite | OpSpecConstantComposite | OpConstantTrue
  | OpConstantFalse | OpConstant | OpSpecConstant | OpVariable
  | OpFunctionCall | OpPhi => Some ResultIDSecond
  | OpNop => None
  end.

(** The body of the loop of [WriteSPIRVBinary] for one instruction. *)
Definition WriteSPIRVBinary_inst (Inst : SPIRVInstruction) : M unit :=
  let Ops := Operands Inst in
  match WriteSPIRVBinary_layout (Opcode Inst) with
  | None =>
      errs_print "Unsupported SPIR-V instruction opcode" ;;;
      llvm_unreachable "Unsupported SPIRV instruction"
  | Some NoResultID =>
      WriteWordCountAndOpcode Inst ;;;
      forM_ Ops WriteOperand
  | Some ResultIDFirst =>
      WriteWordCountAndOpcode Inst ;;;
      WriteResultID Inst ;;;
      forM_ Ops WriteOperand
  | Some ResultIDSecond =>
      WriteWordCountAndOpcode Inst ;;;
      match Ops with
      | Op0 :: rest =>
          WriteOperand Op0 ;;;
          WriteResultID Inst ;;;
          forM_ rest WriteOperand
      | [] => llvm_unreachable "Ops[0] of an empty operand list"
      end
  end.

(** [void WriteSPIRVBinary()] *)
Definition WriteSPIRVBinary : M unit :=
  SPIRVInstList <- gets insts ;;
  forM_ SPIRVInstList WriteSPIRVBinary_inst.

End WriteOperand.

(** ** What the binary writer writes *)

Lemma set_binaryOut_set_binaryOut o1 o2 s :
  set_binaryOut o2 (set_binaryOut o1 s) = set_binaryOut o2 s.
Proof.
  unfold set_binaryOut. destruct (outputCInitList s) eqn:E; cbn; rewrite E;
    reflexivity.
Qed.

Lemma set_binaryOut_binaryOut s : set_binaryOut (binaryOut s) s = s.
Proof.
  unfold set_binaryOut, binaryOut. destruct s as [? c ? ? ? ? ? ? ? ? ? ? ? ? ? ? ? ? ? ?].
  cbn. destruct c; reflexivity.
Qed.

(** [m] appends the bytes [bs] to the binary stream and does nothing
    else. *)
Definition wrote (bs : list ascii) (m : M unit) : Prop :=
  forall s, m s = OK (tt, set_binaryOut (binaryOut s ++ bs) s).

Lemma wrote_ret : wrote [] (ret tt).
Proof. intros s. rewrite app_nil_r, set_binaryOut_binaryOut. reflexivity. Qed.

Lemma wrote_bind b1 b2 m1 m2 :
  wrote b1 m1 -> wrote b2 m2 -> wrote (b1 ++ b2) (m1 ;;; m2).
Proof.
  intros H1 H2 s. unfold bind. rewrite H1, H2.
  rewrite binaryOut_set_binaryOut, set_binaryOut_set_binaryOut, app_assoc.
  reflexivity.
Qed.

Lemma wrote_forM_ {A} (f : A -> list ascii) (body : A -> M unit) xs :
  Forall (fun x => wrote (f x) (body x)) xs ->
  wrote (concat (map f xs)) (forM_ xs body).
Proof.
  induction 1 as [|x xs Hx _ IH]; simpl; [apply wrote_ret|].
  apply wrote_bind; assumption.
Qed.

Lemma WriteOneWord_wrote w : wrote (u32_bytes w) (WriteOneWord w).
Proof. intros s. reflexivity. Qed.

(** *** Bytes and words *)

Definition byte (c : ascii) : Z := Z.of_N (N_of_ascii c).

Lemma byte_range c : 0 <= byte c < 256.
Proof. unfold byte. pose proof (N_ascii_bounded c). lia. Qed.

Lemma testbit_byte_high b m : 0 <= b < 256 -> 8 <= m -> Z.testbit b m = false.
Proof.
  intros Hb Hm. destruct (Z.eq_dec b 0) as [->|N]; [apply Z.bits_0|].
  apply Z.bits_above_log2; [lia|].
  assert (Z.log2 b < 8) by (apply Z.log2_lt_pow2; lia). lia.
Qed.

Definition pack4 (b0 b1 b2 b3 : Z) : Z :=
  Z.lor b0 (Z.lor (Z.shiftl b1 8) (Z.lor (Z.shiftl b2 16) (Z.shiftl b3 24))).

Ltac byte_bits :=
  repeat match goal with
    | |- context [Z.testbit ?b ?m] =>
        first [ rewrite (testbit_byte_high b m) by (assumption || lia)
              | rewrite (Z.testbit_neg_r b m) by lia ]
    end.

Lemma pack4_byte b0 b1 b2 b3 :
  0 <= b0 < 256 -> 0 <= b1 < 256 -> 0 <= b2 < 256 -> 0 <= b3 < 256 ->
  Z.land (Z.shiftr (pack4 b0 b1 b2 b3) 0) 255 = b0
  /\ Z.land (Z.shiftr (pack4 b0 b1 b2 b3) 8) 255 = b1
  /\ Z.land (Z.shiftr (pack4 b0 b1 b2 b3) 16) 255 = b2
  /\ Z.land (Z.shiftr (pack4 b0 b1 b2 b3) 24) 255 = b3.
Proof.
  intros H0 H1 H2 H3. unfold pack4. change 255 with (Z.ones 8).
  repeat split; apply Z.bits_inj'; intros n Hn;
    rewrite Z.land_spec, Z.shiftr_spec, !Z.lor_spec, !Z.shiftl_spec by lia;
    (destruct (Z.ltb_spec n 8) as [L|L];
     [rewrite Z.ones_spec_low by lia|rewrite Z.ones_spec_high by lia]);
    rewrite ?andb_true_r, ?andb_false_r.
  all: try (symmetry; apply testbit_byte_high; assumption).
  - rewrite Z.add_0_r. byte_bits. rewrite !orb_false_r. reflexivity.
  - rewrite Z.add_simpl_r. byte_bits. rewrite ?orb_false_r. reflexivity.
  - rewrite (testbit_byte_high b0), (testbit_byte_high b1) by lia.
    replace (n + 16 - 16) with n by lia. byte_bits.
    rewrite ?orb_false_r. reflexivity.
  - rewrite (testbit_byte_high b0), (testbit_byte_high b1),
      (testbit_byte_high b2) by lia.
    replace (n + 24 - 24) with n by lia. reflexivity.
Qed.

Lemma u32_bytes_pack4 a b c d :
  u32_bytes (pack4 (byte a) (byte b) (byte c) (byte d)) = [a; b; c; d].
Proof.
  destruct (pack4_byte (byte a) (byte b) (byte c) (byte d)
              (byte_range a) (byte_range b) (byte_range c) (byte_range d))
    as (E0 & E1 & E2 & E3).
  unfold u32_bytes. cbn [map]. change (8 * 0) with 0. change (8 * 1) with 8.
  change (8 * 2) with 16. change (8 * 3) with 24.
  rewrite E0, E1, E2, E3. unfold byte. rewrite !N2Z.id, !ascii_N_embedding.
  reflexivity.
Qed.

Lemma length_u32_bytes w : length (u32_bytes w) = 4%nat.
Proof. reflexivity. Qed.

Lemma read_u32_pack4 a b c d rest :
  read_u32 (a :: b :: c :: d :: rest) 0 = pack4 (byte a) (byte b) (byte c) (byte d).
Proof. reflexivity. Qed.

Lemma read_chunk Data n :
  (4 * n + 4 <= length Data)%nat ->
  u32_bytes (read_u32 Data (Z.of_nat (4 * n))) = take 4 (drop (4 * n) Data).
Proof.
  intros Hl. unfold read_u32. rewrite Nat2Z.id.
  assert (Hd : (4 <= length (drop (4 * n) Data))%nat)
    by (rewrite length_drop; lia).
  destruct (drop (4 * n) Data) as [|a [|b [|c [|d r]]]]; simpl in Hd; try lia.
  cbn [nth take]. apply u32_bytes_pack4.
Qed.

Lemma full_words (Data : list ascii) n :
  (4 * n <= length Data)%nat ->
  concat (map (fun Idx => take 4 (drop (4 * Idx) Data)) (seq 0 n))
  = take (4 * n) Data.
Proof.
  induction n as [|n IH]; intros Hl; [reflexivity|].
  rewrite seq_S, map_app, concat_app, IH by lia. simpl.
  rewrite app_nil_r, take_take_drop. f_equal. lia.
Qed.

Section WriteOperandProperties.
Variable char_is_signed : bool.

(** The bytes a string is to be written as: its characters, then one to
    four null bytes up to the next multiple of four. *)
Definition string_bytes (str : string) : list ascii :=
  let Data := list_ascii_of_string str in
  Data ++ replicate (4 - length Data mod 4) zero.

Definition operand_bytes (o : SPIRVOperand) : list ascii :=
  match Type_ o with
  | NUMBERID => u32_bytes (getNumID o)
  | LITERAL_STRING => string_bytes (LiteralStr o)
  | LITERAL_INTEGER | LITERAL_FLOAT => concat (map u32_bytes (LiteralNum o))
  end.

(** The characters of the string do not change value when promoted to
    [int]: [char] is unsigned, or they are all below 128. *)
Definition plain_chars (str : string) : Prop :=
  char_is_signed = true ->
  Forall (fun c => byte c < 128) (list_ascii_of_string str).

Lemma char_to_int_plain c :
  (char_is_signed = true -> byte c < 128) ->
  char_to_int char_is_signed c = byte c.
Proof.
  unfold char_to_int. fold (byte c). intros H.
  destruct char_is_signed; [|reflexivity]. simpl.
  destruct (Z.leb_spec 128 (byte c)); [|reflexivity].
  specialize (H eq_refl). lia.
Qed.

Lemma LastWord_bytes (tail : list ascii) :
  (length tail < 4)%nat ->
  (char_is_signed = true -> Forall (fun c => byte c < 128) tail) ->
  u32_bytes
    (fold_left
       (fun LastWord Idx =>
          Z.lor LastWord
            (wrap32 (Z.shiftl (char_to_int char_is_signed (nth Idx tail zero))
                              (8 * Z.of_nat Idx))))
       (seq 0 (length tail)) 0)
  = tail ++ replicate (4 - length tail) zero.
Proof.
  intros Hl Hp.
  assert (Hc : forall c, c ∈ tail -> char_to_int char_is_signed c = byte c).
  { intros c Hin. apply char_to_int_plain. intros Hs.
    specialize (Hp Hs). rewrite Forall_forall in Hp. auto. }
  assert (Hw : forall b k, 0 <= b < 256 -> 0 <= k <= 16 ->
                 wrap32 (Z.shiftl b k) = Z.shiftl b k).
  { intros b k Hb Hk. apply wrap32_small. rewrite Z.shiftl_mul_pow2 by lia.
    assert (2 ^ k <= 2 ^ 16) by (apply Z.pow_le_mono_r; lia).
    assert (0 < 2 ^ k) by (apply Z.pow_pos_nonneg; lia). nia. }
  destruct tail as [|a [|b [|c [|d r]]]]; simpl in Hl; try lia;
    cbn [length seq fold_left nth Z.of_nat Pos.of_succ_nat Pos.succ Z.mul];
    cbn [replicate Nat.sub app].
  - reflexivity.
  - rewrite Hc by (left). rewrite Hw by (pose proof (byte_range a); lia).
    rewrite <- (u32_bytes_pack4 a zero zero zero). f_equal.
    unfold pack4. change (byte zero) with 0. rewrite !Z.shiftl_0_l.
    rewrite Z.shiftl_0_r. simpl. rewrite !Z.lor_0_r. reflexivity.
  - rewrite !Hc by (repeat constructor).
    rewrite !Hw by (pose proof (byte_range a); pose proof (byte_range b); lia).
    rewrite <- (u32_bytes_pack4 a b zero zero). f_equal.
    unfold pack4. change (byte zero) with 0. rewrite !Z.shiftl_0_l.
    rewrite Z.shiftl_0_r. simpl (Z.lor 0 _). rewrite !Z.lor_0_r. reflexivity.
  - rewrite !Hc by (repeat constructor).
    rewrite !Hw by (pose proof (byte_range a); pose proof (byte_range b);
                    pose proof (byte_range c); lia).
    rewrite <- (u32_bytes_pack4 a b c zero). f_equal.
    unfold pack4. change (byte zero) with 0. rewrite !Z.shiftl_0_l.
    rewrite Z.shiftl_0_r. simpl (Z.lor 0 _). rewrite !Z.lor_0_r.
    rewrite Z.lor_assoc. reflexivity.
Qed.

Lemma fold_left_ext {A B} (f g : A -> B -> A) l : forall a,
  (forall a x, f a x = g a x) -> fold_left f l a = fold_left g l a.
Proof.
  induction l as [|x l IH]; intros a H; simpl; [reflexivity|].
  rewrite H. apply IH, H.
Qed.

Lemma nth_drop {A} (l : list A) n i d : nth (n + i) l d = nth i (drop n l) d.
Proof.
  revert l. induction n as [|n IH]; intros l; [reflexivity|].
  destruct l as [|x l]; simpl; [destruct i; reflexivity|apply IH].
Qed.

Lemma WriteOperand_string o :
  Type_ o = LITERAL_STRING ->
  Z.of_nat (String.length (LiteralStr o)) < 2 ^ 32 ->
  plain_chars (LiteralStr o) ->
  wrote (string_bytes (LiteralStr o)) (WriteOperand char_is_signed o).
Proof.
  intros HT Hlen Hp. unfold WriteOperand. rewrite HT.
  set (str := LiteralStr o) in *.
  unfold string_bytes, plain_chars in *.
  set (Data := list_ascii_of_string str) in *.
  assert (HD : length Data = String.length str).
  { subst Data. clear. induction str; simpl; congruence. }
  pose proof (Nat.div_mod_eq (length Data) 4) as Hdm.
  pose proof (Nat.mod_upper_bound (length Data) 4 ltac:(lia)) as Hm.
  set (WordSize := (length Data / 4)%nat) in *.
  set (Remainder := (length Data mod 4)%nat) in *.
  replace (Data ++ replicate (4 - Remainder) zero)
    with (take (4 * WordSize) Data
          ++ (drop (4 * WordSize) Data ++ replicate (4 - Remainder) zero))
    by (rewrite app_assoc, take_drop; reflexivity).
  apply wrote_bind.
  - rewrite <- full_words by lia.
    apply wrote_forM_. apply Forall_forall. intros Idx Hin.
    apply elem_of_seq in Hin.
    rewrite wrap32_small by lia.
    replace (4 * Z.of_nat Idx) with (Z.of_nat (4 * Idx)) by lia.
    rewrite <- read_chunk by lia. apply WriteOneWord_wrote.
  - assert (Hlt : length (drop (4 * WordSize) Data) = Remainder)
      by (rewrite length_drop; lia).
    rewrite <- Hlt.
    rewrite <- (LastWord_bytes (drop (4 * WordSize) Data)).
    + erewrite fold_left_ext; [apply WriteOneWord_wrote|].
      intros a x. cbv beta. rewrite nth_drop. reflexivity.
    + lia.
    + intros Hs. apply Forall_drop, Hp, Hs.
Qed.


Lemma length_string_bytes str :
  Z.of_nat (length (string_bytes str))
  = 4 * ((Z.of_nat (String.length str) + 4) / 4).
Proof.
  unfold string_bytes.
  assert (HD : length (list_ascii_of_string str) = String.length str).
  { induction str; simpl; congruence. }
  rewrite length_app, length_replicate, HD.
  set (n := String.length str).
  pose proof (Nat.div_mod_eq n 4) as Hdm.
  pose proof (Nat.mod_upper_bound n 4 ltac:(lia)) as Hm.
  replace (Z.of_nat n + 4) with ((Z.of_nat (n / 4) + 1) * 4 + Z.of_nat (n mod 4))
    by lia.
  rewrite Z.div_add_l by lia. rewrite Z.div_small by lia. lia.
Qed.

Lemma length_words_bytes ws :
  Z.of_nat (length (concat (map u32_bytes ws))) = 4 * Z.of_nat (length ws).
Proof.
  induction ws as [|w ws IH]; [reflexivity|].
  cbn [map concat length]. rewrite length_app, length_u32_bytes. lia.
Qed.

(** An operand the writer has a defined result for. *)
Definition operand_ok (o : SPIRVOperand) : Prop :=
  match Type_ o with
  | NUMBERID => LiteralNum o <> []
  | LITERAL_STRING => plain_chars (LiteralStr o)
  | LITERAL_INTEGER | LITERAL_FLOAT => True
  end.

(** X1: an operand the writer has a defined result for is written as the
    bytes [operand_bytes] gives: an id as one word, a literal number as its
    words, a string as its characters followed by one to four null bytes up
    to the next multiple of four; and the number of bytes written is four
    times [GetNumWords], the count the instruction's word count is made
    of. *)
Theorem WriteOperand_writes_GetNumWords_words (o : SPIRVOperand) :
  operand_ok o ->
  operand_words o < 2 ^ 16 ->
  wrote (operand_bytes o) (WriteOperand char_is_signed o)
  /\ Z.of_nat (length (operand_bytes o)) = 4 * GetNumWords o.
Proof.
  intros Hok Hb. rewrite (GetNumWords_small o Hb).
  unfold operand_ok, operand_bytes, operand_words in *.
  destruct (Type_ o) eqn:HT.
  - split; [|reflexivity]. unfold WriteOperand, getNumID. rewrite HT.
    destruct (LiteralNum o) as [|n r]; [contradiction|].
    apply WriteOneWord_wrote.
  - split.
    + unfold WriteOperand. rewrite HT. apply wrote_forM_.
      apply Forall_forall. intros w _. apply WriteOneWord_wrote.
    + apply length_words_bytes.
  - rewrite ceil_div4_plus1 in Hb |- * by lia. split.
    + apply WriteOperand_string; [exact HT| |exact Hok].
      set (n := Z.of_nat (String.length (LiteralStr o))) in *.
      destruct (Z_lt_ge_dec n (2 ^ 32)) as [?|Hge]; [assumption|exfalso].
      assert (2 ^ 16 <= (n + 4) / 4) by (apply Z.div_le_lower_bound; lia).
      lia.
    + apply length_string_bytes.
  - split.
    + unfold WriteOperand. rewrite HT. apply wrote_forM_.
      apply Forall_forall. intros w _. apply WriteOneWord_wrote.
    + apply length_words_bytes.
Qed.

(** *** Instructions *)

Lemma Op_value_range o : 0 <= Op_value o < 2 ^ 16.
Proof. destruct o; cbn; lia. Qed.

(** The first word of an instruction as the writer composes it. *)
Definition first_word (Inst : SPIRVInstruction) : Z :=
  Z.lor (Op_value (Opcode Inst)) (wrap32 (Z.shiftl (WordCount Inst) 16)).

Lemma first_word_decode v wc :
  0 <= v < 2 ^ 16 -> 0 <= wc < 2 ^ 16 ->
  let w := Z.lor v (wrap32 (Z.shiftl wc 16)) in
  0 <= w < 2 ^ 32 /\ Z.shiftr w 16 = wc /\ Z.land w (Z.ones 16) = v.
Proof.
  intros Hv Hwc w.
  assert (Hs : wrap32 (Z.shiftl wc 16) = Z.shiftl wc 16).
  { apply wrap32_small. rewrite Z.shiftl_mul_pow2 by lia.
    change (2 ^ 32) with (2 ^ 16 * 2 ^ 16). nia. }
  assert (E1 : Z.shiftr w 16 = wc).
  { unfold w. rewrite Hs, Z.shiftr_lor, Z.shiftr_shiftl_l by lia.
    rewrite Z.sub_diag, Z.shiftl_0_r, Z.shiftr_div_pow2 by lia.
    rewrite Z.div_small by lia. reflexivity. }
  assert (E2 : Z.land w (Z.ones 16) = v).
  { unfold w. rewrite Hs, Z.land_lor_distr_l, !Z.land_ones by lia.
    rewrite Z.shiftl_mul_pow2 by lia. rewrite Z.mod_mul by lia.
    rewrite Z.mod_small by lia. apply Z.lor_0_r. }
  split; [|auto].
  assert (0 <= w) by (unfold w; rewrite Hs; apply Z.lor_nonneg; split;
                      [lia|apply Z.shiftl_nonneg; lia]).
  rewrite Z.shiftr_div_pow2 in E1 by lia. rewrite Z.land_ones in E2 by lia.
  pose proof (Z.div_mod w (2 ^ 16) ltac:(lia)) as D.
  rewrite E1, E2 in D. change (2 ^ 32) with (2 ^ 16 * 2 ^ 16). nia.
Qed.

(** The bytes of an instruction: the first word, then the result id and
    the operands in the order of the opcode's shape. *)
Definition inst_bytes (Inst : SPIRVInstruction) : list ascii :=
  u32_bytes (first_word Inst)
  ++ match WriteSPIRVBinary_layout (Opcode Inst), Operands Inst with
     | Some NoResultID, Ops => concat (map operand_bytes Ops)
     | Some ResultIDFirst, Ops =>
         u32_bytes (ResultID Inst) ++ concat (map operand_bytes Ops)
     | Some ResultIDSecond, Op0 :: rest =>
         operand_bytes Op0 ++ u32_bytes (ResultID Inst)
         ++ concat (map operand_bytes rest)
     | _, _ => []
     end.

Definition has_ResultID (L : Layout) : bool :=
  match L with NoResultID => false | _ => true end.

(** An instruction made by the constructor that fits the shape its opcode
    is written in, with operands the writer has a defined result for, and
    small enough for its word count. *)
Definition built_for_writer (Inst : SPIRVInstruction) : Prop :=
  exists L,
    WriteSPIRVBinary_layout (Opcode Inst) = Some L
    /\ construct (Opcode Inst)
         (if has_ResultID L then Some (ResultID Inst) else None)
         (Operands Inst) = OK Inst
    /\ (L = ResultIDSecond -> Operands Inst <> [])
    /\ Forall operand_ok (Operands Inst)
    /\ instruction_words (has_ResultID L) (Operands Inst) < 2 ^ 16.

Lemma operands_wrote Ops :
  Forall operand_ok Ops ->
  sum_operand_words Ops < 2 ^ 16 ->
  wrote (concat (map operand_bytes Ops))
        (forM_ Ops (WriteOperand char_is_signed))
  /\ Z.of_nat (length (concat (map operand_bytes Ops)))
     = 4 * sum_operand_words Ops.
Proof.
  induction 1 as [|o Ops Ho _ IH]; intros Hb; simpl in *.
  - split; [apply wrote_ret|reflexivity].
  - pose proof (operand_words_nonneg o).
    pose proof (sum_operand_words_nonneg Ops).
    destruct (WriteOperand_writes_GetNumWords_words o Ho ltac:(lia))
      as [W1 L1].
    rewrite (GetNumWords_small o ltac:(lia)) in L1.
    destruct (IH ltac:(lia)) as [W2 L2]. split.
    + apply wrote_bind; assumption.
    + rewrite length_app. lia.
Qed.

Lemma built_WordCount Inst L :
  construct (Opcode Inst)
    (if has_ResultID L then Some (ResultID Inst) else None)
    (Operands Inst) = OK Inst ->
  instruction_words (has_ResultID L) (Operands Inst) < 2 ^ 16 ->
  WordCount Inst = instruction_words (has_ResultID L) (Operands Inst).
Proof.
  unfold construct, instruction_words. intros Hc Hb.
  pose proof (sum_operand_words_nonneg (Operands Inst)).
  destruct (has_ResultID L).
  - apply NewInstRes_OK in Hc as [_ Hc].
    apply (f_equal WordCount) in Hc. cbn in Hc. rewrite Hc.
    apply addWordCounts_small; lia.
  - injection Hc as Hc. apply (f_equal WordCount) in Hc. cbn in Hc.
    rewrite <- Hc. apply addWordCounts_small; lia.
Qed.

(** X2: an instruction made by the constructor that fits its opcode is
    written in exactly [WordCount] words: the first word holds the word
    count in its upper half and the opcode in its lower half, the result
    id comes next, or after the first operand for the opcodes that have a
    result type, and the operands follow. *)
Theorem WriteSPIRVBinary_inst_writes_WordCount_words (Inst : SPIRVInstruction)
    (rest : list ascii) :
  built_for_writer Inst ->
  wrote (inst_bytes Inst) (WriteSPIRVBinary_inst char_is_signed Inst)
  /\ Z.of_nat (length (inst_bytes Inst)) = 4 * WordCount Inst
  /\ Z.shiftr (read_u32 (inst_bytes Inst ++ rest) 0) 16 = WordCount Inst
  /\ Z.land (read_u32 (inst_bytes Inst ++ rest) 0) (Z.ones 16)
     = Op_value (Opcode Inst).
Proof.
  intros (L & HL & Hc & Hne & Hok & Hb).
  pose proof (built_WordCount Inst L Hc Hb) as HW.
  pose proof (sum_operand_words_nonneg (Operands Inst)) as Hs.
  assert (Hwc : 0 <= WordCount Inst < 2 ^ 16).
  { rewrite HW. unfold instruction_words in *. destruct (has_ResultID L); lia. }
  destruct (first_word_decode _ _ (Op_value_range (Opcode Inst)) Hwc)
    as (Hr & Hsh & Hla).
  fold (first_word Inst) in Hr, Hsh, Hla.
  assert (Hfirst : read_u32 (inst_bytes Inst ++ rest) 0 = first_word Inst).
  { unfold inst_bytes. rewrite <- app_assoc.
    apply (read_u32_bytes [] (first_word Inst)). exact Hr. }
  rewrite Hfirst. split; [|split; [|auto]].
  - unfold WriteSPIRVBinary_inst, inst_bytes. rewrite HL.
    unfold instruction_words in Hb.
    destruct L; cbn [has_ResultID] in *.
    + destruct (operands_wrote (Operands Inst) Hok ltac:(lia)) as [W _].
      apply wrote_bind; [apply WriteOneWord_wrote|exact W].
    + destruct (operands_wrote (Operands Inst) Hok ltac:(lia)) as [W _].
      apply wrote_bind; [apply WriteOneWord_wrote|].
      apply wrote_bind; [apply WriteOneWord_wrote|exact W].
    + destruct (Operands Inst) as [|Op0 Ops] eqn:EO;
        [contradiction Hne; reflexivity|].
      apply Forall_cons in Hok as [Ho Hok]. simpl in Hb.
      pose proof (operand_words_nonneg Op0).
      pose proof (sum_operand_words_nonneg Ops).
      destruct (WriteOperand_writes_GetNumWords_words Op0 Ho ltac:(lia))
        as [W0 _].
      destruct (operands_wrote Ops Hok ltac:(lia)) as [W _].
      apply wrote_bind; [apply WriteOneWord_wrote|].
      apply wrote_bind; [exact W0|].
      apply wrote_bind; [apply WriteOneWord_wrote|exact W].
  - rewrite HW. unfold inst_bytes, instruction_words in *. rewrite HL.
    destruct L; cbn [has_ResultID] in *.
    + destruct (operands_wrote (Operands Inst) Hok ltac:(lia)) as [_ Hlen].
      rewrite length_app, length_u32_bytes. lia.
    + destruct (operands_wrote (Operands Inst) Hok ltac:(lia)) as [_ Hlen].
      rewrite !length_app, !length_u32_bytes. lia.
    + destruct (Operands Inst) as [|Op0 Ops] eqn:EO;
        [contradiction Hne; reflexivity|].
      apply Forall_cons in Hok as [Ho Hok]. simpl in Hb.
      change (sum_operand_words (Op0 :: Ops))
        with (operand_words Op0 + sum_operand_words Ops).
      pose proof (operand_words_nonneg Op0).
      pose proof (sum_operand_words_nonneg Ops).
      destruct (WriteOperand_writes_GetNumWords_words Op0 Ho ltac:(lia))
        as [_ L0].
      rewrite (GetNumWords_small Op0 ltac:(lia)) in L0.
      destruct (operands_wrote Ops Hok ltac:(lia)) as [_ Hlen].
      rewrite !length_app, !length_u32_bytes. lia.
Qed.

(** *** The stream *)

(** Reading the stream back: the word count in the upper half of the first
    word tells where the next instruction starts. *)
Fixpoint split_stream (fuel : nat) (bs : list ascii) : list (list ascii) :=
  match fuel with
  | O => []
  | S fuel' =>
      match bs with
      | [] => []
      | _ :: _ =>
          let n := (4 * Z.to_nat (Z.shiftr (read_u32 bs 0) 16))%nat in
          take n bs :: split_stream fuel' (drop n bs)
      end
  end.

Lemma split_stream_cons n bs :
  bs <> [] ->
  split_stream (S n) bs
  = take (4 * Z.to_nat (Z.shiftr (read_u32 bs 0) 16)) bs
    :: split_stream n (drop (4 * Z.to_nat (Z.shiftr (read_u32 bs 0) 16)) bs).
Proof. destruct bs; [contradiction|reflexivity]. Qed.

Lemma split_stream_insts Insts :
  Forall built_for_writer Insts ->
  split_stream (length Insts) (concat (map inst_bytes Insts))
  = map inst_bytes Insts.
Proof.
  induction 1 as [|Inst Insts HI _ IH]; [reflexivity|].
  cbn [length map concat].
  destruct (WriteSPIRVBinary_inst_writes_WordCount_words Inst
              (concat (map inst_bytes Insts)) HI) as (_ & Hlen & Hsh & _).
  assert (Hn : (4 * Z.to_nat (WordCount Inst))%nat = length (inst_bytes Inst))
    by lia.
  rewrite split_stream_cons.
  - rewrite Hsh, Hn, take_app_length, drop_app_length, IH. reflexivity.
  - intros E. apply (f_equal length) in E. rewrite length_app in E.
    unfold inst_bytes in E. rewrite length_app, length_u32_bytes in E.
    cbn [length] in E. lia.
Qed.

(** X3: [WriteSPIRVBinary] appends the bytes of the instructions of the
    list, in order, to the binary stream and changes nothing else; the
    stream can be cut back into the instructions by the word counts in
    their first words, and its length is four times the sum of the word
    counts. *)
Theorem WriteSPIRVBinary_stream (s : Pass) :
  Forall built_for_writer (insts s) ->
  WriteSPIRVBinary char_is_signed s
  = OK (tt, set_binaryOut
              (binaryOut s ++ concat (map inst_bytes (insts s))) s)
  /\ split_stream (length (insts s)) (concat (map inst_bytes (insts s)))
     = map inst_bytes (insts s)
  /\ Z.of_nat (length (concat (map inst_bytes (insts s))))
     = 4 * fold_right (fun Inst n => WordCount Inst + n) 0 (insts s).
Proof.
  intros Hall. split; [|split].
  - unfold WriteSPIRVBinary, bind, gets.
    apply (wrote_forM_ inst_bytes). eapply Forall_impl; [exact Hall|].
    intros Inst HI. cbv beta.
    apply (WriteSPIRVBinary_inst_writes_WordCount_words Inst [] HI).
  - apply split_stream_insts, Hall.
  - induction Hall as [|Inst Insts HI _ IH]; [reflexivity|].
    cbn [map concat fold_right]. rewrite length_app.
    destruct (WriteSPIRVBinary_inst_writes_WordCount_words Inst [] HI)
      as (_ & Hlen & _). lia.
Qed.

Lemma forM__Abort {A} (body : A -> M unit) xs :
  (exists x, x ∈ xs /\ forall s, exists msg, body x s = Abort msg) ->
  forall s, exists msg, forM_ xs body s = Abort msg.
Proof.
  intros (x & Hin & Hx). induction xs as [|y xs IH]; intros s.
  - inversion Hin.
  - simpl. unfold bind. destruct (body y s) as [[[] s1]|msg] eqn:E; [|eauto].
    apply elem_of_cons in Hin as [->|Hin].
    + destruct (Hx s) as [msg Hm]. congruence.
    + apply IH, Hin.
Qed.

(** X4: if the list holds an instruction whose opcode the writer has no
    case for, [WriteSPIRVBinary] stops the translation, wherever the
    instruction is in the list. *)
Theorem WriteSPIRVBinary_unsupported_opcode (Inst : SPIRVInstruction)
    (s : Pass) :
  Inst ∈ insts s ->
  WriteSPIRVBinary_layout (Opcode Inst) = None ->
  exists msg, WriteSPIRVBinary char_is_signed s = Abort msg.
Proof.
  intros Hin HL. unfold WriteSPIRVBinary, bind, gets.
  apply forM__Abort. exists Inst. split; [exact Hin|].
  intros s1. unfold WriteSPIRVBinary_inst. rewrite HL. eexists. reflexivity.
Qed.

End WriteOperandProperties.

(** The import of the extended instruction set, as [GenerateExtInstImport]
    makes it, and a list with it in front of two types. *)
Definition import_example : SPIRVInstruction :=
  mkSPIRVInstruction 6 OpExtInstImport 1 [MkString "GLSL.std.450"].

Definition writer_example_Pass : Pass :=
  set_SPIRVInsts
    [mkNode 0 import_example;
     mkNode 1 (mkSPIRVInstruction 4 OpTypeInt 2 [MkNum 32; MkNum 0]);
     mkNode 2 (mkSPIRVInstruction 4 OpTypePointer 3 [MkNum 12; MkId 2]);
     mkNode 3 (NewInst OpFunctionEnd [])]
    initial_Pass.

Lemma plain_chars_example : plain_chars true "GLSL.std.450".
Proof. intros _. repeat (constructor; [reflexivity|]). constructor. Qed.

Ltac built_for_writer_solve :=
  eexists; split; [reflexivity|]; split; [reflexivity|];
  split; [try discriminate; intros _; discriminate|];
  split; [repeat (constructor; try exact I; try discriminate;
                  try exact plain_chars_example)
         |reflexivity].

Lemma built_for_writer_example :
  Forall (built_for_writer true) (insts writer_example_Pass).
Proof. repeat (constructor; [built_for_writer_solve|]). constructor. Qed.

Lemma WriteOperand_writes_GetNumWords_words_witness :
  wrote (list_ascii_of_string "GLSL.std.450" ++ [zero; zero; zero; zero])
        (WriteOperand true (MkString "GLSL.std.450"))
  /\ Z.of_nat (length (operand_bytes (MkString "GLSL.std.450")))
     = 4 * GetNumWords (MkString "GLSL.std.450").
Proof.
  apply (WriteOperand_writes_GetNumWords_words true
           (MkString "GLSL.std.450")).
  - exact plain_chars_example.
  - reflexivity.
Defined.

Lemma WriteSPIRVBinary_inst_writes_WordCount_words_witness :
  wrote (inst_bytes import_example) (WriteSPIRVBinary_inst true import_example)
  /\ Z.of_nat (length (inst_bytes import_example)) = 4 * 6
  /\ Z.shiftr (read_u32 (inst_bytes import_example ++ []) 0) 16 = 6
  /\ Z.land (read_u32 (inst_bytes import_example ++ []) 0) (Z.ones 16) = 11.
Proof.
  apply (WriteSPIRVBinary_inst_writes_WordCount_words true import_example []).
  built_for_writer_solve.
Defined.

Lemma WriteSPIRVBinary_stream_witness :
  WriteSPIRVBinary true writer_example_Pass
  = OK (tt, set_binaryOut
              (binaryOut writer_example_Pass
               ++ concat (map inst_bytes (insts writer_example_Pass)))
              writer_example_Pass)
  /\ split_stream 4 (concat (map inst_bytes (insts writer_example_Pass)))
     = map inst_bytes (insts writer_example_Pass)
  /\ Z.of_nat (length (concat (map inst_bytes (insts writer_example_Pass))))
     = 4 * (6 + (4 + (4 + (1 + 0)))).
Proof.
  apply (WriteSPIRVBinary_stream true writer_example_Pass).
  exact built_for_writer_example.
Defined.

Lemma WriteSPIRVBinary_unsupported_opcode_witness :
  exists msg,
    WriteSPIRVBinary false
      (set_SPIRVInsts [mkNode 0 import_example; mkNode 1 (NewInst OpNop [])]
         initial_Pass)
    = Abort msg.
Proof.
  apply (WriteSPIRVBinary_unsupported_opcode false (NewInst OpNop [])).
  - right. left.
  - reflexivity.
Defined.

(** * Further properties of the generators *)

(** ** The type table after type emission *)

Ltac TypeMap_keeps_entries :=
  let k := fresh "k" in
  let v := fresh "v" in
  let Hk := fresh "Hk" in
  intros k v Hk; cbn; first [ exact Hk | apply at__grows; exact Hk ].

(** X5: once type emission has run to its end, every type of the type list
    has an id in the type map, and [lookupType] yields it without stopping
    for every listed type that is not a pointer to an opaque struct. *)
Theorem listed_types_have_ids (ArgGVMap : list (Argument * Ty))
    (DL : DataLayout) (Types : list Ty) (Images : list (Ty * Z))
    (LocalArgs : list LocalArgInfo) (s : Pass) (imgs : list (Ty * Z))
    (s' : Pass) :
  GenerateSPIRVTypes ArgGVMap DL Types Images LocalArgs s = OK (imgs, s') ->
  forall T, T ∈ Types ->
    exists id,
      TypeMap s' !! T = Some id
      /\ (isOpaqueStruct (getPointerElementType T) = false ->
          lookupType T s' = OK (id, s')).
Proof.
  intros H. unfold GenerateSPIRVTypes in H.
  apply bind_OK in H as ([] & s1 & Hloop & Htail).
  assert (Hg : TypeMap_grows s1 s').
  { revert Htail.
    match goal with |- ?m s1 = _ -> _ =>
      assert (Hr : respects TypeMap_grows m) end.
    { repeat respects_step; TypeMap_keeps_entries. }
    apply Hr. }
  assert (HM : forall T, T ∈ Types -> is_Some (TypeMap s1 !! T)).
  { clear Htail Hg. revert Hloop. generalize (∅ : gmap Ty Z) as orm.
    revert s. induction Types as [|T0 Types IH]; intros s orm Hloop T HT.
    - inversion HT.
    - simpl in Hloop. apply bind_OK in Hloop as (orm1 & s0 & H1 & H2).
      apply elem_of_cons in HT as [->|HT].
      + eapply loop_dom; [exact H2|]. eapply step_mapped. exact H1.
      + eapply IH; eassumption. }
  intros T HT. destruct (HM T HT) as [id Hid]. exists id.
  split; [apply Hg, Hid|]. intros Ho. apply lookupType_plain; [exact Ho|].
  apply Hg, Hid.
Qed.

Lemma listed_types_have_ids_witness :
  exists id,
    TypeMap after_types_example !! PointerTy i32 AddressSpace.Constant
    = Some id
    /\ lookupType (PointerTy i32 AddressSpace.Constant) after_types_example
       = OK (id, after_types_example).
Proof.
  destruct (listed_types_have_ids [] DL_example Types_example [] []
              initial_Pass [] after_types_example
              ltac:(vm_compute; reflexivity)
              (PointerTy i32 AddressSpace.Constant)) as (id & H1 & H2).
  - unfold Types_example. repeat constructor.
  - exists id. split; [exact H1|]. apply H2. reflexivity.
Defined.

(** ** The instruction list while deferred instructions are resolved *)

(** The nodes of the list are kept, in their order: instructions are only
    added. *)
Definition nodes_kept : relation Pass :=
  fun s s' => SPIRVInsts s `sublist_of` SPIRVInsts s'
              /\ (nextNode s <= nextNode s')%nat.

Global Instance nodes_kept_preorder : PreOrder nodes_kept.
Proof.
  split.
  - intros s. split; [reflexivity|lia].
  - intros a b c [H1 L1] [H2 L2]. split; [etransitivity; eassumption|lia].
Qed.

Lemma one_more_sublist (n : Node) l l' : one_more n l l' -> l `sublist_of` l'.
Proof.
  intros (l1 & l2 & -> & ->). apply sublist_app; [reflexivity|].
  apply sublist_cons. reflexivity.
Qed.

Ltac nodes_kept_solve :=
  cbn; unfold nodes_kept; cbn;
  first [ split; [reflexivity|lia]
        | split; [eapply one_more_sublist; eassumption|lia] ].

Section DeferredOrder.
Variable getAnalysis : string -> FunctionAnalyses.
Variable getExtInstEnum : string -> Z.
Variable getIndirectExtInstEnum : string -> Z.
Variable ExtInstImportID : Z.

Lemma one_nodes_kept d :
  respects nodes_kept
    (HandleDeferredInstruction_one getAnalysis getExtInstEnum
       getIndirectExtInstEnum ExtInstImportID d).
Proof.
  unfold HandleDeferredInstruction_one, HandleDeferred_Branch,
    HandleDeferred_PHI, HandleDeferred_Call, VMap_ids. cbv zeta.
  repeat (first [progress respects_step | progress unfold insertRes]);
    try nodes_kept_solve.
Qed.

(** X6: resolving the deferred instructions only adds instructions: the
    nodes the list held are all still in it, in the same order, so an
    iterator stored for an entry that is resolved later still denotes its
    node. *)
Theorem HandleDeferredInstruction_keeps_nodes (s s' : Pass) :
  HandleDeferredInstruction getAnalysis getExtInstEnum
    getIndirectExtInstEnum ExtInstImportID s = OK (tt, s') ->
  SPIRVInsts s `sublist_of` SPIRVInsts s'
  /\ forall a, a ∈ map addr (SPIRVInsts s) -> a ∈ map addr (SPIRVInsts s').
Proof.
  intros H.
  assert (R : respects nodes_kept
                (HandleDeferredInstruction getAnalysis getExtInstEnum
                   getIndirectExtInstEnum ExtInstImportID)).
  { unfold HandleDeferredInstruction. apply respects_bind.
    - apply respects_gets.
    - intros ds. apply respects_forM_. intros d _. apply one_nodes_kept. }
  destruct (R _ _ _ H) as [Hs _]. split; [exact Hs|].
  intros a Ha. eapply elem_of_sublist; [exact Ha|].
  apply (fmap_sublist addr). exact Hs.
Qed.

(** The OpSelectionMerge of a conditional branch: the merge block is the
    second successor. *)
Definition selection_merge (m : gmap Value Z) (Br : BranchInst)
  : SPIRVInstruction :=
  NewInst OpSelectionMerge
    [MkId (VMap_read m (VBasicBlock (nth 1 (Br_getSuccessors Br) 0)));
     MkNum spv.SelectionControlMaskNone].

(** Whether a branch outside a loop header gets a selection merge: it is
    conditional and none of its successors is a loop header. *)
Definition needs_selection_merge (A : FunctionAnalyses) (Br : BranchInst)
  : bool :=
  Br_isConditional Br
  && negb (existsb (LI_isLoopHeader A) (Br_getSuccessors Br)).

(** X7: a deferred branch whose block is not a loop header.  If the branch
    is conditional and no successor is a loop header, an OpSelectionMerge
    naming the second successor is inserted immediately before the branch;
    otherwise the branch alone is inserted. *)
Theorem branch_outside_loop_header (d : DeferredInst) (Br : BranchInst)
    (s : Pass) (front rest : list Node) :
  let A := getAnalysis (Br_getFunction Br) in
  DI_Inst d = IBranch Br ->
  SPIRVInsts s = front ++ rest ->
  fresh_nodes s ->
  deferred_at (DI_InsertPoint d) front rest ->
  LI_isLoopHeader A (Br_getParent Br) = false ->
  exists s',
    HandleDeferredInstruction_one getAnalysis getExtInstEnum
      getIndirectExtInstEnum ExtInstImportID d s = OK (tt, s')
    /\ SPIRVInsts s'
       = front
         ++ (if needs_selection_merge A Br
             then [mkNode (nextNode s) (selection_merge (ValueMap s) Br);
                   mkNode (S (nextNode s)) (branch_inst (ValueMap s) Br)]
             else [mkNode (nextNode s) (branch_inst (ValueMap s) Br)])
         ++ rest.
Proof.
  intros A Hd E Hf Hat Hh.
  rewrite (HandleDeferredInstruction_one_at _ _ _ _ d s front rest E);
    [|apply Hf|exact Hat].
  rewrite Hd. unfold HandleDeferred_Branch. fold A. rewrite Hh.
  unfold needs_selection_merge.
  destruct (Br_isConditional Br && negb (existsb (LI_isLoopHeader A)
                                           (Br_getSuccessors Br))) eqn:Em.
  - apply andb_prop in Em as [Ec Eb]. rewrite Ec.
    apply negb_true_iff in Eb. rewrite Eb. cbn [negb].
    destruct (VMap_at_run (VBasicBlock (nth 1 (Br_getSuccessors Br) 0)) s)
      as (s1 & R1 & S1).
    destruct (list_insert_run front rest (selection_merge (ValueMap s) Br) s1)
      as (s2 & R2 & L2 & N2 & V2 & _ & _ & F2).
    { destruct S1 as (-> & _). exact E. }
    { eapply same_list_fresh; eassumption. }
    destruct (branch_tail
                (front ++ [mkNode (nextNode s1)
                             (selection_merge (ValueMap s) Br)])
                rest Br s2) as (s' & R & L).
    { rewrite L2, <- app_assoc. reflexivity. }
    { exact F2. }
    exists s'. split.
    + unfold bind at 1. unfold bind at 1. rewrite R1.
      fold (selection_merge (ValueMap s) Br). rewrite R2. exact R.
    + rewrite L, <- app_assoc. simpl. rewrite N2.
      destruct S1 as (_ & -> & _ & _ & V1).
      assert (EB : branch_inst (ValueMap s2) Br = branch_inst (ValueMap s) Br).
      { rewrite V2. destruct Br; simpl; rewrite !V1; reflexivity. }
      rewrite EB. reflexivity.
  - destruct (branch_tail front rest Br s E Hf) as (s' & R & L).
    exists s'. split; [|rewrite L; reflexivity].
    destruct (Br_isConditional Br); cbn [andb] in Em |- *.
    + apply negb_false_iff in Em. rewrite Em. cbn [negb].
      unfold bind at 1. unfold ret at 1. exact R.
    + unfold bind at 1. unfold ret at 1. exact R.
Qed.

End DeferredOrder.

Definition deferred_example_Pass : Pass :=
  set_DeferredInstVec
    [mkDeferredInst (IBranch branch_example) (It 0%nat) 0] loop_example_Pass.

Lemma HandleDeferredInstruction_keeps_nodes_witness :
  loop_front_example ++ loop_rest_example
    `sublist_of`
    SPIRVInsts
      (final_state
         (HandleDeferredInstruction analyses_example (fun _ => 0)
            (fun _ => 0) 0 deferred_example_Pass) deferred_example_Pass).
Proof.
  apply (HandleDeferredInstruction_keeps_nodes analyses_example (fun _ => 0)
           (fun _ => 0) 0 deferred_example_Pass
           (final_state
              (HandleDeferredInstruction analyses_example (fun _ => 0)
                 (fun _ => 0) 0 deferred_example_Pass)
              deferred_example_Pass)).
  vm_compute. reflexivity.
Defined.

(** A conditional branch in block 2 of the loop example to blocks 3 and 4,
    none of which is a loop header. *)
Lemma branch_outside_loop_header_witness :
  exists s',
    HandleDeferredInstruction_one analyses_example (fun _ => 0) (fun _ => 0) 0
      (mkDeferredInst (IBranch (BrCond 2 "kernel" (VInstruction 7) 3 4))
                      (It 0%nat) 0)
      loop_example_Pass
    = OK (tt, s')
    /\ map inst (SPIRVInsts s')
       = map inst loop_front_example
         ++ [NewInst OpSelectionMerge [MkId 14; MkNum 0];
             NewInst OpBranchConditional [MkId 22; MkId 13; MkId 14]]
         ++ map inst loop_rest_example.
Proof.
  assert (Hf : fresh_nodes loop_example_Pass).
  { split.
    - apply (bool_decide_unpack _). vm_compute. exact I.
    - repeat constructor. }
  assert (Hat : deferred_at (It 0%nat) loop_front_example loop_rest_example).
  { exists [], (mkNode 0 (mkSPIRVInstruction 2 OpLabel 11 [])),
      [mkNode 1 (mkSPIRVInstruction 5 OpPhi 20 [MkId 3; MkId 21; MkId 13])].
    repeat split. repeat constructor. }
  destruct (branch_outside_loop_header analyses_example (fun _ => 0)
              (fun _ => 0) 0
              (mkDeferredInst (IBranch (BrCond 2 "kernel" (VInstruction 7) 3 4))
                              (It 0%nat) 0)
              (BrCond 2 "kernel" (VInstruction 7) 3 4) loop_example_Pass
              loop_front_example loop_rest_example
              eq_refl eq_refl Hf Hat eq_refl) as (s' & R & L).
  exists s'. split; [exact R|]. rewrite L. reflexivity.
Defined.

(** ** Kernels with and without a required workgroup size *)

(** Once a size is recorded, [true] is in [HasMDVec]. *)
Definition HasMD_recorded (st : WGState) : Prop :=
  PrevDimCst st <> unset_dims -> true ∈ HasMDVec st.

Lemma kernel_HasMDVec Ty_ st Func s st' s' :
  GenerateGlobalVar_kernel Ty_ st Func s = OK (st', s') ->
  HasMD_recorded st ->
  HasMD_recorded st'
  /\ (forall b, b ∈ HasMDVec st -> b ∈ HasMDVec st')
  /\ (is_kernel Func -> F_reqd_work_group_size Func = None ->
      false ∈ HasMDVec st')
  /\ (is_kernel Func -> F_reqd_work_group_size Func <> None ->
      true ∈ HasMDVec st').
Proof.
  unfold GenerateGlobalVar_kernel, HasMD_recorded, is_kernel. intros H Inv.
  destruct (F_isDeclaration Func) eqn:Ed.
  { injection H as <- <-. repeat split; auto; intros [? _]; discriminate. }
  destruct (decide (F_getCallingConv Func = SPIR_KERNEL)) as [Ec|Ec].
  2:{ rewrite bool_decide_eq_false_2 in H by exact Ec. injection H as <- <-.
      repeat split; auto; intros [_ ?]; contradiction. }
  rewrite bool_decide_eq_true_2 in H by exact Ec. cbn [negb] in H.
  destruct (F_reqd_work_group_size Func) as [MD|] eqn:Em.
  - destruct (decide (PrevDimCst st = unset_dims)) as [Ep|Ep].
    + rewrite bool_decide_eq_true_2 in H by exact Ep.
      repeat (apply bind_OK in H as (? & ? & _ & H)).
      injection H as <- _. cbn.
      assert (Ht : true ∈ HasMDVec st ++ [true])
        by (apply elem_of_app; right; left).
      repeat split; auto; try discriminate.
      intros b Hb. apply elem_of_app. left. exact Hb.
    + rewrite bool_decide_eq_false_2 in H by exact Ep.
      destruct (decide (MD_dims MD = PrevDimCst st)) as [Eq|Eq].
      * rewrite bool_decide_eq_true_2 in H by exact Eq. injection H as <- <-.
        repeat split; auto; discriminate.
      * rewrite bool_decide_eq_false_2 in H by exact Eq. discriminate.
  - injection H as <- _. cbn. repeat split.
    + intros Hp. apply elem_of_app. left. auto.
    + intros b Hb. apply elem_of_app. left. exact Hb.
    + intros _ _. apply elem_of_app. right. left.
    + intros _ C. contradiction.
Qed.

Lemma kernels_HasMDVec Ty_ Funcs : forall st s st' s',
  GenerateGlobalVar_kernels Ty_ st Funcs s = OK (st', s') ->
  HasMD_recorded st ->
  HasMD_recorded st'
  /\ (forall b, b ∈ HasMDVec st -> b ∈ HasMDVec st')
  /\ ((exists K, K ∈ Funcs /\ is_kernel K
                 /\ F_reqd_work_group_size K = None) ->
      false ∈ HasMDVec st')
  /\ ((exists K, K ∈ Funcs /\ is_kernel K
                 /\ F_reqd_work_group_size K <> None) ->
      true ∈ HasMDVec st').
Proof.
  induction Funcs as [|F Funcs IH]; intros st s st' s' H Inv; simpl in H.
  - injection H as <- <-. repeat split; auto.
    + intros (K & HK & _). inversion HK.
    + intros (K & HK & _). inversion HK.
  - apply bind_OK in H as (st1 & s1 & H1 & H2).
    destruct (kernel_HasMDVec _ _ _ _ _ _ H1 Inv) as (I1 & K1 & F1 & T1).
    destruct (IH _ _ _ _ H2 I1) as (I2 & K2 & F2 & T2).
    repeat split; auto.
    + intros (K & HK & Hk & Hn). apply elem_of_cons in HK as [->|HK]; eauto.
    + intros (K & HK & Hk & Hn). apply elem_of_cons in HK as [->|HK]; eauto.
Qed.

Lemma mixed_HasMDVec_aborts (l : list bool) (s : Pass) :
  true ∈ l -> false ∈ l ->
  exists msg,
    match l with
    | [] => ret false
    | HasMD :: rest =>
        if forallb (fun b => bool_decide (HasMD = b)) rest then ret HasMD
        else llvm_unreachable
               "Kernels should have consistent work group size definition"
    end s = Abort msg.
Proof.
  intros Ht Hf. destruct l as [|h r]; [inversion Ht|].
  assert (Hr : negb h ∈ r).
  { destruct h; cbn.
    - apply elem_of_cons in Hf as [Hf|Hf]; [discriminate|exact Hf].
    - apply elem_of_cons in Ht as [Ht|Ht]; [discriminate|exact Ht]. }
  assert (E : forallb (fun b => bool_decide (h = b)) r = false).
  { apply not_true_is_false. intros C. rewrite forallb_forall in C.
    apply list_elem_of_In in Hr. specialize (C _ Hr).
    apply bool_decide_eq_true_1 in C. destruct h; discriminate. }
  rewrite E. eexists. reflexivity.
Qed.

(** X8: when the variable [__spirv_WorkgroupSize] is generated for a module
    in which one kernel has a required workgroup size and another kernel
    has none, the translation stops. *)
Theorem mixed_workgroup_size_definitions_abort (Module_ : list Function_)
    (ModuleConstantsInStorageBuffer : bool) (GV : GlobalVariable) (s : Pass) :
  GetBuiltin (GV_getName GV) = spv.BuiltInWorkgroupSize ->
  (exists K, K ∈ Module_ /\ is_kernel K
             /\ F_reqd_work_group_size K <> None) ->
  (exists K, K ∈ Module_ /\ is_kernel K
             /\ F_reqd_work_group_size K = None) ->
  exists msg,
    GenerateGlobalVar Module_ ModuleConstantsInStorageBuffer GV s = Abort msg.
Proof.
  intros HB Hsome Hnone. unfold GenerateGlobalVar. cbv zeta. rewrite HB.
  rewrite bool_decide_eq_true_2 by reflexivity.
  unfold bind at 1. unfold bind at 1.
  destruct (GenerateGlobalVar_kernels (GV_getType GV)
              (mkWGState [] (4294967295, 4294967295, 4294967295) 0)
              Module_ s) as [[st' s1]|msg] eqn:E; [|eauto].
  destruct (kernels_HasMDVec _ _ _ _ _ _ E) as (_ & _ & Hf & Ht).
  { intros C. contradiction C. reflexivity. }
  destruct (mixed_HasMDVec_aborts (HasMDVec st') s1 (Ht Hsome) (Hf Hnone))
    as [msg Hm].
  exists msg. unfold bind at 1. rewrite Hm. reflexivity.
Qed.

Lemma mixed_workgroup_size_definitions_abort_witness :
  exists msg,
    GenerateGlobalVar
      [kernel_example "foo" 2; mkFunction "bar" false SPIR_KERNEL None]
      false WorkgroupSize_example workgroup_example_Pass
    = Abort msg.
Proof.
  apply mixed_workgroup_size_definitions_abort.
  - reflexivity.
  - exists (kernel_example "foo" 2).
    split; [left|]. split; [split; reflexivity|discriminate].
  - exists (mkFunction "bar" false SPIR_KERNEL None).
    split; [right; left|]. split; [split; reflexivity|reflexivity].
Defined.
